(** * contentCMSv3: the sandboxed content-tree manager of [server/src/index.js]

    A shallow embedding of the Express server's path guard
    ([assertValidName], [resolvePostDir], [resolveWithin]), of its tree
    listing ([directoryTree]) and of the per-post entry routes, over a model
    of the POSIX [path] module and of the [fs] / [fs-extra] calls the server
    makes. *)

From Stdlib Require Import String Ascii List ZArith Lia Bool.
From Stdlib Require Import Sorting.Sorted Sorting.Permutation.
Import ListNotations.

Local Open Scope string_scope.
Local Open Scope Z_scope.

(** ** JavaScript string primitives used by the server *)

Module Js.

(** [s.startsWith(p)] *)
Definition startsWith (s p : string) : bool := String.prefix p s.

(** [s.includes(sub)] *)
Fixpoint includes (s sub : string) : bool :=
  String.prefix sub s ||
  match s with
  | EmptyString => false
  | String _ rest => includes rest sub
  end.

(** [s.split('/')]: every separator ends one piece, so the result has one
    more piece than there are separators. *)
Fixpoint split_slash (s : string) : list string :=
  match s with
  | EmptyString => [EmptyString]
  | String c rest =>
      if Ascii.eqb c "/"%char then EmptyString :: split_slash rest
      else match split_slash rest with
           | piece :: pieces => String c piece :: pieces
           | [] => [String c EmptyString]
           end
  end.

(** [pieces.join('/')] *)
Definition join_slash (pieces : list string) : string := String.concat "/" pieces.

(** Last character test, [s.charCodeAt(s.length - 1) === 47]. *)
Fixpoint endsWithSlash (s : string) : bool :=
  match s with
  | EmptyString => false
  | String c EmptyString => Ascii.eqb c "/"%char
  | String _ rest => endsWithSlash rest
  end.

(** A string is truthy when it is not empty. *)
Definition truthy (s : string) : bool := negb (s =? "")%string.

End Js.

(** ** The POSIX [path] module of Node.js

    [normalizeString] walks the path once and keeps the result as the
    segments seen so far; the model keeps that result as a stack of
    segments ([res], innermost first). *)

Module path.

Fixpoint normalizeString (allowAboveRoot : bool) (res : list string)
         (segments : list string) : list string :=
  match segments with
  | [] => rev res
  | seg :: rest =>
      if ((seg =? "") || (seg =? "."))%string then
        normalizeString allowAboveRoot res rest
      else if (seg =? "..")%string then
        match res with
        | top :: res' =>
            if (top =? "..")%string then
              normalizeString allowAboveRoot
                (if allowAboveRoot then ".." :: res else res) rest
            else normalizeString allowAboveRoot res' rest
        | [] =>
            normalizeString allowAboveRoot
              (if allowAboveRoot then [".."] else []) rest
        end
      else normalizeString allowAboveRoot (seg :: res) rest
  end.

Definition isAbsolute (p : string) : bool := Js.startsWith p "/".

Definition normalize (p : string) : string :=
  if (p =? "")%string then "."
  else
    let absolute := isAbsolute p in
    let trailingSeparator := Js.endsWithSlash p in
    let segs := normalizeString (negb absolute) [] (Js.split_slash p) in
    match segs with
    | [] => if absolute then "/" else if trailingSeparator then "./" else "."
    | _ =>
        let body := Js.join_slash segs in
        let body := if trailingSeparator then body ++ "/" else body in
        if absolute then "/" ++ body else body
    end.

(** [path.join(...args)]: the non-empty arguments joined by a separator,
    then normalized. *)
Definition join (args : list string) : string :=
  match filter Js.truthy args with
  | [] => "."
  | parts => normalize (Js.join_slash parts)
  end.

(** The segments an absolute, normalized path names below the root
    directory (what the operating system walks). *)
Definition segments (p : string) : list string :=
  normalizeString false [] (Js.split_slash p).

Fixpoint stripCommon (from to : list string) : list string * list string :=
  match from, to with
  | f :: from', t :: to' =>
      if (f =? t)%string then stripCommon from' to' else (from, to)
  | _, _ => (from, to)
  end.

(** [path.relative(from, to)] for absolute paths. *)
Definition relative (from to : string) : string :=
  let '(up, down) := stripCommon (segments from) (segments to) in
  Js.join_slash (map (fun _ => "..") up ++ down).

End path.

(** ** Errors and the response status

    The handlers throw [Error] objects on which they set [status]; errors
    thrown by [fs], [fs-extra] or the upload middleware carry none.  The
    final Express middleware answers with [err.status || 500]. *)

Inductive errno : Type := ENOENT | ENOTDIR | EEXIST | EISDIR | EINVAL.

Inductive error : Type :=
| HttpError (status : Z) (message : string)
| FsError (code : errno)
| PayloadTooLarge.

Inductive result (A : Type) : Type :=
| Ok (a : A)
| Err (e : error).
Arguments Ok {A} a.
Arguments Err {A} e.

Definition statusOf (e : error) : Z :=
  match e with
  | HttpError status _ => if status =? 0 then 500 else status
  | FsError _ => 500
  | PayloadTooLarge => 500
  end.

(** ** PathGuard *)

Definition assertValidName (name : option string) : result unit :=
  match name with
  | None => Err (HttpError 400 "Name is required")
  | Some name =>
      if negb (Js.truthy name) then Err (HttpError 400 "Name is required")
      else if Js.includes name "/" || Js.includes name ".." then
        Err (HttpError 400 "Invalid name")
      else Ok tt
  end.

Definition resolveWithin (baseDir targetPath : string) : result string :=
  let joined := path.join [baseDir; targetPath] in
  let normalized := path.normalize joined in
  if negb (Js.startsWith normalized baseDir) then
    Err (HttpError 400 "Path traversal is not allowed")
  else Ok normalized.

(** The containment the specification asks of a resolved path: the root
    itself, or the root followed immediately by a separator. *)
Definition insideRoot (root p : string) : bool :=
  (p =? root)%string || Js.startsWith p (root ++ "/").

Section PostsDir.

(** [CONTENT_ROOT] is [path.resolve(__dirname, '../../content')]: an
    absolute normalized path fixed when the process starts. *)
Variable CONTENT_ROOT : string.

Definition POSTS_DIR : string := path.join [CONTENT_ROOT; "posts"].

Definition resolvePostDir (slug : string) : result string :=
  let joined := path.join [POSTS_DIR; slug] in
  let normalized := path.normalize joined in
  if negb (Js.startsWith normalized POSTS_DIR) then
    Err (HttpError 400 "Invalid post path")
  else Ok normalized.

End PostsDir.

(** ** The file system

    The tree below the root directory.  A directory lists its entries in
    the order [readdir] reports them.  [Broken] is an entry that [readdir]
    and [lstat] see but [stat] and [access] cannot follow (a symbolic link
    whose target is gone): the deterministic stand-in for an entry that
    vanishes between the listing and the [stat] call. *)

#[local] Unset Elimination Schemes.
Inductive node : Type :=
| File (size : Z) (mtime : Z)
| Broken
| Dir (entries : list (string * node)).
#[local] Set Elimination Schemes.

Definition isDirectory (n : node) : bool :=
  match n with Dir _ => true | _ => false end.

Fixpoint find_entry (name : string) (es : list (string * node)) : option node :=
  match es with
  | [] => None
  | (k, v) :: es' => if (k =? name)%string then Some v else find_entry name es'
  end.

(** Replace the entry called [name], or add it at the end of the listing. *)
Fixpoint set_entry (name : string) (v : node) (es : list (string * node))
  : list (string * node) :=
  match es with
  | [] => [(name, v)]
  | (k, w) :: es' =>
      if (k =? name)%string then (k, v) :: es' else (k, w) :: set_entry name v es'
  end.

Fixpoint remove_entry (name : string) (es : list (string * node))
  : list (string * node) :=
  match es with
  | [] => []
  | (k, w) :: es' =>
      if (k =? name)%string then remove_entry name es'
      else (k, w) :: remove_entry name es'
  end.

Module fs.

(** [fs.lstat]: walk the segments from the root without following the last
    entry. *)
Fixpoint lstat (p : list string) (n : node) : result node :=
  match p with
  | [] => Ok n
  | s :: p' =>
      match n with
      | Dir es =>
          match find_entry s es with
          | Some c => lstat p' c
          | None => Err (FsError ENOENT)
          end
      | File _ _ => Err (FsError ENOTDIR)
      | Broken => Err (FsError ENOENT)
      end
  end.

(** [fs.access] succeeds on what [stat] can reach. *)
Definition access (p : list string) (n : node) : bool :=
  match lstat p n with
  | Ok (File _ _) | Ok (Dir _) => true
  | _ => false
  end.

(** [fs.mkdir(p, { recursive: true })] *)
Fixpoint mkdirp (p : list string) (n : node) : result node :=
  match n with
  | Dir es =>
      match p with
      | [] => Ok n
      | s :: p' =>
          let child := match find_entry s es with
                       | Some c => c
                       | None => Dir []
                       end in
          match mkdirp p' child with
          | Ok c' => Ok (Dir (set_entry s c' es))
          | Err e => Err e
          end
      end
  | File _ _ => Err (FsError (match p with [] => EEXIST | _ => ENOTDIR end))
  | Broken => Err (FsError EEXIST)
  end.

(** [fs.rm(p, { recursive: true, force: true })]: a missing entry is not an
    error, a regular file in the middle of the path is. *)
Fixpoint rm (p : list string) (n : node) : result node :=
  match p with
  | [] => Err (FsError EINVAL)
  | s :: p' =>
      match n with
      | Dir es =>
          match p' with
          | [] => Ok (Dir (remove_entry s es))
          | _ =>
              match find_entry s es with
              | Some c =>
                  match rm p' c with
                  | Ok c' => Ok (Dir (set_entry s c' es))
                  | Err e => Err e
                  end
              | None => Ok n
              end
          end
      | File _ _ => Err (FsError ENOTDIR)
      | Broken => Ok n
      end
  end.

(** Bind [x] at [p]; the parent directory must exist. *)
Fixpoint put (p : list string) (x : node) (n : node) : result node :=
  match p with
  | [] => Err (FsError EINVAL)
  | s :: p' =>
      match n with
      | Dir es =>
          match p' with
          | [] => Ok (Dir (set_entry s x es))
          | _ =>
              match find_entry s es with
              | Some c =>
                  match put p' x c with
                  | Ok c' => Ok (Dir (set_entry s c' es))
                  | Err e => Err e
                  end
              | None => Err (FsError ENOENT)
              end
          end
      | File _ _ => Err (FsError ENOTDIR)
      | Broken => Err (FsError ENOENT)
      end
  end.

(** [fs.writeFile(p, buffer)]: creates or replaces a regular file. *)
Definition writeFile (p : list string) (size now : Z) (n : node) : result node :=
  match lstat p n with
  | Ok (Dir _) => Err (FsError EISDIR)
  | _ => put p (File size now) n
  end.

Fixpoint isPrefix (a b : list string) : bool :=
  match a, b with
  | [] , _ => true
  | x :: a', y :: b' => (x =? y)%string && isPrefix a' b'
  | _ :: _, [] => false
  end.

Fixpoint list_eqb (a b : list string) : bool :=
  match a, b with
  | [], [] => true
  | x :: a', y :: b' => (x =? y)%string && list_eqb a' b'
  | _, _ => false
  end.

(** Every entry that exists along [p] is a directory: what a recursive
    [mkdir] needs. *)
Fixpoint creatable (p : list string) (n : node) : bool :=
  match n with
  | Dir es =>
      match p with
      | [] => true
      | s :: p' =>
          match find_entry s es with
          | Some c => creatable p' c
          | None => true
          end
      end
  | _ => false
  end.

End fs.

Module fse.

(** [fse.move(src, dest)] with the default [overwrite: false]: the checks of
    [checkPaths] (both ends are [lstat]ed, a directory never moves into
    itself), the creation of the destination's parent, the refusal of an
    existing destination, then the rename. *)
Definition move (src dest : list string) (n : node) : result node :=
  match fs.lstat src n with
  | Err e => Err e
  | Ok srcNode =>
      let destStat :=
        match fs.lstat dest n with
        | Err (FsError ENOENT) => Ok None
        | Err e => Err e
        | Ok d => Ok (Some d)
        end in
      match destStat with
      | Err e => Err e
      | Ok d =>
          let clash :=
            match d with
            | None => false
            | Some destNode =>
                fs.list_eqb src dest
                || negb (Bool.eqb (isDirectory srcNode) (isDirectory destNode))
            end in
          if clash then Err (FsError EINVAL)
          else if isDirectory srcNode && fs.isPrefix src dest then
            Err (FsError EINVAL)
          else
            match fs.mkdirp (removelast dest) n with
            | Err e => Err e
            | Ok n1 =>
                if fs.access dest n1 then Err (FsError EEXIST)
                else
                  match fs.rm src n1 with
                  | Err e => Err e
                  | Ok n2 => fs.put dest srcNode n2
                  end
            end
      end
  end.

End fse.

(** ** Handlers: state and exceptions

    A handler runs against the disk and either answers or throws; what it
    wrote before throwing stays written. *)

Definition M (A : Type) : Type := node -> result A * node.

Definition ret {A} (a : A) : M A := fun disk => (Ok a, disk).

Definition throw {A} (e : error) : M A := fun disk => (Err e, disk).

Definition bind {A B} (c : M A) (k : A -> M B) : M B :=
  fun disk =>
    match c disk with
    | (Ok a, disk') => k a disk'
    | (Err e, disk') => (Err e, disk')
    end.

Definition lift {A} (r : result A) : M A := fun disk => (r, disk).

(** An [fs] call that replaces the disk on success and leaves it alone on
    failure. *)
Definition update (f : node -> result node) : M unit :=
  fun disk =>
    match f disk with
    | Ok disk' => (Ok tt, disk')
    | Err e => (Err e, disk)
    end.

Declare Scope handler_scope.
Delimit Scope handler_scope with handler.
Notation "x <- c ;; k" := (bind c (fun x => k))
  (at level 61, c at next level, right associativity) : handler_scope.
Notation "c ;; k" := (bind c (fun _ => k))
  (at level 61, right associativity) : handler_scope.
Local Open Scope handler_scope.

Definition pathExists (p : string) : M bool :=
  fun disk => (Ok (fs.access (path.segments p) disk), disk).

Definition ensureDir (p : string) : M unit :=
  update (fs.mkdirp (path.segments p)).

Definition remove (p : string) : M unit :=
  update (fs.rm (path.segments p)).

Definition move (src dest : string) : M unit :=
  update (fse.move (path.segments src) (path.segments dest)).

Definition writeFile (p : string) (size now : Z) : M unit :=
  update (fs.writeFile (path.segments p) size now).

Definition ensurePostDirectory (dirPath : string) : M unit :=
  exists_ <- pathExists dirPath ;;
  if negb exists_ then throw (HttpError 404 "Post not found") else ret tt.

(** A request field is absent ([undefined]) or a string; [!field] holds for
    an absent and for an empty one. *)
Definition falsy (field : option string) : bool :=
  match field with
  | None => true
  | Some s => negb (Js.truthy s)
  end.

Definition orEmpty (field : option string) : string :=
  match field with
  | None => ""
  | Some s => s
  end.

Record response : Type := { status : Z; message : string }.

(** ** TreeBuilder *)

#[local] Unset Elimination Schemes.
Inductive item : Type :=
| FileItem (name path : string) (size modifiedAt : Z)
| DirItem (name path : string) (children : list item).
#[local] Set Elimination Schemes.

Definition itemIsDirectory (i : item) : bool :=
  match i with DirItem _ _ _ => true | FileItem _ _ _ _ => false end.

Definition itemName (i : item) : string :=
  match i with DirItem name _ _ => name | FileItem name _ _ _ => name end.

Definition itemPath (i : item) : string :=
  match i with DirItem _ p _ => p | FileItem _ p _ _ => p end.

Section TreeBuilder.

(** [String.prototype.localeCompare] is the collation of the JavaScript
    runtime: negative, zero or positive. *)
Variable localeCompare : string -> string -> Z.

(** The comparator handed to [items.sort]. *)
Definition compareItems (a b : item) : Z :=
  if Bool.eqb (itemIsDirectory a) (itemIsDirectory b) then
    localeCompare (itemName a) (itemName b)
  else if itemIsDirectory a then -1 else 1.

(** [Array.prototype.sort] is a stable sort; with a consistent comparator
    every stable sort returns the same array, here built by insertion. *)
Fixpoint insertItem (a : item) (sorted : list item) : list item :=
  match sorted with
  | [] => [a]
  | b :: rest =>
      if compareItems a b <=? 0 then a :: b :: rest
      else b :: insertItem a rest
  end.

Fixpoint sortItems (items : list item) : list item :=
  match items with
  | [] => []
  | a :: rest => insertItem a (sortItems rest)
  end.

(** The body of the [map] callback followed by [Promise.all]: one item per
    listed entry other than [.DS_Store]; [Promise.all] rejects as soon as
    one of the mapped promises does.  [recurse] is the recursive call. *)
Definition listEntries (recurse : string -> node -> result (list item))
           (currentDir baseDir : string)
  : list (string * node) -> result (list item) :=
  fix each (l : list (string * node)) : result (list item) :=
    match l with
    | [] => Ok []
    | (name, entry) :: l' =>
        if (name =? ".DS_Store")%string then each l'
        else
          let fullPath := path.join [currentDir; name] in
          let relPath := path.relative baseDir fullPath in
          let one :=
            match entry with
            | Dir _ =>
                match recurse fullPath entry with
                | Ok children => Ok (DirItem name relPath children)
                | Err e => Err e
                end
            | File size mtime => Ok (FileItem name relPath size mtime)
            | Broken => Err (FsError ENOENT)
            end in
          match one, each l' with
          | Ok i, Ok is_ => Ok (i :: is_)
          | Err e, _ => Err e
          | Ok _, Err e => Err e
          end
    end.

(** [directoryTree(currentDir, baseDir)], where [dir] is what the disk holds
    at [currentDir]: [readdir] fails on anything but a directory. *)
Fixpoint directoryTree (dir : node) (currentDir baseDir : string)
  : result (list item) :=
  match dir with
  | Dir entries =>
      match listEntries (fun fullPath entry => directoryTree entry fullPath baseDir)
                        currentDir baseDir entries with
      | Ok items => Ok (sortItems items)
      | Err e => Err e
      end
  | File _ _ => Err (FsError ENOTDIR)
  | Broken => Err (FsError ENOENT)
  end.

End TreeBuilder.

(** The order of a listing under a name comparison [cmp]: a directory
    before a file, and within one type the names ascending. *)
Section TreeOrder.

Variable cmp : string -> string -> Z.

Definition itemLe (a b : item) : Prop :=
  (itemIsDirectory a = true /\ itemIsDirectory b = false)
  \/ (itemIsDirectory a = itemIsDirectory b
      /\ cmp (itemName a) (itemName b) <= 0).

Fixpoint levelsSorted (i : item) : Prop :=
  match i with
  | FileItem _ _ _ _ => True
  | DirItem _ _ children =>
      StronglySorted itemLe children
      /\ (fix all (l : list item) : Prop :=
            match l with
            | [] => True
            | c :: l' => levelsSorted c /\ all l'
            end) children
  end.

(** Sorted at this level and at every level below. *)
Definition listingSorted (l : list item) : Prop :=
  StronglySorted itemLe l /\ Forall levelsSorted l.

End TreeOrder.

(** Every entry the listing visits can be read: the directory itself, and
    below it everything that is not called [.DS_Store]. *)
Fixpoint listable (n : node) : bool :=
  match n with
  | Dir entries =>
      forallb (fun e : string * node =>
                 let '(name, entry) := e in
                 (name =? ".DS_Store")%string
                 || match entry with
                    | File _ _ => true
                    | Broken => false
                    | Dir _ => listable entry
                    end) entries
  | _ => false
  end.

(** ** A sample collation

    A two-level comparison in the manner of the runtime's collation on
    ASCII names: letters compare without regard to case first, and only
    names that are equal that way are told apart by case, lower case
    first. *)

Definition isUpper (c : ascii) : bool :=
  let n := nat_of_ascii c in ((65 <=? n) && (n <=? 90))%nat.

Definition lowerCode (c : ascii) : nat :=
  if isUpper c then (nat_of_ascii c + 32)%nat else nat_of_ascii c.

Fixpoint primaryKey (s : string) : list nat :=
  match s with
  | EmptyString => []
  | String c rest => lowerCode c :: primaryKey rest
  end.

Fixpoint caseKey (s : string) : list nat :=
  match s with
  | EmptyString => []
  | String c rest => (if isUpper c then 1%nat else 0%nat) :: caseKey rest
  end.

Fixpoint lexCompare (a b : list nat) : comparison :=
  match a, b with
  | [], [] => Eq
  | [], _ :: _ => Lt
  | _ :: _, [] => Gt
  | x :: a', y :: b' =>
      match Nat.compare x y with
      | Eq => lexCompare a' b'
      | c => c
      end
  end.

Definition signOf (c : comparison) : Z :=
  match c with Lt => -1 | Eq => 0 | Gt => 1 end.

Definition caseInsensitiveCompare (a b : string) : Z :=
  signOf (lexCompare (primaryKey a) (primaryKey b)).

Definition sampleCollate (a b : string) : Z :=
  match lexCompare (primaryKey a) (primaryKey b) with
  | Eq => signOf (lexCompare (caseKey a) (caseKey b))
  | c => signOf c
  end.

(** ** The per-post routes *)

Definition MAX_UPLOAD_SIZE : Z := 50 * 1024 * 1024.

Record upload : Type := { originalname : string; size : Z }.

(** Modelled from the spec: the [multer] middleware configured with
    [limits: { fileSize: MAX_UPLOAD_SIZE }] and memory storage is a
    dependency whose code is outside the server's sources.  Following the
    specification, a payload that exceeds the limit fails with
    [PayloadTooLarge], any other payload is handed to the route in memory;
    the middleware never touches the disk. *)
Definition uploadMiddleware (limit : Z) (file : option upload)
  : result (option upload) :=
  match file with
  | Some f => if size f >? limit then Err PayloadTooLarge else Ok file
  | None => Ok None
  end.

Section Routes.

Variable CONTENT_ROOT : string.
Variable localeCompare : string -> string -> Z.

(** [GET /api/posts/:slug/files] *)
Definition get_files (slug : string) : M (list item) :=
  postDir <- lift (resolvePostDir CONTENT_ROOT slug) ;;
  ensurePostDirectory postDir ;;
  fun disk =>
    match fs.lstat (path.segments postDir) disk with
    | Ok dir => (directoryTree localeCompare dir postDir postDir, disk)
    | Err e => (Err e, disk)
    end.

(** The body of [POST /api/posts/:slug/files/upload], entered once the
    middleware has accepted the request. *)
Definition upload_handler (slug : string) (target : option string)
           (file : option upload) (now : Z) : M response :=
  let target := orEmpty target in
  match file with
  | None => throw (HttpError 400 "File is required")
  | Some file =>
      postDir <- lift (resolvePostDir CONTENT_ROOT slug) ;;
      ensureDir postDir ;;
      destinationDir <- lift (resolveWithin postDir target) ;;
      ensureDir destinationDir ;;
      let filePath := path.join [destinationDir; originalname file] in
      writeFile filePath (size file) now ;;
      ret {| status := 201; message := "File uploaded" |}
  end.

(** [POST /api/posts/:slug/files/upload] *)
Definition post_files_upload (slug : string) (target : option string)
           (file : option upload) (now : Z) : M response :=
  match uploadMiddleware MAX_UPLOAD_SIZE file with
  | Err e => throw e
  | Ok file => upload_handler slug target file now
  end.

(** [POST /api/posts/:slug/files/create-folder] *)
Definition post_files_create_folder (slug : string) (parent name : option string)
  : M response :=
  let parent := orEmpty parent in
  lift (assertValidName name) ;;
  let name := orEmpty name in
  postDir <- lift (resolvePostDir CONTENT_ROOT slug) ;;
  ensureDir postDir ;;
  parentDir <- lift (resolveWithin postDir parent) ;;
  let folderPath := path.join [parentDir; name] in
  exists_ <- pathExists folderPath ;;
  if exists_ then throw (HttpError 409 "Folder already exists")
  else
    ensureDir folderPath ;;
    ret {| status := 201; message := "Folder created" |}.

(** [PUT /api/posts/:slug/files/rename] *)
Definition put_files_rename (slug : string) (source target : option string)
  : M response :=
  if falsy source || falsy target then
    throw (HttpError 400 "source and target are required")
  else
    postDir <- lift (resolvePostDir CONTENT_ROOT slug) ;;
    ensurePostDirectory postDir ;;
    sourcePath <- lift (resolveWithin postDir (orEmpty source)) ;;
    targetPath <- lift (resolveWithin postDir (orEmpty target)) ;;
    targetExists <- pathExists targetPath ;;
    if targetExists then throw (HttpError 409 "Target already exists")
    else
      move sourcePath targetPath ;;
      ret {| status := 200; message := "Renamed successfully" |}.

(** [DELETE /api/posts/:slug/files] *)
Definition delete_files (slug : string) (target : option string) : M response :=
  if falsy target then throw (HttpError 400 "target is required")
  else
    postDir <- lift (resolvePostDir CONTENT_ROOT slug) ;;
    ensurePostDirectory postDir ;;
    targetPath <- lift (resolveWithin postDir (orEmpty target)) ;;
    remove targetPath ;;
    ret {| status := 200; message := "Deleted successfully" |}.

End Routes.

(** ** Plain segments and absolute paths

    A plain segment is what [readdir] can report as a name: not empty, not
    [.] or [..], and free of separators.  [absPath] writes the absolute
    normalized path that walks the given segments. *)

Fixpoint noSlash (s : string) : bool :=
  match s with
  | EmptyString => true
  | String c rest => negb (Ascii.eqb c "/"%char) && noSlash rest
  end.

Definition plainSegment (s : string) : bool :=
  noSlash s && negb (s =? "")%string && negb (s =? ".")%string
  && negb (s =? "..")%string.

Definition absPath (segs : list string) : string := "/" ++ Js.join_slash segs.

(** How far a resolved path can be from its root when the guard accepts
    it: every segment of the root but the last is matched exactly, the
    last one only as a string prefix. *)
Fixpoint withinOrSibling (root resolved : list string) : bool :=
  match root, resolved with
  | [], _ => true
  | [b], r :: _ => String.prefix b r
  | b :: root', r :: resolved' => (b =? r)%string && withinOrSibling root' resolved'
  | _ :: _, [] => false
  end.

(** The segments a relative path adds when it has no [..]: its pieces
    other than the empty one and [.]. *)
Definition relativeSegments (t : string) : list string :=
  filter (fun s => negb ((s =? "") || (s =? "."))%string) (Js.split_slash t).

(** ** Well-formed directories and listed items

    On a real disk the names of one directory are distinct plain segments.
    An item is listed when it appears at some depth of a listing. *)

Fixpoint uniqueNames (names : list string) : bool :=
  match names with
  | [] => true
  | x :: rest => negb (existsb (String.eqb x) rest) && uniqueNames rest
  end.

Fixpoint wellFormed (n : node) : bool :=
  match n with
  | Dir entries =>
      uniqueNames (map fst entries)
      && forallb (fun e : string * node =>
                    let '(name, entry) := e in
                    plainSegment name && wellFormed entry) entries
  | _ => true
  end.

Inductive listed (i : item) : list item -> Prop :=
| listed_here l : In i l -> listed i l
| listed_below name p children l :
    In (DirItem name p children) l -> listed i children -> listed i l.

Definition sameKind (entry : node) (i : item) : Prop :=
  match i, entry with
  | DirItem _ _ _, Dir _ => True
  | FileItem _ _ size modifiedAt, File size' mtime =>
      size = size' /\ modifiedAt = mtime
  | _, _ => False
  end.

Definition notDSStore (name : string) : bool := negb (name =? ".DS_Store")%string.

(** ** PostRegistry: the routes on the posts directory *)

Record postSummary : Type :=
  { postName : string; postSlug : string; postHasIndex : bool;
    postModifiedAt : Z }.

Record postResponse : Type :=
  { postStatus : Z; postMessage : string; postNewName : string }.

(** An [Error] thrown without a [status]: the final middleware answers it
    with 500. *)
Definition plainError (message : string) : error := HttpError 0 message.

(** The comparator of [posts.sort]: the difference of the two dates, the
    second minus the first. *)
Definition comparePosts (a b : postSummary) : Z :=
  postModifiedAt b - postModifiedAt a.

Fixpoint insertPost (a : postSummary) (sorted : list postSummary)
  : list postSummary :=
  match sorted with
  | [] => [a]
  | b :: rest =>
      if comparePosts a b <=? 0 then a :: b :: rest
      else b :: insertPost a rest
  end.

Fixpoint sortPosts (posts : list postSummary) : list postSummary :=
  match posts with
  | [] => []
  | a :: rest => insertPost a (sortPosts rest)
  end.

(** The order of the posts listing: the newer modification time first. *)
Definition postLe (a b : postSummary) : Prop := postModifiedAt b <= postModifiedAt a.

(** [fs.rename(src, dest)], which [fse.rename] is: the entry at [src]
    takes the place of [dest].  The parent of [dest] must be a directory;
    a directory does not move below itself, replaces only an empty
    directory, and a non-directory never replaces a directory. *)
Definition fse_rename (src dest : list string) (n : node) : result node :=
  match fs.lstat src n with
  | Err e => Err e
  | Ok srcNode =>
      let relink :=
        match fs.rm src n with
        | Ok n2 => fs.put dest srcNode n2
        | Err e => Err e
        end in
      if fs.list_eqb src dest then Ok n
      else if isDirectory srcNode && fs.isPrefix src dest then
        Err (FsError EINVAL)
      else
        match fs.lstat (removelast dest) n with
        | Err e => Err e
        | Ok (Dir _) =>
            match fs.lstat dest n with
            | Ok (Dir (_ :: _)) =>
                Err (FsError (if isDirectory srcNode then EEXIST else EISDIR))
            | Ok (Dir []) =>
                if isDirectory srcNode then relink else Err (FsError EISDIR)
            | Ok (File _ _) | Ok Broken =>
                if isDirectory srcNode then Err (FsError ENOTDIR) else relink
            | Err _ => relink
            end
        | Ok _ => Err (FsError ENOTDIR)
        end
  end.

Definition rename (src dest : string) : M unit :=
  update (fse_rename (path.segments src) (path.segments dest)).

Section Registry.

Variable CONTENT_ROOT : string.

(** Directories carry no time in the tree: the modification time [fs.stat]
    reports for the directory at a path is a parameter. *)
Variable dirMtime : string -> Z.

Definition WEBSITE_SCRIPT : string := path.join [CONTENT_ROOT; "website.fish"].

Definition ensureContentStructure : M unit :=
  exists_ <- pathExists (POSTS_DIR CONTENT_ROOT) ;;
  if negb exists_ then
    throw (plainError ("Posts directory not found. Expected at "
                       ++ POSTS_DIR CONTENT_ROOT))
  else
    scriptExists <- pathExists WEBSITE_SCRIPT ;;
    if negb scriptExists then
      throw (plainError ("website.fish script not found. Expected at "
                         ++ WEBSITE_SCRIPT))
    else ret tt.

(** [fs.stat(p)], of which the routes read [mtime]. *)
Definition stat (p : string) : M Z :=
  fun disk =>
    (match fs.lstat (path.segments p) disk with
     | Ok (File _ mtime) => Ok mtime
     | Ok (Dir _) => Ok (dirMtime p)
     | Ok Broken => Err (FsError ENOENT)
     | Err e => Err e
     end, disk).

(** [fs.readdir(p, { withFileTypes: true })]: names with [isDirectory()]. *)
Definition readdir (p : string) : M (list (string * bool)) :=
  fun disk =>
    (match fs.lstat (path.segments p) disk with
     | Ok (Dir entries) => Ok (map (fun e => (fst e, isDirectory (snd e))) entries)
     | Ok (File _ _) => Err (FsError ENOTDIR)
     | Ok Broken => Err (FsError ENOENT)
     | Err e => Err e
     end, disk).

(** [fs.stat(p).catch(() => null)] *)
Definition statOrNull (p : string) : M (option Z) :=
  fun disk =>
    match stat p disk with
    | (Ok mtime, disk') => (Ok (Some mtime), disk')
    | (Err _, disk') => (Ok None, disk')
    end.

(** The [filter], [map] and [Promise.all] of the posts listing. *)
Fixpoint summarize (entries : list (string * bool)) : M (list postSummary) :=
  match entries with
  | [] => ret []
  | (name, isDir) :: rest =>
      if isDir then
        let dirPath := path.join [POSTS_DIR CONTENT_ROOT; name] in
        let indexPath := path.join [dirPath; "index.md"] in
        stats <- stat dirPath ;;
        indexStats <- statOrNull indexPath ;;
        let summary :=
          {| postName := name; postSlug := name;
             postHasIndex := match indexStats with Some _ => true | None => false end;
             postModifiedAt := match indexStats with
                               | Some mtime => mtime
                               | None => stats
                               end |} in
        others <- summarize rest ;;
        ret (summary :: others)
      else summarize rest
  end.

(** [GET /api/posts] *)
Definition get_posts : M (list postSummary) :=
  ensureContentStructure ;;
  entries <- readdir (POSTS_DIR CONTENT_ROOT) ;;
  posts <- summarize entries ;;
  ret (sortPosts posts).

(** [PUT /api/posts/:slug] *)
Definition put_post (slug : string) (newName : option string) : M postResponse :=
  lift (assertValidName newName) ;;
  let newName := orEmpty newName in
  currentDir <- lift (resolvePostDir CONTENT_ROOT slug) ;;
  ensurePostDirectory currentDir ;;
  let newDir := path.join [POSTS_DIR CONTENT_ROOT; newName] in
  exists_ <- pathExists newDir ;;
  if exists_ then
    throw (HttpError 409 "A post with the new name already exists")
  else
    rename currentDir newDir ;;
    ret {| postStatus := 200; postMessage := "Post renamed";
           postNewName := newName |}.

(** [DELETE /api/posts/:slug] *)
Definition delete_post (slug : string) : M response :=
  targetDir <- lift (resolvePostDir CONTENT_ROOT slug) ;;
  ensurePostDirectory targetDir ;;
  remove targetDir ;;
  ret {| status := 200; message := "Post deleted" |}.

End Registry.

(** ** The file browser of the client: [getParentPath], [createTargetPath] *)

(** The index of the last separator, when there is one. *)
Fixpoint lastIndexOfSlash (s : string) : option nat :=
  match s with
  | EmptyString => None
  | String c rest =>
      match lastIndexOfSlash rest with
      | Some i => Some (S i)
      | None => if Ascii.eqb c "/"%char then Some 0%nat else None
      end
  end.

(** The first [n] characters. *)
Fixpoint slice0 (n : nat) (s : string) : string :=
  match n, s with
  | S n', String c rest => String c (slice0 n' rest)
  | _, _ => EmptyString
  end.

(** [s.lastIndexOf('/')] as JavaScript reports it, [-1] for none, and
    [s.slice(0, end)], where a negative [end] counts from the end. *)
Definition lastIndexOf (s : string) : Z :=
  match lastIndexOfSlash s with
  | Some i => Z.of_nat i
  | None => -1
  end.

Definition slice (s : string) (end_ : Z) : string :=
  if end_ <? 0 then slice0 (Z.to_nat (Z.of_nat (String.length s) + end_)) s
  else slice0 (Z.to_nat end_) s.

Definition getParentPath (p : string) : string :=
  if negb (Js.includes p "/") then "" else slice p (lastIndexOf p).

Definition createTargetPath (parent name : string) : string :=
  if Js.truthy parent then parent ++ "/" ++ name else name.

(** ** A sample disk

    One post [foo] with an index document, two notes and a folder, next to
    a sibling post whose name extends it. *)

Definition samplePost : node :=
  Dir [("index.md", File 120 1700000000);
       ("b.md", File 7 1700000300);
       ("A", Dir [("logo.png", File 2048 1700000100)]);
       ("a.md", File 9 1700000200)].

(** The directory of the specification's example, in the order the disk
    lists it, and the same directory with an entry that cannot be read. *)
Definition exampleDir : node :=
  Dir [("b.md", File 7 1700000300); ("A", Dir []); ("a.md", File 9 1700000200)].

Definition brokenDir : node :=
  Dir [("b.md", File 7 1700000300); ("gone.md", Broken);
       ("a.md", File 9 1700000200)].

Definition brokenDisk : node :=
  Dir [("content", Dir [("posts", Dir [("foo", brokenDir)])])].

Definition sampleDisk : node :=
  Dir [("content",
        Dir [("posts",
              Dir [("foo", samplePost);
                   ("foobar", Dir [("index.md", File 64 1700000400)])])])].

(** A disk for the registry: two posts, a stray file in the posts
    directory, and the scaffolding script. *)
Definition registryDisk : node :=
  Dir [("content",
        Dir [("posts",
              Dir [("foo", samplePost);
                   ("notes.txt", File 3 1700000900);
                   ("foobar", Dir [("draft.md", File 64 1700000400)])]);
             ("website.fish", File 512 1690000000)])].

Definition sampleDirMtime (p : string) : Z := 1700000500.

(** * Properties *)

(** ** The [path] model on the server's typical inputs *)

Example join_sibling :
  path.join ["/content/posts/foo"; "../foobar"] = "/content/posts/foobar".
Proof. reflexivity. Qed.

Example join_escape :
  path.join ["/content/posts/my-post"; "../../etc/passwd"] = "/content/etc/passwd".
Proof. reflexivity. Qed.

Example join_collapses :
  path.join ["/content/posts/foo"; "a//b/./c/"] = "/content/posts/foo/a/b/c/".
Proof. reflexivity. Qed.

Example join_empty : path.join ["/content/posts/foo"; ""] = "/content/posts/foo".
Proof. reflexivity. Qed.

Example relative_below :
  path.relative "/content/posts/foo" "/content/posts/foo/a/b.md" = "a/b.md".
Proof. reflexivity. Qed.

Example normalize_above : path.normalize "../../a/../../b" = "../../../b".
Proof. reflexivity. Qed.

(** ** PathGuard *)

Lemma resolveWithin_prefix baseDir targetPath normalized :
  resolveWithin baseDir targetPath = Ok normalized ->
  Js.startsWith normalized baseDir = true.
Proof.
  unfold resolveWithin.
  destruct (Js.startsWith _ baseDir) eqn:E; simpl; intros H.
  - injection H as <-. exact E.
  - discriminate.
Qed.

Lemma resolveWithin_rejects baseDir targetPath :
  Js.startsWith (path.normalize (path.join [baseDir; targetPath])) baseDir = false ->
  resolveWithin baseDir targetPath = Err (HttpError 400 "Path traversal is not allowed").
Proof. unfold resolveWithin. intros ->. reflexivity. Qed.

(** The guard is never stricter than the containment the specification
    asks for: what lies inside the root is accepted. *)
Lemma prefix_refl s : String.prefix s s = true.
Proof.
  induction s as [|c s IH]; simpl; [reflexivity|].
  destruct (ascii_dec c c); [exact IH|congruence].
Qed.

Lemma prefix_app_l s t : forall p,
  String.prefix (s ++ t) p = true -> String.prefix s p = true.
Proof.
  induction s as [|c s IH]; intros p H; [now destruct p|].
  destruct p as [|d p]; simpl in *; [discriminate|].
  destruct (ascii_dec c d); [now apply IH|discriminate].
Qed.

Lemma insideRoot_startsWith root p :
  insideRoot root p = true -> Js.startsWith p root = true.
Proof.
  unfold insideRoot, Js.startsWith. intros H.
  apply orb_true_iff in H as [H|H].
  - apply String.eqb_eq in H as ->. apply prefix_refl.
  - exact (prefix_app_l _ _ _ H).
Qed.

Lemma resolveWithin_accepts_inside baseDir targetPath :
  insideRoot baseDir (path.normalize (path.join [baseDir; targetPath])) = true ->
  resolveWithin baseDir targetPath
  = Ok (path.normalize (path.join [baseDir; targetPath])).
Proof.
  intros H. unfold resolveWithin.
  now rewrite (insideRoot_startsWith _ _ H).
Qed.

Example resolveWithin_spec_example :
  resolveWithin "/content/posts/my-post" "../../etc/passwd"
  = Err (HttpError 400 "Path traversal is not allowed").
Proof. reflexivity. Qed.

Example resolveWithin_empty_is_root :
  resolveWithin "/content/posts/foo" "" = Ok "/content/posts/foo".
Proof. reflexivity. Qed.

(** C1.  The guard compares with [startsWith] only, so a path that leaves
    the root for a sibling whose name extends the root's name is accepted:
    with root [/content/posts/foo], the relative path [../foobar] resolves
    to [/content/posts/foobar], which is neither the root nor below it; the
    same holds for [resolvePostDir], which accepts the slug [../posts2]. *)
Theorem resolveWithin_accepts_sibling_prefix :
  resolveWithin "/content/posts/foo" "../foobar" = Ok "/content/posts/foobar"
  /\ insideRoot "/content/posts/foo" "/content/posts/foobar" = false
  /\ resolvePostDir "/content" "../posts2" = Ok "/content/posts2"
  /\ insideRoot (POSTS_DIR "/content") "/content/posts2" = false.
Proof. repeat split; reflexivity. Qed.

(** C2.  A relative path with a [..] segment that normalizes outside the
    root is not always refused: from root [/content/posts/my-post] the path
    [../my-post-old/index.md] leaves the root and [resolveWithin] returns
    it instead of failing with the traversal error. *)
Theorem resolveWithin_misses_escape :
  In ".." (Js.split_slash "../my-post-old/index.md")
  /\ insideRoot "/content/posts/my-post"
       (path.normalize (path.join ["/content/posts/my-post"; "../my-post-old/index.md"]))
     = false
  /\ resolveWithin "/content/posts/my-post" "../my-post-old/index.md"
     = Ok "/content/posts/my-post-old/index.md".
Proof. repeat split; try reflexivity. simpl. auto. Qed.

(** ** Directory listings *)

Lemma find_set_same s v es : find_entry s (set_entry s v es) = Some v.
Proof.
  induction es as [|[k w] es IH]; simpl.
  - now rewrite String.eqb_refl.
  - destruct (k =? s)%string eqn:E; simpl; rewrite E; auto.
Qed.

Lemma find_set_other s x v es :
  x <> s -> find_entry x (set_entry s v es) = find_entry x es.
Proof.
  intros Hx. induction es as [|[k w] es IH]; simpl.
  - destruct (String.eqb_spec s x); congruence.
  - destruct (String.eqb_spec k s) as [->|Hk]; simpl.
    + destruct (String.eqb_spec s x); congruence.
    + now rewrite IH.
Qed.

Lemma set_entry_same s c es : find_entry s es = Some c -> set_entry s c es = es.
Proof.
  induction es as [|[k w] es IH]; simpl; [discriminate|].
  destruct (k =? s)%string.
  - now intros [= ->].
  - intros H. now rewrite IH.
Qed.

Lemma remove_entry_absent s es : find_entry s es = None -> remove_entry s es = es.
Proof.
  induction es as [|[k w] es IH]; simpl; [reflexivity|].
  destruct (k =? s)%string; [discriminate|].
  intros H. now rewrite IH.
Qed.

Lemma find_remove_same s es : find_entry s (remove_entry s es) = None.
Proof.
  induction es as [|[k w] es IH]; simpl; [reflexivity|].
  destruct (k =? s)%string eqn:E; simpl; [|rewrite E]; exact IH.
Qed.

(** ** The [fs] model *)

Lemma rm_absent p : forall n,
  fs.lstat p n = Err (FsError ENOENT) -> fs.rm p n = Ok n.
Proof.
  induction p as [|s p IH]; intros n H; simpl in *; [discriminate|].
  destruct n as [sz mt| |es]; try discriminate; [reflexivity|].
  destruct (find_entry s es) as [c|] eqn:F.
  - destruct p as [|s' p']; [discriminate|].
    rewrite (IH c H). now rewrite (set_entry_same _ _ _ F).
  - destruct p; [now rewrite (remove_entry_absent _ _ F)|reflexivity].
Qed.

Lemma mkdirp_creatable p : forall n,
  fs.creatable p n = true -> exists n', fs.mkdirp p n = Ok n'.
Proof.
  induction p as [|s p IH]; intros n H; destruct n as [sz mt| |es];
    simpl in *; try discriminate.
  - eauto.
  - destruct (find_entry s es) as [c|] eqn:F.
    + destruct (IH c H) as [c' ->]. eauto.
    + assert (Hn : fs.creatable p (Dir []) = true) by (destruct p; reflexivity).
      destruct (IH _ Hn) as [c' ->]. eauto.
Qed.

Lemma mkdirp_lstat p : forall n n',
  fs.mkdirp p n = Ok n' -> exists es, fs.lstat p n' = Ok (Dir es).
Proof.
  induction p as [|s p IH]; intros n n' H; destruct n as [sz mt| |es];
    simpl in *; try discriminate.
  - injection H as <-. eauto.
  - destruct (fs.mkdirp p _) as [c'|e] eqn:M; [|discriminate].
    injection H as <-. simpl. rewrite find_set_same. eauto.
Qed.

Lemma mkdirp_existing p : forall n es,
  fs.lstat p n = Ok (Dir es) -> fs.mkdirp p n = Ok n.
Proof.
  induction p as [|s p IH]; intros n es H; simpl in *.
  - injection H as ->. reflexivity.
  - destruct n as [sz mt| |es0]; try discriminate.
    destruct (find_entry s es0) as [c|] eqn:F; [|discriminate].
    rewrite (IH _ _ H). now rewrite (set_entry_same _ _ _ F).
Qed.

Lemma mkdirp_keeps_dir p : forall q n n' es,
  fs.lstat q n = Ok (Dir es) -> fs.mkdirp p n = Ok n' ->
  exists es', fs.lstat q n' = Ok (Dir es').
Proof.
  induction p as [|s p IH]; intros q n n' es Hq H;
    destruct n as [sz mt| |es0]; simpl in H; try discriminate.
  - injection H as <-. eauto.
  - destruct (fs.mkdirp p _) as [c'|e] eqn:M; [|discriminate].
    injection H as <-.
    destruct q as [|x q]; simpl in *; [eauto|].
    destruct (String.eqb_spec x s) as [->|Hx].
    + rewrite find_set_same.
      destruct (find_entry s es0) as [c|]; [|discriminate]. eauto.
    + now rewrite (find_set_other _ _ _ _ Hx); eauto.
Qed.

Lemma creatable_empty q : fs.creatable q (Dir []) = true.
Proof. destruct q; reflexivity. Qed.

Lemma mkdirp_keeps_creatable p : forall q n n',
  fs.creatable q n = true -> fs.mkdirp p n = Ok n' -> fs.creatable q n' = true.
Proof.
  induction p as [|s p IH]; intros q n n' Hq H;
    destruct n as [sz mt| |es0]; simpl in H; try discriminate.
  - now injection H as <-.
  - destruct (fs.mkdirp p _) as [c'|e] eqn:M; [|discriminate].
    injection H as <-.
    destruct q as [|x q]; simpl in *; [reflexivity|].
    destruct (String.eqb_spec x s) as [->|Hx].
    + rewrite find_set_same.
      destruct (find_entry s es0) as [c|]; eauto using creatable_empty.
    + now rewrite (find_set_other _ _ _ _ Hx).
Qed.

(** Creating [p] leaves a missing [q] missing, unless [q] lies on [p]. *)
Lemma mkdirp_keeps_absent p : forall q n n',
  fs.isPrefix q p = false ->
  fs.creatable q n = true ->
  fs.lstat q n = Err (FsError ENOENT) ->
  fs.mkdirp p n = Ok n' ->
  fs.lstat q n' = Err (FsError ENOENT).
Proof.
  induction p as [|s p IH]; intros q n n' Hpre Hc Hq H;
    destruct n as [sz mt| |es0]; simpl in H; try discriminate.
  - now injection H as <-.
  - destruct (fs.mkdirp p _) as [c'|e] eqn:M; [|discriminate].
    injection H as <-.
    destruct q as [|x q]; simpl in *; [discriminate|].
    destruct (String.eqb_spec x s) as [->|Hx]; simpl in Hpre.
    + rewrite find_set_same.
      destruct (find_entry s es0) as [c|]; [eauto|].
      apply (IH q (Dir []) c' Hpre (creatable_empty q)); [|exact M].
      destruct q; [discriminate|reflexivity].
    + now rewrite (find_set_other _ _ _ _ Hx).
Qed.

Lemma put_lstat p x : forall n n',
  fs.put p x n = Ok n' -> fs.lstat p n' = Ok x.
Proof.
  induction p as [|s p IH]; intros n n' H; simpl in H; [discriminate|].
  destruct n as [sz mt| |es]; try discriminate.
  destruct p as [|s' p'].
  - injection H as <-. simpl. now rewrite find_set_same.
  - destruct (find_entry s es) as [c|]; [|discriminate].
    destruct (fs.put (s' :: p') x c) as [c'|e] eqn:P; [|discriminate].
    injection H as <-. cbn [fs.lstat]. rewrite find_set_same. eauto.
Qed.

(** ** EntryOperations *)

Ltac run_handler :=
  cbv beta iota zeta delta
      [bind lift throw ret ensurePostDirectory pathExists ensureDir remove move
       writeFile update orEmpty falsy negb orb].

Ltac step := cbv beta iota delta [negb orb].

(** C3.  When the path the target resolves to exists, the rename route
    answers 409 "Target already exists" and the disk, hence the source
    entry, is exactly what it was. *)
Theorem rename_onto_existing_target
        CONTENT_ROOT disk slug source target postDir sourcePath targetPath :
  Js.truthy source = true ->
  Js.truthy target = true ->
  resolvePostDir CONTENT_ROOT slug = Ok postDir ->
  fs.access (path.segments postDir) disk = true ->
  resolveWithin postDir source = Ok sourcePath ->
  resolveWithin postDir target = Ok targetPath ->
  fs.access (path.segments targetPath) disk = true ->
  put_files_rename CONTENT_ROOT slug (Some source) (Some target) disk
  = (Err (HttpError 409 "Target already exists"), disk).
Proof.
  intros Hs Ht Hpost Hdir Hsrc Htgt Hex.
  unfold put_files_rename. run_handler.
  rewrite Hs, Ht. step. rewrite Hpost. step. rewrite Hdir. step.
  rewrite Hsrc. step. rewrite Htgt. step. rewrite Hex. reflexivity.
Qed.

Lemma rename_onto_existing_target_witness :
  fs.access (path.segments "/content/posts/foo/a.md") sampleDisk = true
  /\ put_files_rename "/content" "foo" (Some "b.md") (Some "a.md") sampleDisk
     = (Err (HttpError 409 "Target already exists"), sampleDisk).
Proof.
  split; [reflexivity|].
  apply (rename_onto_existing_target "/content" sampleDisk "foo" "b.md" "a.md"
           "/content/posts/foo" "/content/posts/foo/b.md"
           "/content/posts/foo/a.md"); reflexivity.
Defined.

(** The rename route writes through one call only, so a failed rename
    never changes the disk. *)
Lemma rename_error_keeps_disk CONTENT_ROOT slug source target disk e disk' :
  put_files_rename CONTENT_ROOT slug source target disk = (Err e, disk') ->
  disk' = disk.
Proof.
  unfold put_files_rename.
  destruct (falsy source || falsy target); [now intros [= _ <-]|].
  run_handler.
  destruct (resolvePostDir _ _) as [postDir|e0]; [|now intros [= _ <-]].
  destruct (fs.access (path.segments postDir) disk); step;
    [|now intros [= _ <-]].
  destruct (resolveWithin postDir _) as [sourcePath|e0]; [|now intros [= _ <-]].
  destruct (resolveWithin postDir _) as [targetPath|e0]; [|now intros [= _ <-]].
  destruct (fs.access _ disk); [now intros [= _ <-]|].
  destruct (fse.move _ _ disk); [discriminate|now intros [= _ <-]].
Qed.

(** C4, as the code has it.  With no entry at the source, the rename fails
    and the disk is unchanged: with the [ENOENT] error of the move's
    [lstat] when nothing exists at the target, with 409 "Target already
    exists" when something does. *)
Theorem rename_missing_source
        CONTENT_ROOT disk slug source target postDir sourcePath targetPath :
  Js.truthy source = true ->
  Js.truthy target = true ->
  resolvePostDir CONTENT_ROOT slug = Ok postDir ->
  fs.access (path.segments postDir) disk = true ->
  resolveWithin postDir source = Ok sourcePath ->
  resolveWithin postDir target = Ok targetPath ->
  fs.lstat (path.segments sourcePath) disk = Err (FsError ENOENT) ->
  put_files_rename CONTENT_ROOT slug (Some source) (Some target) disk
  = (if fs.access (path.segments targetPath) disk
     then Err (HttpError 409 "Target already exists")
     else Err (FsError ENOENT),
     disk).
Proof.
  intros Hs Ht Hpost Hdir Hsrc Htgt Hno.
  unfold put_files_rename. run_handler.
  rewrite Hs, Ht. step. rewrite Hpost. step. rewrite Hdir. step.
  rewrite Hsrc. step. rewrite Htgt. step.
  destruct (fs.access (path.segments targetPath) disk); [reflexivity|].
  unfold fse.move. rewrite Hno. reflexivity.
Qed.

Lemma rename_missing_source_witness :
  put_files_rename "/content" "foo" (Some "missing.md") (Some "new.md") sampleDisk
  = (Err (FsError ENOENT), sampleDisk).
Proof.
  apply (rename_missing_source "/content" sampleDisk "foo" "missing.md" "new.md"
           "/content/posts/foo" "/content/posts/foo/missing.md"
           "/content/posts/foo/new.md"); reflexivity.
Defined.

(** C4 as stated fails: the source [missing.md] does not exist, the target
    [a.md] does, and the answer is 409, not a not-found error. *)
Lemma rename_missing_source_conflict :
  fs.lstat (path.segments "/content/posts/foo/missing.md") sampleDisk
  = Err (FsError ENOENT)
  /\ put_files_rename "/content" "foo" (Some "missing.md") (Some "a.md") sampleDisk
     = (Err (HttpError 409 "Target already exists"), sampleDisk)
  /\ statusOf (HttpError 409 "Target already exists") <> 404.
Proof. repeat split; try reflexivity. discriminate. Qed.

(** C5, as the code has it.  The delete route answers 404 only when the
    post directory itself is missing; when the post exists and nothing
    exists at the resolved target, it answers 200 and changes nothing. *)
Theorem delete_absent_target
        CONTENT_ROOT disk slug target postDir targetPath :
  Js.truthy target = true ->
  resolvePostDir CONTENT_ROOT slug = Ok postDir ->
  resolveWithin postDir target = Ok targetPath ->
  (fs.access (path.segments postDir) disk = false ->
   delete_files CONTENT_ROOT slug (Some target) disk
   = (Err (HttpError 404 "Post not found"), disk))
  /\ (fs.access (path.segments postDir) disk = true ->
      fs.lstat (path.segments targetPath) disk = Err (FsError ENOENT) ->
      delete_files CONTENT_ROOT slug (Some target) disk
      = (Ok {| status := 200; message := "Deleted successfully" |}, disk)).
Proof.
  intros Ht Hpost Htgt. unfold delete_files. run_handler.
  rewrite Ht. step. rewrite Hpost. step. split.
  - intros ->. reflexivity.
  - intros -> Hno. step. rewrite Htgt. step.
    rewrite (rm_absent _ _ Hno). reflexivity.
Qed.

Lemma delete_absent_target_witness :
  delete_files "/content" "ghost" (Some "nothing.txt") sampleDisk
  = (Err (HttpError 404 "Post not found"), sampleDisk)
  /\ delete_files "/content" "foo" (Some "nothing.txt") sampleDisk
     = (Ok {| status := 200; message := "Deleted successfully" |}, sampleDisk).
Proof.
  split.
  - apply (delete_absent_target "/content" sampleDisk "ghost" "nothing.txt"
             "/content/posts/ghost" "/content/posts/ghost/nothing.txt");
      reflexivity.
  - apply (delete_absent_target "/content" sampleDisk "foo" "nothing.txt"
             "/content/posts/foo" "/content/posts/foo/nothing.txt");
      reflexivity.
Defined.

(** C5 as stated fails: nothing exists at [nothing.txt] in the post [foo],
    and the delete route succeeds instead of reporting it. *)
Lemma delete_absent_target_is_silent :
  fs.access (path.segments "/content/posts/foo/nothing.txt") sampleDisk = false
  /\ delete_files "/content" "foo" (Some "nothing.txt") sampleDisk
     = (Ok {| status := 200; message := "Deleted successfully" |}, sampleDisk).
Proof. split; reflexivity. Qed.

(** C10, as the code has it.  A missing or empty path argument is refused
    with a 400 before any path is resolved, and the disk is not touched. *)
Theorem empty_path_rejected CONTENT_ROOT disk slug source target :
  (falsy source || falsy target = true ->
   put_files_rename CONTENT_ROOT slug source target disk
   = (Err (HttpError 400 "source and target are required"), disk))
  /\ (falsy target = true ->
      delete_files CONTENT_ROOT slug target disk
      = (Err (HttpError 400 "target is required"), disk)).
Proof.
  split; intros H.
  - unfold put_files_rename. now rewrite H.
  - unfold delete_files. now rewrite H.
Qed.

Lemma empty_path_rejected_witness :
  put_files_rename "/content" "foo" (Some "") (Some "a.md") sampleDisk
  = (Err (HttpError 400 "source and target are required"), sampleDisk)
  /\ delete_files "/content" "foo" None sampleDisk
     = (Err (HttpError 400 "target is required"), sampleDisk).
Proof.
  split.
  - apply (proj1 (empty_path_rejected "/content" sampleDisk "foo" (Some "") (Some "a.md"))).
    reflexivity.
  - apply (proj2 (empty_path_rejected "/content" sampleDisk "foo" None None)).
    reflexivity.
Defined.

(** C10 as stated fails: the non-empty path [.] passes the guard and
    resolves to the post root, which the delete route then removes. *)
Lemma delete_dot_removes_post_root :
  fs.access (path.segments "/content/posts/foo") sampleDisk = true
  /\ exists disk',
       delete_files "/content" "foo" (Some ".") sampleDisk
       = (Ok {| status := 200; message := "Deleted successfully" |}, disk')
       /\ fs.access (path.segments "/content/posts/foo") disk' = false.
Proof. split; [reflexivity|]. eexists. split; reflexivity. Qed.

(** C9.  Creating a folder twice.  For a valid name and a slug and parent
    that resolve, when nothing exists at the target, every entry that
    exists on the way to the post directory and to the target is a
    directory, and the target is not the post directory or one of its
    ancestors: the first call answers 201 and the target is a directory
    afterwards; the same call on the resulting disk answers 409 "Folder
    already exists" and changes nothing. *)
Theorem create_folder_twice
        CONTENT_ROOT disk slug parent name postDir parentDir :
  assertValidName (Some name) = Ok tt ->
  resolvePostDir CONTENT_ROOT slug = Ok postDir ->
  resolveWithin postDir (orEmpty parent) = Ok parentDir ->
  let folder := path.segments (path.join [parentDir; name]) in
  fs.creatable (path.segments postDir) disk = true ->
  fs.creatable folder disk = true ->
  fs.isPrefix folder (path.segments postDir) = false ->
  fs.lstat folder disk = Err (FsError ENOENT) ->
  exists disk1,
    post_files_create_folder CONTENT_ROOT slug parent (Some name) disk
    = (Ok {| status := 201; message := "Folder created" |}, disk1)
    /\ (exists entries, fs.lstat folder disk1 = Ok (Dir entries))
    /\ post_files_create_folder CONTENT_ROOT slug parent (Some name) disk1
       = (Err (HttpError 409 "Folder already exists"), disk1).
Proof.
  intros Hname Hpost Hparent folder Hroot Hmk Hpre Hno.
  destruct (mkdirp_creatable _ _ Hroot) as [d1 Hd1].
  assert (Hno1 : fs.lstat folder d1 = Err (FsError ENOENT))
    by exact (mkdirp_keeps_absent _ _ _ _ Hpre Hmk Hno Hd1).
  assert (Hmk1 : fs.creatable folder d1 = true)
    by exact (mkdirp_keeps_creatable _ _ _ _ Hmk Hd1).
  destruct (mkdirp_creatable _ _ Hmk1) as [d2 Hd2].
  destruct (mkdirp_lstat _ _ _ Hd2) as [es2 Hes2].
  destruct (mkdirp_lstat _ _ _ Hd1) as [es1 Hes1].
  destruct (mkdirp_keeps_dir _ _ _ _ _ Hes1 Hd2) as [es1' Hes1'].
  pose proof (mkdirp_existing _ _ _ Hes1') as Hid.
  unfold orEmpty in Hparent.
  exists d2. unfold post_files_create_folder. rewrite Hname. run_handler.
  rewrite Hpost. step. fold folder. split; [|split].
  - rewrite Hd1. step. rewrite Hparent. step. fold folder.
    unfold fs.access. rewrite Hno1, Hd2. reflexivity.
  - eauto.
  - rewrite Hid. step. rewrite Hparent. step. fold folder.
    unfold fs.access. rewrite Hes2. reflexivity.
Qed.

Lemma create_folder_twice_witness :
  exists disk1,
    post_files_create_folder "/content" "foo" (Some "A") (Some "assets") sampleDisk
    = (Ok {| status := 201; message := "Folder created" |}, disk1)
    /\ (exists entries,
           fs.lstat (path.segments "/content/posts/foo/A/assets") disk1
           = Ok (Dir entries))
    /\ post_files_create_folder "/content" "foo" (Some "A") (Some "assets") disk1
       = (Err (HttpError 409 "Folder already exists"), disk1).
Proof.
  apply (create_folder_twice "/content" sampleDisk "foo" (Some "A") "assets"
           "/content/posts/foo" "/content/posts/foo/A"); reflexivity.
Defined.

(** Where the hypotheses of [create_folder_twice] matter: a parent that is
    a regular file cannot receive a folder, and the name [.] on a post that
    does not exist yet names the post directory the route has just made. *)
Example create_folder_under_file :
  post_files_create_folder "/content" "foo" (Some "index.md") (Some "assets")
                           sampleDisk
  = (Err (FsError ENOTDIR), sampleDisk).
Proof. reflexivity. Qed.

Example create_folder_dot_on_new_post :
  exists disk',
    post_files_create_folder "/content" "draft" None (Some ".") sampleDisk
    = (Err (HttpError 409 "Folder already exists"), disk')
    /\ fs.access (path.segments "/content/posts/draft") disk' = true.
Proof. eexists. split; [vm_compute; reflexivity|reflexivity]. Qed.

(** With the sibling-prefix acceptance of [resolveWithin], a rename whose
    source is [.] moves the post directory to a sibling. *)
Example rename_dot_moves_post_root :
  exists disk',
    put_files_rename "/content" "foo" (Some ".") (Some "../foo2") sampleDisk
    = (Ok {| status := 200; message := "Renamed successfully" |}, disk')
    /\ fs.access (path.segments "/content/posts/foo") disk' = false
    /\ fs.lstat (path.segments "/content/posts/foo2") disk' = Ok samplePost.
Proof. eexists. split; [vm_compute; reflexivity|split; reflexivity]. Qed.

(** ** TreeBuilder *)

(** Induction on the disk tree, with the hypothesis for every entry of a
    directory. *)
Section NodeInduction.

Variable P : node -> Prop.
Hypothesis P_File : forall size mtime, P (File size mtime).
Hypothesis P_Broken : P Broken.
Hypothesis P_Dir :
  forall entries, Forall (fun e => P (snd e)) entries -> P (Dir entries).

Fixpoint node_entries_ind (n : node) : P n :=
  match n with
  | File size mtime => P_File size mtime
  | Broken => P_Broken
  | Dir entries =>
      P_Dir entries
        ((fix all (l : list (string * node)) : Forall (fun e => P (snd e)) l :=
            match l with
            | [] => Forall_nil _
            | e :: l' => Forall_cons e (node_entries_ind (snd e)) (all l')
            end) entries)
  end.

End NodeInduction.

Section SortedListing.

Variable localeCompare : string -> string -> Z.

Hypothesis localeCompare_total :
  forall a b, localeCompare a b <= 0 \/ localeCompare b a <= 0.
Hypothesis localeCompare_trans :
  forall a b c,
    localeCompare a b <= 0 -> localeCompare b c <= 0 -> localeCompare a c <= 0.

#[local] Abbreviation le := (itemLe localeCompare).

Lemma compareItems_le a b : compareItems localeCompare a b <= 0 <-> le a b.
Proof.
  unfold compareItems, itemLe.
  destruct (itemIsDirectory a), (itemIsDirectory b); simpl; split; intros H;
    try lia; auto;
    destruct H as [[? ?]|[? ?]]; try discriminate; try lia.
Qed.

Lemma itemLe_total a b : le a b \/ le b a.
Proof.
  unfold itemLe.
  destruct (itemIsDirectory a), (itemIsDirectory b); auto;
    destruct (localeCompare_total (itemName a) (itemName b)); auto.
Qed.

Lemma itemLe_trans a b c : le a b -> le b c -> le a c.
Proof.
  unfold itemLe.
  intros [[Ha Hb]|[Hab Lab]] [[Hb' Hc]|[Hbc Lbc]]; try congruence.
  - left. split; congruence.
  - left. split; congruence.
  - right. split; [congruence|eauto].
Qed.

Lemma Forall_insertItem (Q : item -> Prop) a l :
  Q a -> Forall Q l -> Forall Q (insertItem localeCompare a l).
Proof.
  intros Ha Hl. induction Hl as [|b l Hb Hl IH]; simpl.
  - auto.
  - destruct (compareItems localeCompare a b <=? 0); auto.
Qed.

Lemma Forall_sortItems (Q : item -> Prop) l :
  Forall Q l -> Forall Q (sortItems localeCompare l).
Proof.
  induction 1 as [|a l Ha Hl IH]; simpl; auto using Forall_insertItem.
Qed.

Lemma insertItem_sorted a l :
  StronglySorted le l -> StronglySorted le (insertItem localeCompare a l).
Proof.
  induction 1 as [|b l Hs IH Hb]; simpl.
  - repeat constructor.
  - destruct (Z.leb_spec (compareItems localeCompare a b) 0) as [Hle|Hgt].
    + apply compareItems_le in Hle.
      constructor; [now constructor|].
      constructor; [exact Hle|].
      eapply Forall_impl; [|exact Hb]. intros c. now apply itemLe_trans.
    + constructor; [exact IH|].
      apply Forall_insertItem; [|exact Hb].
      destruct (itemLe_total a b) as [Hab|Hba]; [|exact Hba].
      apply compareItems_le in Hab. lia.
Qed.

Lemma sortItems_sorted l : StronglySorted le (sortItems localeCompare l).
Proof.
  induction l as [|a l IH]; simpl; [constructor|now apply insertItem_sorted].
Qed.

Lemma levelsSorted_dir cmp name p children :
  levelsSorted cmp (DirItem name p children) <-> listingSorted cmp children.
Proof.
  unfold listingSorted. simpl.
  assert (H : forall l,
             (fix all (l : list item) : Prop :=
                match l with
                | [] => True
                | c :: l' => levelsSorted cmp c /\ all l'
                end) l <-> Forall (levelsSorted cmp) l).
  { induction l as [|c l IH]; split; intros Hl; auto.
    - destruct Hl as [Hc Hl]. constructor; [exact Hc|now apply IH].
    - inversion Hl; subst. split; [assumption|now apply IH]. }
  now rewrite H.
Qed.

Lemma listEntries_levels recurse currentDir baseDir entries :
  Forall (fun e => forall fullPath items,
              recurse fullPath (snd e) = Ok items ->
              listingSorted localeCompare items) entries ->
  forall items,
    listEntries recurse currentDir baseDir entries = Ok items ->
    Forall (levelsSorted localeCompare) items.
Proof.
  induction 1 as [|[name entry] l He Hl IH]; simpl; intros items H.
  - injection H as <-. constructor.
  - destruct (name =? ".DS_Store")%string; [now apply IH|].
    destruct entry as [size mtime| |es]; try discriminate.
    + destruct (listEntries _ _ _ l) as [rest|]; [|discriminate].
      injection H as <-. constructor; [exact I|now apply IH].
    + simpl in He.
      destruct (recurse _ (Dir es)) as [children|] eqn:R; [|discriminate].
      destruct (listEntries _ _ _ l) as [rest|]; [|discriminate].
      injection H as <-. constructor; [|now apply IH].
      apply levelsSorted_dir. eauto.
Qed.

Lemma directoryTree_levels dir :
  forall currentDir baseDir items,
    directoryTree localeCompare dir currentDir baseDir = Ok items ->
    listingSorted localeCompare items.
Proof.
  induction dir as [size mtime| |entries IH] using node_entries_ind;
    intros currentDir baseDir items H; simpl in H; try discriminate.
  destruct (listEntries _ _ _ entries) as [raw|] eqn:L; [|discriminate].
  injection H as <-. split.
  - apply sortItems_sorted.
  - apply Forall_sortItems.
    eapply listEntries_levels; [|exact L].
    eapply Forall_impl; [|exact IH]. intros e He fullPath items. apply He.
Qed.

(** The sorted listing does not depend on the order in which [readdir]
    reports the entries, as long as the comparator tells them apart. *)
Lemma insertItem_perm a l : Permutation (a :: l) (insertItem localeCompare a l).
Proof.
  induction l as [|b l IH]; simpl; [reflexivity|].
  destruct (compareItems localeCompare a b <=? 0); [reflexivity|].
  rewrite perm_swap. now apply perm_skip.
Qed.

Lemma sortItems_perm l : Permutation l (sortItems localeCompare l).
Proof.
  induction l as [|a l IH]; simpl; [reflexivity|].
  rewrite <- insertItem_perm. now apply perm_skip.
Qed.

Lemma sorted_perm_unique l1 : forall l2,
  StronglySorted le l1 -> StronglySorted le l2 -> Permutation l1 l2 ->
  (forall a b, In a l1 -> In b l1 -> le a b -> le b a -> a = b) ->
  l1 = l2.
Proof.
  induction l1 as [|a l1 IH]; intros l2 S1 S2 Hp Hanti.
  - now apply Permutation_nil in Hp.
  - destruct l2 as [|b l2].
    + apply Permutation_sym, Permutation_nil in Hp. discriminate.
    + apply StronglySorted_inv in S1 as [S1 Ha].
      apply StronglySorted_inv in S2 as [S2 Hb].
      rewrite Forall_forall in Ha, Hb.
      assert (Hba : In b (a :: l1))
        by (eapply Permutation_in; [apply Permutation_sym; exact Hp|now left]).
      assert (Hab : In a (b :: l2))
        by (eapply Permutation_in; [exact Hp|now left]).
      assert (Hrefl : forall x, le x x)
        by (intros x; destruct (itemLe_total x x); assumption).
      assert (E : a = b).
      { apply Hanti; [now left|exact Hba| |].
        - destruct Hba as [<-|Hin]; auto.
        - destruct Hab as [<-|Hin]; auto. }
      subst b. f_equal. apply IH; auto.
      * now apply Permutation_cons_inv in Hp.
      * intros x y Hx Hy. apply Hanti; now right.
Qed.

Lemma sortItems_order_independent l1 l2 :
  Permutation l1 l2 ->
  (forall a b, In a l1 -> In b l1 -> le a b -> le b a -> a = b) ->
  sortItems localeCompare l1 = sortItems localeCompare l2.
Proof.
  intros Hp Hanti. apply sorted_perm_unique; try apply sortItems_sorted.
  - rewrite <- (sortItems_perm l1), <- (sortItems_perm l2). exact Hp.
  - intros a b Ha Hb. apply Hanti;
      (eapply Permutation_in; [apply Permutation_sym, sortItems_perm|assumption]).
Qed.

End SortedListing.

(** A listing sorted under one comparison is sorted under every coarser
    one. *)
Lemma itemLe_coarser (fine coarse : string -> string -> Z) :
  (forall a b, fine a b <= 0 -> coarse a b <= 0) ->
  forall a b, itemLe fine a b -> itemLe coarse a b.
Proof. unfold itemLe. intros H a b [?|[? ?]]; auto. Qed.

Lemma StronglySorted_impl {A} (R S : A -> A -> Prop) l :
  (forall a b, R a b -> S a b) -> StronglySorted R l -> StronglySorted S l.
Proof.
  intros H. induction 1 as [|a l Hs IH Ha]; constructor; auto.
  eapply Forall_impl; [|exact Ha]. auto.
Qed.

Lemma listingSorted_coarser (fine coarse : string -> string -> Z) :
  (forall a b, fine a b <= 0 -> coarse a b <= 0) ->
  forall items, listingSorted fine items -> listingSorted coarse items.
Proof.
  intros H.
  assert (Hitem : forall i, levelsSorted fine i -> levelsSorted coarse i).
  { fix IH 1. intros [name p size mt|name p children] Hi; [exact I|].
    apply levelsSorted_dir in Hi. apply levelsSorted_dir.
    destruct Hi as [Hs Hall]. split.
    - eapply StronglySorted_impl; [|exact Hs]. now apply itemLe_coarser.
    - clear Hs. induction children as [|c l IHl]; constructor.
      + apply IH. now inversion Hall.
      + apply IHl. now inversion Hall. }
  intros items [Hs Hall]. split.
  - eapply StronglySorted_impl; [|exact Hs]. now apply itemLe_coarser.
  - eapply Forall_impl; [|exact Hall]. exact Hitem.
Qed.

(** C6.  Whatever the disk holds, a listing that [directoryTree] returns is
    sorted at every level: directories before files and, within one type,
    names ascending under [localeCompare], hence under any comparison that
    [localeCompare] refines, such as the same collation without regard to
    case.  [localeCompare] is the runtime's collation, assumed to be a
    total preorder. *)
Theorem directoryTree_sorted
        (localeCompare caseInsensitive : string -> string -> Z) :
  (forall a b, localeCompare a b <= 0 \/ localeCompare b a <= 0) ->
  (forall a b c,
      localeCompare a b <= 0 -> localeCompare b c <= 0 ->
      localeCompare a c <= 0) ->
  (forall a b, localeCompare a b <= 0 -> caseInsensitive a b <= 0) ->
  forall dir currentDir baseDir items,
    directoryTree localeCompare dir currentDir baseDir = Ok items ->
    listingSorted localeCompare items
    /\ listingSorted caseInsensitive items.
Proof.
  intros Htotal Htrans Hrefines dir currentDir baseDir items H.
  pose proof (directoryTree_levels _ Htotal Htrans _ _ _ _ H) as Hs.
  split; [exact Hs|].
  exact (listingSorted_coarser _ _ Hrefines _ Hs).
Qed.

(** The sample collation is a total preorder that refines the
    case-insensitive comparison. *)

Lemma lexCompare_eq a : forall b, lexCompare a b = Eq -> a = b.
Proof.
  induction a as [|x a IH]; intros [|y b]; simpl; try discriminate; auto.
  destruct (Nat.compare_spec x y) as [Hxy|Hxy|Hxy]; try discriminate.
  intros Hrest. f_equal; auto.
Qed.

Lemma lexCompare_refl a : lexCompare a a = Eq.
Proof. induction a as [|x a IH]; simpl; [|rewrite Nat.compare_refl]; auto. Qed.

Lemma lexCompare_antisym a : forall b, lexCompare b a = CompOpp (lexCompare a b).
Proof.
  induction a as [|x a IH]; intros [|y b]; simpl; auto.
  rewrite (Nat.compare_antisym x y).
  destruct (Nat.compare x y); simpl; auto.
Qed.

Lemma lexCompare_lt_trans a : forall b c,
  lexCompare a b = Lt -> lexCompare b c = Lt -> lexCompare a c = Lt.
Proof.
  induction a as [|x a IH]; intros [|y b] [|z c]; simpl; try discriminate; auto.
  destruct (Nat.compare_spec x y) as [Hxy|Hxy|Hxy],
           (Nat.compare_spec y z) as [Hyz|Hyz|Hyz];
    try discriminate; subst; intros H1 H2.
  - rewrite Nat.compare_refl. eauto.
  - now apply Nat.compare_lt_iff in Hyz as ->.
  - now apply Nat.compare_lt_iff in Hxy as ->.
  - assert (Hxz : (x < z)%nat) by lia.
    now apply Nat.compare_lt_iff in Hxz as ->.
Qed.

Lemma lexCompare_le_trans a b c :
  lexCompare a b <> Gt -> lexCompare b c <> Gt -> lexCompare a c <> Gt.
Proof.
  intros H1 H2.
  destruct (lexCompare a b) eqn:Eab; [| |congruence].
  - apply lexCompare_eq in Eab. now subst.
  - destruct (lexCompare b c) eqn:Ebc; [| |congruence].
    + apply lexCompare_eq in Ebc. subst. now rewrite Eab.
    + now rewrite (lexCompare_lt_trans _ _ _ Eab Ebc).
Qed.

Lemma sampleCollate_le a b :
  sampleCollate a b <= 0 <->
  lexCompare (primaryKey a) (primaryKey b) = Lt
  \/ (lexCompare (primaryKey a) (primaryKey b) = Eq
      /\ lexCompare (caseKey a) (caseKey b) <> Gt).
Proof.
  unfold sampleCollate.
  destruct (lexCompare (primaryKey a) (primaryKey b));
    [destruct (lexCompare (caseKey a) (caseKey b))| |]; simpl; split;
    intros H; try lia; auto; try (right; split; congruence);
    destruct H as [H|[H H']]; congruence.
Qed.

Lemma sampleCollate_total a b : sampleCollate a b <= 0 \/ sampleCollate b a <= 0.
Proof.
  rewrite !sampleCollate_le.
  rewrite (lexCompare_antisym (primaryKey a) (primaryKey b)).
  rewrite (lexCompare_antisym (caseKey a) (caseKey b)).
  destruct (lexCompare (primaryKey a) (primaryKey b));
    [destruct (lexCompare (caseKey a) (caseKey b))| |]; simpl;
    auto; try (left; right; split; congruence);
    right; right; split; congruence.
Qed.

Lemma sampleCollate_trans a b c :
  sampleCollate a b <= 0 -> sampleCollate b c <= 0 -> sampleCollate a c <= 0.
Proof.
  rewrite !sampleCollate_le.
  intros [Hab|[Hab Tab]] [Hbc|[Hbc Tbc]].
  - left. eapply lexCompare_lt_trans; eauto.
  - left. apply lexCompare_eq in Hbc. now rewrite <- Hbc.
  - left. apply lexCompare_eq in Hab. now rewrite Hab.
  - right. split.
    + apply lexCompare_eq in Hab, Hbc. rewrite Hab, Hbc. apply lexCompare_refl.
    + eapply lexCompare_le_trans; eauto.
Qed.

Lemma sampleCollate_refines a b :
  sampleCollate a b <= 0 -> caseInsensitiveCompare a b <= 0.
Proof.
  rewrite sampleCollate_le. unfold caseInsensitiveCompare.
  intros [->|[-> _]]; simpl; lia.
Qed.

Lemma directoryTree_sorted_witness :
  directoryTree sampleCollate exampleDir "/content/posts/foo" "/content/posts/foo"
  = Ok [DirItem "A" "A" [];
        FileItem "a.md" "a.md" 9 1700000200;
        FileItem "b.md" "b.md" 7 1700000300]
  /\ listingSorted sampleCollate
       [DirItem "A" "A" [];
        FileItem "a.md" "a.md" 9 1700000200;
        FileItem "b.md" "b.md" 7 1700000300]
  /\ listingSorted caseInsensitiveCompare
       [DirItem "A" "A" [];
        FileItem "a.md" "a.md" 9 1700000200;
        FileItem "b.md" "b.md" 7 1700000300].
Proof.
  split; [reflexivity|].
  apply (directoryTree_sorted sampleCollate caseInsensitiveCompare
           sampleCollate_total sampleCollate_trans sampleCollate_refines
           exampleDir "/content/posts/foo" "/content/posts/foo").
  reflexivity.
Defined.

(** [directoryTree] returns a listing exactly when every entry it visits
    can be read. *)
Lemma directoryTree_listable localeCompare dir :
  forall currentDir baseDir,
    match directoryTree localeCompare dir currentDir baseDir with
    | Ok _ => listable dir = true
    | Err e => listable dir = false /\ exists code, e = FsError code
    end.
Proof.
  induction dir as [size mtime| |entries IH] using node_entries_ind;
    intros currentDir baseDir; simpl; eauto.
  assert (H : match listEntries
                      (fun fullPath entry =>
                         directoryTree localeCompare entry fullPath baseDir)
                      currentDir baseDir entries with
              | Ok _ => listable (Dir entries) = true
              | Err e => listable (Dir entries) = false
                         /\ exists code, e = FsError code
              end).
  { induction IH as [|[name entry] l He Hl IHl]; simpl; [reflexivity|].
    destruct (name =? ".DS_Store")%string; simpl; [exact IHl|].
    simpl in IHl.
    destruct entry as [size mtime| |es].
    - destruct (listEntries _ _ _ l); exact IHl.
    - eauto.
    - cbn [snd] in He. specialize (He (path.join [currentDir; name]) baseDir).
      destruct (directoryTree localeCompare (Dir es) _ baseDir) as [children|e].
      + rewrite He. simpl. destruct (listEntries _ _ _ l); exact IHl.
      + destruct He as [-> Hcode]. split; [reflexivity|exact Hcode]. }
  destruct (listEntries _ _ _ entries); exact H.
Qed.

(** C7, as the code has it.  The listing is all or nothing: when an entry
    at any depth cannot be read, [directoryTree] fails as a whole with the
    file-system error; it returns a tree only when every visited entry can
    be read; a post whose root directory is missing is answered with 404. *)
Theorem directoryTree_all_or_nothing CONTENT_ROOT localeCompare :
  (forall dir currentDir baseDir,
      listable dir = false ->
      exists code,
        directoryTree localeCompare dir currentDir baseDir = Err (FsError code))
  /\ (forall dir currentDir baseDir,
         listable dir = true ->
         exists items,
           directoryTree localeCompare dir currentDir baseDir = Ok items)
  /\ (forall slug postDir disk,
         resolvePostDir CONTENT_ROOT slug = Ok postDir ->
         fs.access (path.segments postDir) disk = false ->
         get_files CONTENT_ROOT localeCompare slug disk
         = (Err (HttpError 404 "Post not found"), disk)).
Proof.
  split; [|split].
  - intros dir currentDir baseDir Hno.
    pose proof (directoryTree_listable localeCompare dir currentDir baseDir) as H.
    destruct (directoryTree _ _ _ _) as [items|e].
    + congruence.
    + destruct H as [_ [code ->]]. eauto.
  - intros dir currentDir baseDir Hyes.
    pose proof (directoryTree_listable localeCompare dir currentDir baseDir) as H.
    destruct (directoryTree _ _ _ _) as [items|e]; [eauto|].
    destruct H as [H _]. congruence.
  - intros slug postDir disk Hpost Hno.
    unfold get_files. run_handler. rewrite Hpost. step. rewrite Hno. reflexivity.
Qed.

Lemma directoryTree_all_or_nothing_witness :
  (exists code,
      directoryTree sampleCollate brokenDir "/content/posts/foo" "/content/posts/foo"
      = Err (FsError code))
  /\ (exists items,
         directoryTree sampleCollate exampleDir "/content/posts/foo"
                       "/content/posts/foo" = Ok items)
  /\ get_files "/content" sampleCollate "ghost" sampleDisk
     = (Err (HttpError 404 "Post not found"), sampleDisk).
Proof.
  destruct (directoryTree_all_or_nothing "/content" sampleCollate)
    as [Hfail [Hok Hroot]].
  split; [|split].
  - apply Hfail. reflexivity.
  - apply Hok. reflexivity.
  - apply (Hroot "ghost" "/content/posts/ghost"); reflexivity.
Defined.

(** C7 as stated fails: with one unreadable entry between two readable
    files the listing is not the tree of the two files, it is an error,
    and the route answers with status 500. *)
Lemma directoryTree_aborts_on_unreadable_entry :
  directoryTree sampleCollate brokenDir "/content/posts/foo" "/content/posts/foo"
  = Err (FsError ENOENT)
  /\ get_files "/content" sampleCollate "foo" brokenDisk
     = (Err (FsError ENOENT), brokenDisk)
  /\ statusOf (FsError ENOENT) = 500.
Proof. repeat split; reflexivity. Qed.

(** ** UploadIngest *)

Lemma writeFile_lstat p size now n n' :
  fs.writeFile p size now n = Ok n' -> fs.lstat p n' = Ok (File size now).
Proof.
  unfold fs.writeFile. intros H. apply put_lstat with (n := n).
  destruct (fs.lstat p n) as [[| |]|]; (discriminate || exact H).
Qed.

(** C8.  The cap is 50 MiB.  A file of exactly that size passes the
    middleware, and when the disk accepts the route's calls the route
    answers 201 with the file written at its destination; a file one byte
    larger is refused with [PayloadTooLarge] and the disk is untouched. *)
Theorem upload_size_cap
        CONTENT_ROOT disk slug target name now postDir destinationDir d1 d2 d3 :
  resolvePostDir CONTENT_ROOT slug = Ok postDir ->
  fs.mkdirp (path.segments postDir) disk = Ok d1 ->
  resolveWithin postDir (orEmpty target) = Ok destinationDir ->
  fs.mkdirp (path.segments destinationDir) d1 = Ok d2 ->
  fs.writeFile (path.segments (path.join [destinationDir; name]))
               MAX_UPLOAD_SIZE now d2 = Ok d3 ->
  MAX_UPLOAD_SIZE = 50 * 2 ^ 20
  /\ post_files_upload CONTENT_ROOT slug target
       (Some {| originalname := name; size := MAX_UPLOAD_SIZE |}) now disk
     = (Ok {| status := 201; message := "File uploaded" |}, d3)
  /\ fs.lstat (path.segments (path.join [destinationDir; name])) d3
     = Ok (File MAX_UPLOAD_SIZE now)
  /\ post_files_upload CONTENT_ROOT slug target
       (Some {| originalname := name; size := MAX_UPLOAD_SIZE + 1 |}) now disk
     = (Err PayloadTooLarge, disk).
Proof.
  intros Hpost Hd1 Hdest Hd2 Hd3. unfold orEmpty in Hdest.
  split; [reflexivity|]. split; [|split].
  - unfold post_files_upload, uploadMiddleware, upload_handler.
    cbn [size originalname]. rewrite Z.gtb_ltb, Z.ltb_irrefl.
    run_handler. cbn [size originalname].
    rewrite Hpost. step. rewrite Hd1. step. rewrite Hdest. step.
    rewrite Hd2. step. rewrite Hd3. reflexivity.
  - exact (writeFile_lstat _ _ _ _ _ Hd3).
  - unfold post_files_upload, uploadMiddleware. cbn [size].
    replace (MAX_UPLOAD_SIZE + 1 >? MAX_UPLOAD_SIZE) with true
      by (symmetry; apply Z.gtb_lt; lia).
    reflexivity.
Qed.

Lemma upload_size_cap_witness :
  exists d3,
    post_files_upload "/content" "foo" (Some "A")
      (Some {| originalname := "photo.png"; size := MAX_UPLOAD_SIZE |})
      1700001000 sampleDisk
    = (Ok {| status := 201; message := "File uploaded" |}, d3)
    /\ fs.lstat (path.segments "/content/posts/foo/A/photo.png") d3
       = Ok (File MAX_UPLOAD_SIZE 1700001000)
    /\ post_files_upload "/content" "foo" (Some "A")
         (Some {| originalname := "photo.png"; size := MAX_UPLOAD_SIZE + 1 |})
         1700001000 sampleDisk
       = (Err PayloadTooLarge, sampleDisk).
Proof.
  eexists.
  apply (proj2 (upload_size_cap "/content" sampleDisk "foo" (Some "A")
                  "photo.png" 1700001000 "/content/posts/foo"
                  "/content/posts/foo/A" sampleDisk sampleDisk _
                  eq_refl eq_refl eq_refl eq_refl eq_refl)).
Defined.

(** The routes that create the post directory on demand do so before they
    resolve the relative path: a folder request whose parent leaves the
    root is refused with 400 after the post directory has been made. *)
Example create_folder_refusal_follows_mkdir :
  fs.access (path.segments "/content/posts/draft") sampleDisk = false
  /\ exists disk',
       post_files_create_folder "/content" "draft" (Some "../../etc")
         (Some "assets") sampleDisk
       = (Err (HttpError 400 "Path traversal is not allowed"), disk')
       /\ fs.access (path.segments "/content/posts/draft") disk' = true.
Proof.
  split; [reflexivity|]. eexists. split; [vm_compute; reflexivity|reflexivity].
Qed.

(** The round trip of the specification: create [assets], rename it to
    [media], list the post. *)
Example create_rename_list :
  exists d1 d2,
    post_files_create_folder "/content" "foobar" None (Some "assets") sampleDisk
    = (Ok {| status := 201; message := "Folder created" |}, d1)
    /\ put_files_rename "/content" "foobar" (Some "assets") (Some "media") d1
       = (Ok {| status := 200; message := "Renamed successfully" |}, d2)
    /\ get_files "/content" sampleCollate "foobar" d2
       = (Ok [DirItem "media" "media" [];
              FileItem "index.md" "index.md" 64 1700000400], d2).
Proof. do 2 eexists. split; [|split]; vm_compute; reflexivity. Qed.

(** * Further properties of the server *)

(** ** Strings and the [path] model *)

Lemma split_slash_cons s : exists piece pieces, Js.split_slash s = piece :: pieces.
Proof.
  induction s as [|c s [p [ps IH]]]; simpl; [eauto|].
  destruct (Ascii.eqb c "/"); [eauto|]. rewrite IH. eauto.
Qed.

Lemma split_slash_noSlash s : noSlash s = true -> Js.split_slash s = [s].
Proof.
  induction s as [|c s IH]; simpl; [reflexivity|].
  destruct (Ascii.eqb c "/"); simpl; [discriminate|].
  intros H. now rewrite (IH H).
Qed.

Lemma split_slash_pieces s : Forall (fun p => noSlash p = true) (Js.split_slash s).
Proof.
  induction s as [|c s IH]; simpl; [now repeat constructor|].
  destruct (Ascii.eqb c "/") eqn:E; [now constructor|].
  destruct (Js.split_slash s) as [|p ps]; [now repeat constructor; simpl; rewrite E|].
  inversion IH; subst. constructor; [simpl; now rewrite E|assumption].
Qed.

Lemma split_slash_app a b :
  Js.split_slash (a ++ "/" ++ b) = (Js.split_slash a ++ Js.split_slash b)%list.
Proof.
  induction a as [|c a IH]; simpl in *; [reflexivity|].
  rewrite IH.
  destruct (Ascii.eqb c "/"); [reflexivity|].
  destruct (split_slash_cons a) as [p [ps ->]]. reflexivity.
Qed.

Lemma join_slash_cons x y l :
  Js.join_slash (x :: y :: l) = x ++ "/" ++ Js.join_slash (y :: l).
Proof. reflexivity. Qed.

Lemma split_join_slash segs :
  segs <> [] -> Forall (fun p => noSlash p = true) segs ->
  Js.split_slash (Js.join_slash segs) = segs.
Proof.
  induction segs as [|x [|y l] IH]; intros Hne Hall; [congruence| |].
  - inversion Hall; subst. now apply split_slash_noSlash.
  - inversion Hall; subst.
    rewrite join_slash_cons, split_slash_app, split_slash_noSlash by assumption.
    rewrite IH; [reflexivity|discriminate|assumption].
Qed.

Lemma plainSegment_noSlash s : plainSegment s = true -> noSlash s = true.
Proof.
  unfold plainSegment. intros H.
  now repeat (apply andb_true_iff in H as [H _]).
Qed.

Lemma plain_all_noSlash segs :
  Forall (fun p => plainSegment p = true) segs ->
  Forall (fun p => noSlash p = true) segs.
Proof. apply Forall_impl. exact plainSegment_noSlash. Qed.

Lemma normalizeString_app allow l1 : forall res l2,
  path.normalizeString allow res (l1 ++ l2)
  = path.normalizeString allow (rev (path.normalizeString allow res l1)) l2.
Proof.
  induction l1 as [|seg l1 IH]; intros res l2; simpl.
  - now rewrite rev_involutive.
  - destruct ((seg =? "") || (seg =? "."))%string; [apply IH|].
    destruct (seg =? "..")%string; [|apply IH].
    destruct res as [|top res']; [apply IH|].
    destruct (top =? "..")%string; apply IH.
Qed.

Lemma normalizeString_plain l : forall res,
  Forall (fun p => plainSegment p = true) l ->
  path.normalizeString false res l = (rev res ++ l)%list.
Proof.
  induction l as [|seg l IH]; intros res Hall; simpl.
  - now rewrite app_nil_r.
  - inversion Hall as [|? ? Hseg Hl]; subst.
    unfold plainSegment in Hseg.
    apply andb_true_iff in Hseg as [Hseg Hdd].
    apply andb_true_iff in Hseg as [Hseg Hd].
    apply andb_true_iff in Hseg as [_ He].
    apply negb_true_iff in Hdd, Hd, He. rewrite He, Hd, Hdd. simpl.
    rewrite (IH _ Hl). simpl. now rewrite <- app_assoc.
Qed.

(** What [normalizeString] returns for an absolute path is a list of plain
    segments. *)
Lemma normalizeString_output l : forall res,
  Forall (fun p => noSlash p = true) l ->
  Forall (fun p => plainSegment p = true) res ->
  Forall (fun p => plainSegment p = true) (path.normalizeString false res l).
Proof.
  induction l as [|seg l IH]; intros res Hl Hres; simpl.
  - now apply Forall_rev.
  - inversion Hl as [|? ? Hseg Hl']; subst.
    destruct (seg =? "")%string eqn:He; simpl; [now apply IH|].
    destruct (seg =? ".")%string eqn:Hd; simpl; [now apply IH|].
    destruct (seg =? "..")%string eqn:Hdd.
    + destruct res as [|top res']; [now apply IH|].
      inversion Hres; subst.
      destruct (top =? "..")%string; apply IH; auto.
    + apply IH; [assumption|]. constructor; [|assumption].
      unfold plainSegment. now rewrite Hseg, He, Hd, Hdd.
Qed.

Lemma segments_plain p : Forall (fun s => plainSegment s = true) (path.segments p).
Proof.
  unfold path.segments. apply normalizeString_output; [|constructor].
  apply split_slash_pieces.
Qed.

Lemma append_nil_r s : s ++ "" = s.
Proof. induction s as [|c s IH]; simpl; [reflexivity|now rewrite IH]. Qed.

Lemma append_assoc a b c : (a ++ b) ++ c = a ++ (b ++ c).
Proof. induction a as [|x a IH]; simpl; [reflexivity|now rewrite IH]. Qed.

Lemma prefix_app s t : String.prefix s (s ++ t) = true.
Proof.
  induction s as [|c s IH]; simpl; [now destruct t|].
  destruct (ascii_dec c c); [exact IH|congruence].
Qed.

Lemma endsWithSlash_app a b :
  b <> "" -> Js.endsWithSlash (a ++ b) = Js.endsWithSlash b.
Proof.
  intros Hb. induction a as [|c a IH]; [reflexivity|].
  simpl. rewrite IH. destruct (a ++ b) eqn:E; [|reflexivity].
  destruct a; simpl in E; [congruence|discriminate].
Qed.

Lemma endsWithSlash_noSlash s : noSlash s = true -> Js.endsWithSlash s = false.
Proof.
  induction s as [|c s IH]; simpl; [reflexivity|].
  intros H. apply andb_true_iff in H as [Hc Hs]. apply negb_true_iff in Hc.
  destruct s; [exact Hc|now apply IH].
Qed.

Lemma plainSegment_nonempty s : plainSegment s = true -> s <> "".
Proof.
  unfold plainSegment. intros H ->. simpl in H. discriminate.
Qed.

Lemma join_slash_nonempty x l :
  plainSegment x = true -> Js.join_slash (x :: l) <> "".
Proof.
  intros Hx. pose proof (plainSegment_nonempty _ Hx) as Hne.
  destruct l; [exact Hne|]. rewrite join_slash_cons.
  destruct x; [congruence|discriminate].
Qed.

Lemma endsWithSlash_join segs :
  segs <> [] -> Forall (fun p => plainSegment p = true) segs ->
  Js.endsWithSlash (Js.join_slash segs) = false.
Proof.
  induction segs as [|x [|y l] IH]; intros Hne Hall; [congruence| |].
  - inversion Hall; subst.
    now apply endsWithSlash_noSlash, plainSegment_noSlash.
  - inversion Hall as [|? ? Hx Hl]; subst. rewrite join_slash_cons.
    inversion Hl; subst.
    rewrite endsWithSlash_app
      by (destruct (Js.join_slash (y :: l)); discriminate).
    rewrite endsWithSlash_app by now apply join_slash_nonempty.
    apply IH; [discriminate|assumption].
Qed.

Lemma absPath_isAbsolute segs : path.isAbsolute (absPath segs) = true.
Proof.
  unfold path.isAbsolute, Js.startsWith, absPath. simpl.
  now destruct (Js.join_slash segs).
Qed.

Lemma endsWithSlash_absPath segs :
  segs <> [] -> Forall (fun p => plainSegment p = true) segs ->
  Js.endsWithSlash (absPath segs) = false.
Proof.
  intros Hne Hall. unfold absPath.
  destruct segs as [|x l]; [congruence|].
  inversion Hall; subst.
  rewrite endsWithSlash_app by now apply join_slash_nonempty.
  now apply endsWithSlash_join.
Qed.

Lemma segments_absPath segs :
  Forall (fun p => plainSegment p = true) segs -> path.segments (absPath segs) = segs.
Proof.
  intros Hall. destruct segs as [|x l]; [reflexivity|].
  unfold path.segments, absPath.
  change ("/" ++ Js.join_slash (x :: l)) with ("" ++ "/" ++ Js.join_slash (x :: l)).
  rewrite split_slash_app.
  rewrite split_join_slash; [|discriminate|now apply plain_all_noSlash].
  rewrite normalizeString_app.
  change (path.normalizeString false [] (Js.split_slash "")) with (@nil string).
  now rewrite normalizeString_plain.
Qed.

Lemma segments_slash p : path.segments (p ++ "/") = path.segments p.
Proof.
  unfold path.segments.
  change (p ++ "/") with (p ++ "/" ++ "").
  rewrite split_slash_app, normalizeString_app. simpl.
  apply rev_involutive.
Qed.

Lemma isAbsolute_nonempty p : path.isAbsolute p = true -> (p =? "")%string = false.
Proof. destruct p; [discriminate|reflexivity]. Qed.

(** The shape of a normalized absolute path. *)
Lemma normalize_absolute p :
  path.isAbsolute p = true ->
  path.normalize p
  = match path.segments p with
    | [] => "/"
    | segs => if Js.endsWithSlash p then absPath segs ++ "/" else absPath segs
    end.
Proof.
  intros Habs. unfold path.normalize, path.segments.
  rewrite (isAbsolute_nonempty _ Habs), Habs. cbn [negb].
  destruct (path.normalizeString false [] (Js.split_slash p)) as [|x l];
    [reflexivity|].
  destruct (Js.endsWithSlash p); reflexivity.
Qed.

Lemma isAbsolute_app a b :
  path.isAbsolute a = true -> path.isAbsolute (a ++ b) = true.
Proof.
  unfold path.isAbsolute, Js.startsWith.
  destruct a as [|c a]; cbn [String.prefix String.append]; [discriminate|].
  destruct (ascii_dec "/" c); [|discriminate].
  intros _. now destruct (a ++ b).
Qed.

Lemma normalize_isAbsolute p :
  path.isAbsolute p = true -> path.isAbsolute (path.normalize p) = true.
Proof.
  intros Habs. rewrite (normalize_absolute _ Habs).
  destruct (path.segments p); [reflexivity|]. cbv zeta.
  destruct (Js.endsWithSlash p);
    [apply isAbsolute_app|]; apply absPath_isAbsolute.
Qed.

Lemma segments_normalize p :
  path.isAbsolute p = true -> path.segments (path.normalize p) = path.segments p.
Proof.
  intros Habs. rewrite (normalize_absolute _ Habs).
  pose proof (segments_plain p) as Hplain.
  destruct (path.segments p) as [|x l] eqn:E; [reflexivity|]. cbv zeta.
  destruct (Js.endsWithSlash p);
    [rewrite segments_slash|]; now apply segments_absPath.
Qed.

Lemma normalize_idempotent p :
  path.isAbsolute p = true -> path.normalize (path.normalize p) = path.normalize p.
Proof.
  intros Habs.
  rewrite (normalize_absolute (path.normalize p)) by now apply normalize_isAbsolute.
  rewrite (segments_normalize _ Habs).
  rewrite (normalize_absolute p Habs).
  pose proof (segments_plain p) as Hplain.
  destruct (path.segments p) as [|x l] eqn:E; [reflexivity|]. cbv zeta.
  destruct (Js.endsWithSlash p).
  - rewrite endsWithSlash_app by discriminate. reflexivity.
  - rewrite endsWithSlash_absPath; [reflexivity|discriminate|assumption].
Qed.

Lemma isAbsolute_truthy a : path.isAbsolute a = true -> Js.truthy a = true.
Proof. destruct a; [discriminate|reflexivity]. Qed.

Lemma join_absolute a b :
  path.isAbsolute a = true ->
  path.join [a; b]
  = if Js.truthy b then path.normalize (a ++ "/" ++ b) else path.normalize a.
Proof.
  intros Habs. unfold path.join. cbn [filter].
  rewrite (isAbsolute_truthy _ Habs). now destruct (Js.truthy b).
Qed.

Lemma join_isAbsolute a b :
  path.isAbsolute a = true -> path.isAbsolute (path.join [a; b]) = true.
Proof.
  intros Habs. rewrite (join_absolute _ _ Habs).
  destruct (Js.truthy b); apply normalize_isAbsolute; [|assumption].
  now apply isAbsolute_app.
Qed.

Lemma segments_join a b :
  path.isAbsolute a = true ->
  path.segments (path.join [a; b])
  = path.normalizeString false (rev (path.segments a)) (Js.split_slash b).
Proof.
  intros Habs. rewrite (join_absolute _ _ Habs).
  destruct (Js.truthy b) eqn:Hb.
  - rewrite segments_normalize by now apply isAbsolute_app.
    unfold path.segments. now rewrite split_slash_app, normalizeString_app.
  - destruct b; [|discriminate]. rewrite (segments_normalize _ Habs).
    simpl. now rewrite rev_involutive.
Qed.

(** A joined absolute path is the absolute path of its segments, with at
    most a trailing separator. *)
Lemma join_shape a b :
  path.isAbsolute a = true ->
  path.join [a; b] = "/"
  \/ exists tr, (tr = "" \/ tr = "/")
                /\ path.join [a; b] = absPath (path.segments (path.join [a; b])) ++ tr.
Proof.
  intros Habs.
  assert (H : forall p, path.isAbsolute p = true ->
                        path.normalize p = "/"
                        \/ exists tr, (tr = "" \/ tr = "/")
                                      /\ path.normalize p
                                         = absPath (path.segments (path.normalize p)) ++ tr).
  { intros p Hp. rewrite (segments_normalize _ Hp), (normalize_absolute _ Hp).
    destruct (path.segments p) as [|x l]; [now left|]. right. cbv zeta.
    destruct (Js.endsWithSlash p); [exists "/"|exists ""]; split; auto.
    now rewrite append_nil_r. }
  rewrite (join_absolute _ _ Habs).
  destruct (Js.truthy b); apply H; [now apply isAbsolute_app|assumption].
Qed.

Lemma resolveWithin_absolute baseDir targetPath :
  path.isAbsolute baseDir = true ->
  resolveWithin baseDir targetPath
  = if Js.startsWith (path.join [baseDir; targetPath]) baseDir
    then Ok (path.join [baseDir; targetPath])
    else Err (HttpError 400 "Path traversal is not allowed").
Proof.
  intros Habs. unfold resolveWithin.
  assert (E : path.normalize (path.join [baseDir; targetPath])
              = path.join [baseDir; targetPath]).
  { rewrite (join_absolute _ _ Habs).
    destruct (Js.truthy targetPath); apply normalize_idempotent;
      [now apply isAbsolute_app|assumption]. }
  rewrite E. now destruct (Js.startsWith _ baseDir).
Qed.

Lemma normalizeString_no_dotdot l : forall res,
  ~ In ".." l ->
  path.normalizeString false res l
  = (rev res ++ filter (fun s => negb ((s =? "") || (s =? "."))%string) l)%list.
Proof.
  induction l as [|seg l IH]; intros res Hno; simpl.
  - now rewrite app_nil_r.
  - assert (Hl : ~ In ".." l) by (intros H; apply Hno; now right).
    destruct ((seg =? "") || (seg =? "."))%string; simpl; [now apply IH|].
    destruct (String.eqb_spec seg "..") as [->|Hne]; [exfalso; apply Hno; now left|].
    rewrite (IH _ Hl). simpl. now rewrite <- app_assoc.
Qed.

Lemma join_slash_app bs ts :
  bs <> [] -> ts <> [] ->
  Js.join_slash (bs ++ ts) = Js.join_slash bs ++ "/" ++ Js.join_slash ts.
Proof.
  intros Hb Ht. induction bs as [|x [|y l] IH]; [congruence| |].
  - destruct ts; [congruence|reflexivity].
  - change ((x :: y :: l) ++ ts)%list with (x :: (y :: (l ++ ts)))%list.
    rewrite !join_slash_cons.
    change (y :: l ++ ts)%list with ((y :: l) ++ ts)%list.
    rewrite IH by discriminate. now rewrite !append_assoc.
Qed.

Lemma absPath_app bs ts :
  bs <> [] ->
  absPath (bs ++ ts)
  = absPath bs ++ match ts with [] => "" | _ => "/" ++ Js.join_slash ts end.
Proof.
  intros Hb. destruct ts as [|t ts].
  - now rewrite app_nil_r, append_nil_r.
  - unfold absPath. rewrite join_slash_app by (assumption || discriminate).
    reflexivity.
Qed.

Lemma resolveWithin_descends bs targetPath :
  bs <> [] ->
  Forall (fun s => plainSegment s = true) bs ->
  ~ In ".." (Js.split_slash targetPath) ->
  exists normalized,
    resolveWithin (absPath bs) targetPath = Ok normalized
    /\ path.segments normalized = (bs ++ relativeSegments targetPath)%list
    /\ insideRoot (absPath bs) normalized = true.
Proof.
  intros Hne Hplain Hno.
  pose proof (absPath_isAbsolute bs) as Habs.
  assert (Hsegs : path.segments (path.join [absPath bs; targetPath])
                  = (bs ++ relativeSegments targetPath)%list).
  { rewrite (segments_join _ _ Habs), (segments_absPath _ Hplain).
    rewrite (normalizeString_no_dotdot _ _ Hno). now rewrite rev_involutive. }
  assert (Hshape : exists tr, (tr = "" \/ tr = "/")
             /\ path.join [absPath bs; targetPath]
                = absPath (bs ++ relativeSegments targetPath) ++ tr).
  { destruct (join_shape (absPath bs) targetPath Habs) as [E|[tr [Htr E]]].
    - rewrite E in Hsegs. destruct bs; [congruence|discriminate].
    - exists tr. split; [exact Htr|]. now rewrite <- Hsegs. }
  destruct Hshape as [tr [Htr E]].
  exists (path.join [absPath bs; targetPath]).
  rewrite (resolveWithin_absolute _ _ Habs).
  assert (Hin : insideRoot (absPath bs) (path.join [absPath bs; targetPath]) = true).
  { rewrite E, (absPath_app _ _ Hne). unfold insideRoot, Js.startsWith.
    apply orb_true_iff.
    destruct (relativeSegments targetPath) as [|t ts].
    - rewrite append_nil_r. destruct Htr as [->| ->].
      + left. rewrite append_nil_r. apply String.eqb_refl.
      + right. apply prefix_refl.
    - right. rewrite !append_assoc.
      change ("/" ++ Js.join_slash (t :: ts) ++ tr)
        with ("/" ++ (Js.join_slash (t :: ts) ++ tr)).
      rewrite <- (append_assoc (absPath bs) "/"). apply prefix_app. }
  rewrite (insideRoot_startsWith _ _ Hin). auto.
Qed.

(** X1.  A relative path without a [..] piece always resolves, and to the
    root itself or strictly below it: the segments of the result are those
    of the root followed by the pieces of the path. *)
Theorem resolveWithin_without_dotdot bs targetPath :
  bs <> [] ->
  Forall (fun s => plainSegment s = true) bs ->
  ~ In ".." (Js.split_slash targetPath) ->
  exists normalized,
    resolveWithin (absPath bs) targetPath = Ok normalized
    /\ path.segments normalized = (bs ++ relativeSegments targetPath)%list
    /\ insideRoot (absPath bs) normalized = true.
Proof. exact (resolveWithin_descends bs targetPath). Qed.

Lemma resolveWithin_without_dotdot_witness :
  exists normalized,
    resolveWithin "/content/posts/foo" "A/./logo.png" = Ok normalized
    /\ path.segments normalized = ["content"; "posts"; "foo"; "A"; "logo.png"]
    /\ insideRoot "/content/posts/foo" normalized = true.
Proof.
  apply (resolveWithin_without_dotdot ["content"; "posts"; "foo"] "A/./logo.png").
  - discriminate.
  - repeat constructor.
  - simpl. intros [H|[H|[H|[]]]]; discriminate.
Defined.

Lemma prefix_cons_inv c s d t :
  String.prefix (String c s) (String d t) = true -> c = d /\ String.prefix s t = true.
Proof.
  cbn [String.prefix]. destruct (ascii_dec c d); [auto|discriminate].
Qed.

Lemma noSlash_cons c s :
  noSlash (String c s) = true -> c <> "/"%char /\ noSlash s = true.
Proof.
  simpl. intros H. apply andb_true_iff in H as [Hc Hs]. split; [|exact Hs].
  apply negb_true_iff in Hc. intros ->. discriminate.
Qed.

(** A segment that is a prefix of [r] followed by the end of the path or by
    a separator is a prefix of [r]. *)
Lemma prefix_last_segment b : forall r rest,
  noSlash b = true ->
  rest = "" \/ (exists Y, rest = String "/" Y) ->
  String.prefix b (r ++ rest) = true ->
  String.prefix b r = true.
Proof.
  induction b as [|d b IH]; intros r rest Hb Hrest H; [now destruct r|].
  apply noSlash_cons in Hb as [Hd Hb].
  destruct r as [|c r].
  - simpl in H. destruct Hrest as [->|[Y ->]]; [discriminate|].
    apply prefix_cons_inv in H as [E _]. congruence.
  - change (String c r ++ rest) with (String c (r ++ rest)) in H.
    apply prefix_cons_inv in H as [-> H]. cbn [String.prefix].
    destruct (ascii_dec c c); [eauto|congruence].
Qed.

(** A segment followed by a separator matches a whole segment. *)
Lemma prefix_whole_segment b : forall r X rest,
  noSlash b = true -> noSlash r = true ->
  rest = "" \/ (exists Y, rest = String "/" Y) ->
  String.prefix (b ++ String "/" X) (r ++ rest) = true ->
  b = r /\ exists Y, rest = String "/" Y /\ String.prefix X Y = true.
Proof.
  induction b as [|d b IH]; intros r X rest Hb Hr Hrest H.
  - destruct r as [|c r].
    + simpl in H. destruct Hrest as [->|[Y ->]]; [discriminate|].
      apply prefix_cons_inv in H as [_ H]. eauto.
    + apply noSlash_cons in Hr as [Hc _].
      change (String c r ++ rest) with (String c (r ++ rest)) in H.
      apply prefix_cons_inv in H as [E _]. congruence.
  - apply noSlash_cons in Hb as [Hd Hb].
    change (String d b ++ String "/" X) with (String d (b ++ String "/" X)) in H.
    destruct r as [|c r].
    + simpl in H. destruct Hrest as [->|[Y ->]]; [discriminate|].
      apply prefix_cons_inv in H as [E _]. congruence.
    + apply noSlash_cons in Hr as [_ Hr].
      change (String c r ++ rest) with (String c (r ++ rest)) in H.
      apply prefix_cons_inv in H as [-> H].
      destruct (IH _ _ _ Hb Hr Hrest H) as [-> HY]. auto.
Qed.

Lemma join_slash_rest r rs tr :
  tr = "" \/ tr = "/" ->
  exists rest,
    Js.join_slash (r :: rs) ++ tr = r ++ rest
    /\ (rest = "" \/ exists Y, rest = String "/" Y)
    /\ (forall Y, rest = String "/" Y ->
        exists tr', (tr' = "" \/ tr' = "/") /\ Y = Js.join_slash rs ++ tr').
Proof.
  intros Htr. destruct rs as [|r2 rs].
  - exists tr. split; [reflexivity|]. split.
    + destruct Htr as [->| ->]; eauto.
    + intros Y HY. exists "". destruct Htr as [->| ->]; [discriminate|].
      injection HY as <-. auto.
  - exists (String "/" (Js.join_slash (r2 :: rs) ++ tr)). split.
    + rewrite join_slash_cons. now rewrite !append_assoc.
    + split; [eauto|]. intros Y [= <-]. eauto.
Qed.

Lemma prefix_join_bound bs : forall rs tr,
  bs <> [] ->
  Forall (fun s => plainSegment s = true) bs ->
  Forall (fun s => noSlash s = true) rs ->
  tr = "" \/ tr = "/" ->
  String.prefix (Js.join_slash bs) (Js.join_slash rs ++ tr) = true ->
  withinOrSibling bs rs = true.
Proof.
  induction bs as [|b bs IH]; intros rs tr Hne Hbs Hrs Htr H; [congruence|].
  inversion Hbs as [|? ? Hb Hbs']; subst.
  pose proof (plainSegment_noSlash _ Hb) as Hbn.
  pose proof (plainSegment_nonempty _ Hb) as Hbe.
  destruct rs as [|r rs].
  - exfalso. simpl in H.
    assert (Hj : exists c j, Js.join_slash (b :: bs) = String c j /\ c <> "/"%char).
    { destruct b as [|c b]; [congruence|].
      apply noSlash_cons in Hbn as [Hc _].
      destruct bs; [exists c, b; split; [reflexivity|assumption]|].
      rewrite join_slash_cons. simpl. eauto. }
    destruct Hj as [c [j [Ej Hc]]]. rewrite Ej in H.
    destruct Htr as [->| ->]; [discriminate|].
    apply prefix_cons_inv in H as [E _]. congruence.
  - inversion Hrs as [|? ? Hr Hrs']; subst.
    destruct (join_slash_rest r rs tr Htr) as [rest [E [Hrest HY]]].
    rewrite E in H.
    destruct bs as [|b2 bs].
    + simpl in H |- *. exact (prefix_last_segment _ _ _ Hbn Hrest H).
    + rewrite join_slash_cons in H.
      destruct (prefix_whole_segment _ _ _ _ Hbn Hr Hrest H) as [-> [Y [EY HX]]].
      destruct (HY _ EY) as [tr' [Htr' ->]].
      change (withinOrSibling (r :: b2 :: bs) (r :: rs))
        with ((r =? r)%string && withinOrSibling (b2 :: bs) rs).
      rewrite String.eqb_refl. simpl andb.
      apply (IH rs tr'); auto. discriminate.
Qed.

(** The bound holds for a root written with or without a trailing
    separator, as [path.join] may return it. *)
Lemma resolveWithin_within bs tr targetPath normalized :
  bs <> [] ->
  Forall (fun s => plainSegment s = true) bs ->
  tr = "" \/ tr = "/" ->
  resolveWithin (absPath bs ++ tr) targetPath = Ok normalized ->
  withinOrSibling bs (path.segments normalized) = true.
Proof.
  intros Hne Hplain Hroot H.
  pose proof (isAbsolute_app _ tr (absPath_isAbsolute bs)) as Habs.
  rewrite (resolveWithin_absolute _ _ Habs) in H.
  destruct (Js.startsWith _ (absPath bs ++ tr)) eqn:Hpre; [|discriminate].
  injection H as <-. unfold Js.startsWith in Hpre.
  apply prefix_app_l in Hpre.
  pose proof (segments_plain (path.join [absPath bs ++ tr; targetPath])) as Hrs.
  destruct (join_shape (absPath bs ++ tr) targetPath Habs) as [E|[tr' [Htr E]]].
  - exfalso. rewrite E in Hpre. unfold absPath in Hpre.
    apply prefix_cons_inv in Hpre as [_ Hpre].
    destruct bs as [|b bs]; [congruence|]. inversion Hplain; subst.
    destruct (Js.join_slash (b :: bs)) eqn:Ej; [|discriminate].
    now apply (join_slash_nonempty b bs).
  - rewrite E in Hpre. unfold absPath in Hpre.
    change (("/" ++ ?x) ++ tr') with (String "/" (x ++ tr')) in Hpre.
    apply prefix_cons_inv in Hpre as [_ Hpre].
    apply (prefix_join_bound bs _ tr'); auto.
    now apply plain_all_noSlash.
Qed.

(** X2.  What the guard accepts never leaves the parent directory of the
    root: the resolved path repeats every segment of the root but the
    last, and its next segment starts with the root's last segment. *)
Theorem resolveWithin_bound bs targetPath normalized :
  bs <> [] ->
  Forall (fun s => plainSegment s = true) bs ->
  resolveWithin (absPath bs) targetPath = Ok normalized ->
  withinOrSibling bs (path.segments normalized) = true.
Proof.
  intros Hne Hplain H. apply (resolveWithin_within bs "" targetPath); auto.
  now rewrite append_nil_r.
Qed.

Lemma resolveWithin_bound_witness :
  withinOrSibling ["content"; "posts"; "foo"]
                  (path.segments "/content/posts/foobar/index.md") = true.
Proof.
  apply (resolveWithin_bound ["content"; "posts"; "foo"] "../foobar/index.md").
  - discriminate.
  - repeat constructor.
  - reflexivity.
Defined.

(** ** Names that pass [assertValidName] *)

Lemma includes_slash s : Js.includes s "/" = negb (noSlash s).
Proof.
  induction s as [|c s IH]; [reflexivity|].
  cbn [Js.includes noSlash String.prefix]. rewrite IH.
  destruct (ascii_dec "/" c) as [<-|Hc].
  - now destruct s.
  - assert (E : Ascii.eqb c "/" = false)
      by (apply Ascii.eqb_neq; congruence).
    rewrite E. reflexivity.
Qed.

Lemma includes_self s : Js.includes s s = true.
Proof. destruct s; [reflexivity|]. cbn [Js.includes]. now rewrite prefix_refl. Qed.

Lemma assertValidName_ok name :
  assertValidName (Some name) = Ok tt ->
  noSlash name = true /\ name <> "" /\ name <> "..".
Proof.
  unfold assertValidName, Js.truthy. rewrite negb_involutive.
  destruct (String.eqb_spec name "") as [->|Hne]; [discriminate|].
  rewrite includes_slash.
  destruct (noSlash name); simpl; [|discriminate].
  destruct (Js.includes name "..") eqn:Hd; [discriminate|].
  intros _. repeat split; auto. intros ->. discriminate.
Qed.

Lemma join_valid_name bs name :
  Forall (fun s => plainSegment s = true) bs ->
  noSlash name = true -> name <> "" -> name <> ".." ->
  path.join [absPath bs; name]
  = absPath (bs ++ if (name =? ".")%string then [] else [name]).
Proof.
  intros Hbs Hn He Hdd.
  pose proof (absPath_isAbsolute bs) as Habs.
  assert (Ht : Js.truthy name = true)
    by (unfold Js.truthy; destruct (String.eqb_spec name "");
        [congruence|reflexivity]).
  rewrite (join_absolute _ _ Habs), Ht.
  rewrite normalize_absolute by now apply isAbsolute_app.
  assert (Hsegs : path.segments (absPath bs ++ "/" ++ name)
                  = (bs ++ if (name =? ".")%string then [] else [name])%list).
  { unfold path.segments. rewrite split_slash_app, normalizeString_app.
    fold (path.segments (absPath bs)). rewrite (segments_absPath _ Hbs).
    rewrite (split_slash_noSlash _ Hn). cbn [path.normalizeString].
    destruct (String.eqb_spec name ""); [congruence|]. cbn [orb].
    destruct (String.eqb_spec name ".").
    - now rewrite rev_involutive, app_nil_r.
    - destruct (String.eqb_spec name ".."); [congruence|].
      cbn [rev]. now rewrite rev_involutive. }
  rewrite Hsegs.
  assert (Hends : Js.endsWithSlash (absPath bs ++ "/" ++ name) = false).
  { rewrite endsWithSlash_app by (destruct name; [congruence|discriminate]).
    change ("/" ++ name) with (String "/" name).
    destruct name as [|c name]; [congruence|].
    change (Js.endsWithSlash (String "/" (String c name)))
      with (Js.endsWithSlash (String c name)).
    now apply endsWithSlash_noSlash. }
  rewrite Hends.
  destruct (bs ++ _)%list eqn:E; [|reflexivity].
  reflexivity.
Qed.

(** X3.  A name that passes [assertValidName], joined to a directory,
    addresses that directory itself (the name [.]) or one of its direct
    children; every other accepted name is a plain segment. *)
Theorem valid_name_is_child bs name :
  Forall (fun s => plainSegment s = true) bs ->
  assertValidName (Some name) = Ok tt ->
  path.join [absPath bs; name]
  = absPath (bs ++ if (name =? ".")%string then [] else [name])
  /\ (name <> "." -> plainSegment name = true).
Proof.
  intros Hbs Hok. destruct (assertValidName_ok _ Hok) as [Hn [He Hdd]].
  split; [now apply join_valid_name|].
  intros Hd. unfold plainSegment. rewrite Hn.
  destruct (String.eqb_spec name ""), (String.eqb_spec name "."),
    (String.eqb_spec name ".."); congruence || reflexivity.
Qed.

Lemma valid_name_is_child_witness :
  path.join ["/content/posts"; "my-post"] = "/content/posts/my-post"
  /\ ("my-post" <> "." -> plainSegment "my-post" = true).
Proof.
  apply (valid_name_is_child ["content"; "posts"] "my-post").
  - repeat constructor.
  - reflexivity.
Defined.

(** ** Effects of the [fs] calls on other paths *)

Lemma find_remove_other s x es :
  x <> s -> find_entry x (remove_entry s es) = find_entry x es.
Proof.
  intros Hx. induction es as [|[k w] es IH]; simpl; [reflexivity|].
  destruct (String.eqb_spec k s) as [->|Hk]; simpl.
  - rewrite IH. destruct (String.eqb_spec s x); congruence.
  - now rewrite IH.
Qed.

Lemma isPrefix_cons s p x q :
  fs.isPrefix (s :: p) (x :: q) = ((s =? x)%string && fs.isPrefix p q).
Proof. reflexivity. Qed.

Lemma rm_lstat p : forall n n',
  fs.rm p n = Ok n' -> fs.lstat p n' = Err (FsError ENOENT).
Proof.
  induction p as [|s p IH]; intros n n' H; simpl in H; [discriminate|].
  destruct n as [sz mt| |es]; try discriminate.
  - now injection H as <-.
  - destruct p as [|s' p'].
    + injection H as <-. simpl. now rewrite find_remove_same.
    + destruct (find_entry s es) as [c|] eqn:F.
      * destruct (fs.rm (s' :: p') c) as [c'|e] eqn:R; [|discriminate].
        injection H as <-. cbn [fs.lstat]. rewrite find_set_same. eauto.
      * injection H as <-. cbn [fs.lstat]. now rewrite F.
Qed.

Lemma rm_frame p : forall q n n',
  fs.rm p n = Ok n' ->
  fs.isPrefix p q = false -> fs.isPrefix q p = false ->
  fs.lstat q n' = fs.lstat q n.
Proof.
  induction p as [|s p IH]; intros q n n' H Hpq Hqp; simpl in H; [discriminate|].
  destruct n as [sz mt| |es]; try discriminate; [now injection H as <-|].
  destruct q as [|x q]; [discriminate|].
  rewrite isPrefix_cons in Hpq, Hqp.
  destruct p as [|s' p'].
  - injection H as <-. cbn [fs.lstat].
    destruct (String.eqb_spec s x) as [->|Hx]; [now destruct q|].
    rewrite find_remove_other by congruence. reflexivity.
  - destruct (find_entry s es) as [c|] eqn:F; [|now injection H as <-].
    destruct (fs.rm (s' :: p') c) as [c'|e] eqn:R; [|discriminate].
    injection H as <-. cbn [fs.lstat].
    destruct (String.eqb_spec s x) as [->|Hx].
    + rewrite find_set_same, F. rewrite ?String.eqb_refl in Hqp.
      simpl in Hpq, Hqp. eauto.
    + rewrite find_set_other by congruence. reflexivity.
Qed.

Lemma rm_access p : forall q n n',
  fs.rm p n = Ok n' -> fs.isPrefix p q = false ->
  fs.access q n' = fs.access q n.
Proof.
  unfold fs.access.
  induction p as [|s p IH]; intros q n n' H Hpq; simpl in H; [discriminate|].
  destruct n as [sz mt| |es]; try discriminate; [now injection H as <-|].
  destruct q as [|x q].
  - destruct p; [now injection H as <-|].
    destruct (find_entry s es); [|now injection H as <-].
    destruct (fs.rm _ _); [now injection H as <-|discriminate].
  - rewrite isPrefix_cons in Hpq.
    destruct p as [|s' p'].
    + injection H as <-. cbn [fs.lstat].
      destruct (String.eqb_spec s x) as [->|Hx]; [discriminate|].
      rewrite find_remove_other by congruence. reflexivity.
    + destruct (find_entry s es) as [c|] eqn:F; [|now injection H as <-].
      destruct (fs.rm (s' :: p') c) as [c'|e] eqn:R; [|discriminate].
      injection H as <-. cbn [fs.lstat].
      destruct (String.eqb_spec s x) as [->|Hx].
      * rewrite find_set_same, F. simpl in Hpq. eauto.
      * rewrite find_set_other by congruence. reflexivity.
Qed.

Lemma mkdirp_frame p : forall q n n',
  fs.mkdirp p n = Ok n' -> fs.isPrefix q p = false ->
  fs.lstat q n' = fs.lstat q n.
Proof.
  induction p as [|s p IH]; intros q n n' H Hqp;
    destruct n as [sz mt| |es]; simpl in H; try discriminate.
  - now injection H as <-.
  - destruct (fs.mkdirp p _) as [c'|e] eqn:M; [|discriminate].
    injection H as <-.
    destruct q as [|x q]; [discriminate|].
    rewrite isPrefix_cons in Hqp. cbn [fs.lstat].
    destruct (String.eqb_spec x s) as [->|Hx].
    + rewrite find_set_same. rewrite ?String.eqb_refl in Hqp. simpl in Hqp.
      rewrite (IH _ _ _ M Hqp).
      destruct (find_entry s es); [reflexivity|].
      destruct q; [discriminate|reflexivity].
    + now rewrite find_set_other.
Qed.

Lemma mkdirp_keeps_entry p : forall q n n' x,
  fs.lstat q n = Ok x -> fs.mkdirp p n = Ok n' ->
  exists x', fs.lstat q n' = Ok x'
             /\ isDirectory x' = isDirectory x
             /\ (isDirectory x = false -> x' = x).
Proof.
  induction p as [|s p IH]; intros q n n' x Hq H;
    destruct n as [sz mt| |es]; simpl in H; try discriminate.
  - injection H as <-. eauto.
  - destruct (fs.mkdirp p _) as [c'|e] eqn:M; [|discriminate].
    injection H as <-.
    destruct q as [|y q]; simpl in Hq |- *.
    + injection Hq as <-. eexists. repeat split. discriminate.
    + destruct (String.eqb_spec y s) as [->|Hy].
      * rewrite find_set_same.
        destruct (find_entry s es) as [c|]; [|discriminate]. eauto.
      * rewrite find_set_other by assumption. eauto.
Qed.

Lemma put_frame p x : forall q n n',
  fs.put p x n = Ok n' ->
  fs.isPrefix p q = false -> fs.isPrefix q p = false ->
  fs.lstat q n' = fs.lstat q n.
Proof.
  induction p as [|s p IH]; intros q n n' H Hpq Hqp; simpl in H; [discriminate|].
  destruct n as [sz mt| |es]; try discriminate.
  destruct q as [|y q]; [discriminate|].
  rewrite isPrefix_cons in Hpq, Hqp.
  destruct p as [|s' p'].
  - injection H as <-. cbn [fs.lstat].
    destruct (String.eqb_spec s y) as [->|Hy]; [now destruct q|].
    rewrite find_set_other by congruence. reflexivity.
  - destruct (find_entry s es) as [c|] eqn:F; [|discriminate].
    destruct (fs.put (s' :: p') x c) as [c'|e] eqn:P; [|discriminate].
    injection H as <-. cbn [fs.lstat].
    destruct (String.eqb_spec s y) as [->|Hy].
    + rewrite find_set_same, F. rewrite ?String.eqb_refl in Hqp.
      simpl in Hpq, Hqp. eauto.
    + rewrite find_set_other by congruence. reflexivity.
Qed.

(** ** What the entry routes change *)

Lemma delete_files_ok CONTENT_ROOT slug target disk r disk' postDir targetPath :
  resolvePostDir CONTENT_ROOT slug = Ok postDir ->
  resolveWithin postDir target = Ok targetPath ->
  delete_files CONTENT_ROOT slug (Some target) disk = (Ok r, disk') ->
  Js.truthy target = true
  /\ fs.access (path.segments postDir) disk = true
  /\ fs.rm (path.segments targetPath) disk = Ok disk'
  /\ r = {| status := 200; message := "Deleted successfully" |}.
Proof.
  intros Hpost Htgt. unfold delete_files. run_handler.
  destruct (Js.truthy target); step; [|discriminate].
  rewrite Hpost. step.
  destruct (fs.access (path.segments postDir) disk); step; [|discriminate].
  rewrite Htgt. step.
  destruct (fs.rm (path.segments targetPath) disk) as [d|e]; [|discriminate].
  intros [= <- <-]. auto.
Qed.

(** X4.  A successful delete leaves nothing at the resolved target, keeps
    every entry on a path that branches off the target exactly as it was,
    and changes the existence of nothing that is not at or below the
    target. *)
Theorem delete_removes_target
        CONTENT_ROOT slug target disk r disk' postDir targetPath :
  resolvePostDir CONTENT_ROOT slug = Ok postDir ->
  resolveWithin postDir target = Ok targetPath ->
  delete_files CONTENT_ROOT slug (Some target) disk = (Ok r, disk') ->
  fs.lstat (path.segments targetPath) disk' = Err (FsError ENOENT)
  /\ (forall q,
         fs.isPrefix (path.segments targetPath) q = false ->
         fs.isPrefix q (path.segments targetPath) = false ->
         fs.lstat q disk' = fs.lstat q disk)
  /\ (forall q,
         fs.isPrefix (path.segments targetPath) q = false ->
         fs.access q disk' = fs.access q disk).
Proof.
  intros Hpost Htgt H.
  destruct (delete_files_ok _ _ _ _ _ _ _ _ Hpost Htgt H) as [_ [_ [Hrm _]]].
  split; [exact (rm_lstat _ _ _ Hrm)|]. split.
  - intros q. exact (rm_frame _ _ _ _ Hrm).
  - intros q. exact (rm_access _ _ _ _ Hrm).
Qed.

Lemma delete_removes_target_witness :
  exists disk',
    delete_files "/content" "foo" (Some "A") sampleDisk
    = (Ok {| status := 200; message := "Deleted successfully" |}, disk')
    /\ fs.lstat (path.segments "/content/posts/foo/A") disk' = Err (FsError ENOENT)
    /\ fs.lstat (path.segments "/content/posts/foo/a.md") disk'
       = fs.lstat (path.segments "/content/posts/foo/a.md") sampleDisk
    /\ fs.access (path.segments "/content/posts/foo") disk' = true.
Proof.
  eexists. split; [vm_compute; reflexivity|].
  destruct (delete_removes_target "/content" "foo" "A" sampleDisk _ _
              "/content/posts/foo" "/content/posts/foo/A"
              eq_refl eq_refl eq_refl) as [Hgone [Hframe Hacc]].
  split; [exact Hgone|]. split.
  - apply Hframe; reflexivity.
  - rewrite Hacc; reflexivity.
Defined.

(** X5.  Deleting again what has just been deleted succeeds and changes
    nothing, as long as the post directory itself is still there. *)
Theorem delete_twice
        CONTENT_ROOT slug target disk r disk' postDir :
  resolvePostDir CONTENT_ROOT slug = Ok postDir ->
  delete_files CONTENT_ROOT slug (Some target) disk = (Ok r, disk') ->
  fs.access (path.segments postDir) disk' = true ->
  delete_files CONTENT_ROOT slug (Some target) disk' = (Ok r, disk').
Proof.
  intros Hpost H Hstill.
  destruct (resolveWithin postDir target) as [targetPath|e] eqn:Htgt.
  - destruct (delete_files_ok _ _ _ _ _ _ _ _ Hpost Htgt H) as [Ht [_ [Hrm ->]]].
    unfold delete_files. run_handler. rewrite Ht. step. rewrite Hpost. step.
    rewrite Hstill. step. rewrite Htgt. step.
    rewrite (rm_absent _ _ (rm_lstat _ _ _ Hrm)). reflexivity.
  - exfalso. revert H. unfold delete_files. run_handler.
    destruct (Js.truthy target); step; [|discriminate].
    rewrite Hpost. step.
    destruct (fs.access (path.segments postDir) disk); step; [|discriminate].
    rewrite Htgt. discriminate.
Qed.

Lemma delete_twice_witness :
  exists disk',
    delete_files "/content" "foo" (Some "A/logo.png") sampleDisk
    = (Ok {| status := 200; message := "Deleted successfully" |}, disk')
    /\ delete_files "/content" "foo" (Some "A/logo.png") disk'
       = (Ok {| status := 200; message := "Deleted successfully" |}, disk').
Proof.
  eexists. split; [vm_compute; reflexivity|].
  apply (delete_twice "/content" "foo" "A/logo.png" sampleDisk _ _
           "/content/posts/foo" eq_refl eq_refl).
  reflexivity.
Defined.

(** X6.  Whatever it answers, the create-folder route removes and replaces
    nothing: every entry that existed still exists, a file or unreadable
    entry unchanged, a directory still a directory. *)
Theorem create_folder_keeps_entries
        CONTENT_ROOT slug parent name disk r disk' q x :
  post_files_create_folder CONTENT_ROOT slug parent name disk = (r, disk') ->
  fs.lstat q disk = Ok x ->
  exists x',
    fs.lstat q disk' = Ok x'
    /\ isDirectory x' = isDirectory x
    /\ (isDirectory x = false -> x' = x).
Proof.
  intros H Hq.
  assert (Hsame : disk' = disk -> exists x',
             fs.lstat q disk' = Ok x' /\ isDirectory x' = isDirectory x
             /\ (isDirectory x = false -> x' = x))
    by (intros ->; eauto).
  revert H. unfold post_files_create_folder. run_handler.
  destruct (assertValidName name); step; [|now intros [= _ <-]; auto].
  destruct (resolvePostDir _ _) as [postDir|e]; step; [|now intros [= _ <-]; auto].
  destruct (fs.mkdirp (path.segments postDir) disk) as [d1|e] eqn:M1; step;
    [|now intros [= _ <-]; auto].
  destruct (mkdirp_keeps_entry _ _ _ _ _ Hq M1) as [x1 [Hq1 [Hk1 Hs1]]].
  destruct (resolveWithin postDir _) as [parentDir|e]; step;
    [|now intros [= _ <-]; eauto].
  destruct (fs.access _ d1); step; [now intros [= _ <-]; eauto|].
  destruct (fs.mkdirp _ d1) as [d2|e] eqn:M2; step; [|now intros [= _ <-]; eauto].
  intros [= _ <-].
  destruct (mkdirp_keeps_entry _ _ _ _ _ Hq1 M2) as [x2 [Hq2 [Hk2 Hs2]]].
  exists x2. split; [exact Hq2|]. split; [congruence|].
  intros Hf. rewrite Hs2 by congruence. auto.
Qed.

Lemma create_folder_keeps_entries_witness :
  exists disk' x',
    fs.lstat (path.segments "/content/posts/foo/index.md") disk' = Ok x'
    /\ isDirectory x' = false
    /\ (false = false -> x' = File 120 1700000000).
Proof.
  destruct (create_folder_keeps_entries "/content" "foo" (Some "A") (Some "assets")
              sampleDisk _ _ (path.segments "/content/posts/foo/index.md")
              (File 120 1700000000) eq_refl eq_refl) as [x' H].
  eexists. exists x'. exact H.
Defined.

Lemma lstat_app p : forall q n,
  fs.lstat (p ++ q) n
  = match fs.lstat p n with
    | Ok m => fs.lstat q m
    | Err e => Err e
    end.
Proof.
  induction p as [|s p IH]; intros q n; [reflexivity|].
  cbn [app fs.lstat]. destruct n as [sz mt| |es]; try reflexivity.
  destruct (find_entry s es); [apply IH|reflexivity].
Qed.

Lemma lstat_below_nondir q x :
  q <> [] -> isDirectory x = false -> exists e, fs.lstat q x = Err e.
Proof. destruct q; [congruence|]. destruct x; simpl; eauto; discriminate. Qed.

Lemma isPrefix_split p : forall q,
  fs.isPrefix p q = true -> exists r, q = (p ++ r)%list.
Proof.
  induction p as [|s p IH]; intros q H; [now exists q|].
  destruct q as [|x q]; [discriminate|].
  rewrite isPrefix_cons in H. apply andb_true_iff in H as [Hs Hp].
  apply String.eqb_eq in Hs as ->. destruct (IH _ Hp) as [r ->]. now exists r.
Qed.

Lemma isPrefix_removelast q : forall d,
  fs.isPrefix q (removelast d) = true -> fs.isPrefix q d = true.
Proof.
  induction q as [|x q IH]; intros d H; [reflexivity|].
  destruct d as [|y d]; [discriminate|].
  destruct d as [|z d]; [discriminate|].
  change (removelast (y :: z :: d)) with (y :: removelast (z :: d)) in H.
  rewrite isPrefix_cons in H |- *.
  apply andb_true_iff in H as [-> H]. simpl. now apply IH.
Qed.

Lemma list_eqb_refl a : fs.list_eqb a a = true.
Proof. induction a as [|x a IH]; simpl; [|rewrite String.eqb_refl]; auto. Qed.

Lemma mkdirp_through_nondir p : forall r n x,
  fs.lstat p n = Ok x -> isDirectory x = false ->
  exists e, fs.mkdirp (p ++ r) n = Err e.
Proof.
  induction p as [|s p IH]; intros r n x Hp Hx.
  - simpl in Hp. injection Hp as ->.
    destruct x; try discriminate; destruct r; simpl; eauto.
  - cbn [app]. destruct n as [sz mt| |es]; simpl in Hp |- *; eauto.
    destruct (find_entry s es) as [c|]; [|discriminate].
    destruct (IH r _ _ Hp Hx) as [e ->]. eauto.
Qed.

(** What a successful [fse.move] does. *)
Lemma move_ok src dest n n3 :
  fse.move src dest n = Ok n3 ->
  exists entry,
    fs.lstat src n = Ok entry
    /\ fs.lstat dest n3 = Ok entry
    /\ fs.lstat src n3 = Err (FsError ENOENT)
    /\ (forall q,
           fs.isPrefix src q = false -> fs.isPrefix q src = false ->
           fs.isPrefix dest q = false -> fs.isPrefix q dest = false ->
           fs.lstat q n3 = fs.lstat q n).
Proof.
  unfold fse.move. intros H.
  destruct (fs.lstat src n) as [entry|e] eqn:Hs; [|discriminate].
  set (destStat := match fs.lstat dest n with
                   | Ok d => Ok (Some d)
                   | Err (FsError ENOENT) => Ok None
                   | Err e => Err e
                   end) in H.
  destruct destStat as [d|e] eqn:Hd; [|discriminate].
  set (clash := match d with
                | Some destNode =>
                    fs.list_eqb src dest
                    || negb (Bool.eqb (isDirectory entry) (isDirectory destNode))
                | None => false
                end) in H.
  destruct clash eqn:Hclash; [discriminate|].
  destruct (isDirectory entry && fs.isPrefix src dest) eqn:Hsub; [discriminate|].
  destruct (fs.mkdirp (removelast dest) n) as [n1|e] eqn:M; [|discriminate].
  destruct (fs.access dest n1) eqn:Hacc; [discriminate|].
  destruct (fs.rm src n1) as [n2|e] eqn:R; [|discriminate].
  assert (Hnoteq : forall m, fs.lstat dest n = Ok m -> fs.list_eqb src dest = false
                             /\ isDirectory entry = isDirectory m).
  { intros m Hm. subst destStat clash. rewrite Hm in Hd. injection Hd as <-.
    apply orb_false_iff in Hclash as [Hne Hk]. split; [exact Hne|].
    apply negb_false_iff, Bool.eqb_prop in Hk. exact Hk. }
  assert (Hsd : fs.isPrefix src dest = false).
  { destruct (fs.isPrefix src dest) eqn:Hp; [exfalso|reflexivity].
    destruct (isDirectory entry) eqn:Hk; [discriminate|].
    destruct (isPrefix_split _ _ Hp) as [r ->].
    destruct r as [|y r].
    - rewrite app_nil_r in *.
      destruct (Hnoteq _ Hs) as [Hne _]. now rewrite list_eqb_refl in Hne.
    - rewrite removelast_app in M by discriminate.
      destruct (mkdirp_through_nondir src (removelast (y :: r)) n entry Hs Hk)
        as [e He]. congruence. }
  assert (Hds : fs.isPrefix dest src = false).
  { destruct (fs.isPrefix dest src) eqn:Hp; [exfalso|reflexivity].
    destruct (isPrefix_split _ _ Hp) as [r ->].
    rewrite lstat_app in Hs.
    destruct (fs.lstat dest n) as [m|e] eqn:Hm; [|discriminate].
    destruct (Hnoteq _ eq_refl) as [Hne Hk].
    destruct r as [|y r].
    - rewrite app_nil_r in Hne. now rewrite list_eqb_refl in Hne.
    - destruct (isDirectory m) eqn:Hmk.
      + destruct (mkdirp_keeps_entry _ _ _ _ _ Hm M) as [m' [Hm' [Hk' _]]].
        unfold fs.access in Hacc. rewrite Hm' in Hacc.
        destruct m'; try discriminate. simpl in Hk'. congruence.
      + destruct (lstat_below_nondir (y :: r) m) as [e He];
          [discriminate|assumption|congruence]. }
  exists entry. split; [reflexivity|]. split; [exact (put_lstat _ _ _ _ H)|]. split.
  - rewrite (put_frame _ _ _ _ _ H Hds Hsd). exact (rm_lstat _ _ _ R).
  - intros q Hsq Hqs Hdq Hqd.
    rewrite (put_frame _ _ _ _ _ H Hdq Hqd), (rm_frame _ _ _ _ R Hsq Hqs).
    apply (mkdirp_frame _ _ _ _ M).
    destruct (fs.isPrefix q (removelast dest)) eqn:Hp; [|reflexivity].
    apply isPrefix_removelast in Hp. congruence.
Qed.

(** X7.  A successful rename moves the entry: what the source held (a file
    or a whole directory) is found at the target, nothing is left at the
    source, and every entry on a path that branches off both is exactly as
    it was. *)
Theorem rename_moves_entry
        CONTENT_ROOT slug source target disk r disk' postDir sourcePath targetPath :
  resolvePostDir CONTENT_ROOT slug = Ok postDir ->
  resolveWithin postDir source = Ok sourcePath ->
  resolveWithin postDir target = Ok targetPath ->
  put_files_rename CONTENT_ROOT slug (Some source) (Some target) disk = (Ok r, disk') ->
  exists entry,
    fs.lstat (path.segments sourcePath) disk = Ok entry
    /\ fs.lstat (path.segments targetPath) disk' = Ok entry
    /\ fs.lstat (path.segments sourcePath) disk' = Err (FsError ENOENT)
    /\ (forall q,
           fs.isPrefix (path.segments sourcePath) q = false ->
           fs.isPrefix q (path.segments sourcePath) = false ->
           fs.isPrefix (path.segments targetPath) q = false ->
           fs.isPrefix q (path.segments targetPath) = false ->
           fs.lstat q disk' = fs.lstat q disk).
Proof.
  intros Hpost Hsrc Htgt. unfold put_files_rename. run_handler.
  destruct (Js.truthy source); step; [|discriminate].
  destruct (Js.truthy target); step; [|discriminate].
  rewrite Hpost. step.
  destruct (fs.access (path.segments postDir) disk); step; [|discriminate].
  rewrite Hsrc. step. rewrite Htgt. step.
  destruct (fs.access (path.segments targetPath) disk); [discriminate|].
  destruct (fse.move _ _ disk) as [d|e] eqn:Hmove; [|discriminate].
  intros [= _ <-]. exact (move_ok _ _ _ _ Hmove).
Qed.

Lemma rename_moves_entry_witness :
  exists disk' entry,
    fs.lstat (path.segments "/content/posts/foo/A") sampleDisk = Ok entry
    /\ fs.lstat (path.segments "/content/posts/foo/media/img") disk' = Ok entry
    /\ fs.lstat (path.segments "/content/posts/foo/A") disk' = Err (FsError ENOENT).
Proof.
  exists (snd (put_files_rename "/content" "foo" (Some "A") (Some "media/img")
                                sampleDisk)).
  destruct (rename_moves_entry "/content" "foo" "A" "media/img" sampleDisk
              {| status := 200; message := "Renamed successfully" |}
              (snd (put_files_rename "/content" "foo" (Some "A")
                                     (Some "media/img") sampleDisk))
              "/content/posts/foo" "/content/posts/foo/A"
              "/content/posts/foo/media/img" eq_refl eq_refl eq_refl eq_refl)
    as [entry [H1 [H2 [H3 _]]]].
  exists entry. auto.
Defined.

(** ** What the listing contains *)

Lemma listEntries_names recurse currentDir baseDir entries : forall raw,
  listEntries recurse currentDir baseDir entries = Ok raw ->
  map (fun i => (itemName i, itemIsDirectory i)) raw
  = map (fun e => (fst e, isDirectory (snd e)))
        (filter (fun e => notDSStore (fst e)) entries).
Proof.
  induction entries as [|[name entry] l IH]; simpl; intros raw H.
  - now injection H as <-.
  - unfold notDSStore at 1. simpl fst.
    destruct (name =? ".DS_Store")%string; simpl; [now apply IH|].
    destruct entry as [size mtime| |es]; try discriminate.
    + destruct (listEntries _ _ _ l) as [rest|]; [|discriminate].
      injection H as <-. simpl. now rewrite (IH rest).
    + destruct (recurse _ (Dir es)) as [children|]; [|discriminate].
      destruct (listEntries _ _ _ l) as [rest|]; [|discriminate].
      injection H as <-. simpl. now rewrite (IH rest).
Qed.

(** X8.  The listing of a directory holds one item for every entry not
    called [.DS_Store], with the entry's name and type, and nothing else. *)
Theorem directoryTree_lists_every_entry
        localeCompare entries currentDir baseDir items :
  directoryTree localeCompare (Dir entries) currentDir baseDir = Ok items ->
  Permutation
    (map (fun i => (itemName i, itemIsDirectory i)) items)
    (map (fun e => (fst e, isDirectory (snd e)))
         (filter (fun e => notDSStore (fst e)) entries)).
Proof.
  simpl. destruct (listEntries _ _ _ entries) as [raw|] eqn:L; [|discriminate].
  intros [= <-]. rewrite <- (listEntries_names _ _ _ _ _ L).
  apply Permutation_map, Permutation_sym, sortItems_perm.
Qed.

Lemma directoryTree_lists_every_entry_witness :
  Permutation
    [("A", true); ("a.md", false); ("b.md", false)]
    [("b.md", false); ("A", true); ("a.md", false)].
Proof.
  exact (directoryTree_lists_every_entry sampleCollate
           [("b.md", File 7 1700000300); ("A", Dir []); ("a.md", File 9 1700000200)]
           "/content/posts/foo" "/content/posts/foo" _ eq_refl).
Defined.

(** ** The paths of a listing lead back to the entries *)

Lemma stripCommon_app b x : path.stripCommon b (b ++ x) = ([], x).
Proof.
  induction b as [|s b IH]; simpl; [now destruct x|].
  now rewrite String.eqb_refl.
Qed.

Lemma relative_descendant baseDir fullPath x :
  path.segments fullPath = (path.segments baseDir ++ x)%list ->
  path.relative baseDir fullPath = Js.join_slash x.
Proof.
  intros H. unfold path.relative. now rewrite H, stripCommon_app.
Qed.

Lemma segments_join_plain currentDir name :
  path.isAbsolute currentDir = true -> plainSegment name = true ->
  path.segments (path.join [currentDir; name])
  = (path.segments currentDir ++ [name])%list.
Proof.
  intros Habs Hname. rewrite (segments_join _ _ Habs).
  rewrite (split_slash_noSlash _ (plainSegment_noSlash _ Hname)).
  rewrite normalizeString_plain by now repeat constructor.
  now rewrite rev_involutive.
Qed.

Lemma find_entry_unique k v es :
  uniqueNames (map fst es) = true -> In (k, v) es -> find_entry k es = Some v.
Proof.
  induction es as [|[k' v'] es IH]; simpl; [contradiction|].
  intros Hu Hin. apply andb_true_iff in Hu as [Hfresh Hu].
  destruct Hin as [[= -> ->]|Hin]; [now rewrite String.eqb_refl|].
  destruct (String.eqb_spec k' k) as [->|Hne]; [|auto].
  exfalso. apply negb_true_iff in Hfresh.
  assert (Hex : existsb (String.eqb k) (map fst es) = true).
  { apply existsb_exists. exists k. split; [|apply String.eqb_refl].
    change k with (fst (k, v)). now apply in_map. }
  congruence.
Qed.

Lemma listed_cons i x l :
  listed i (x :: l) ->
  i = x
  \/ (exists name p children, x = DirItem name p children /\ listed i children)
  \/ listed i l.
Proof.
  inversion 1 as [l' Hin|name p children l' Hin Hch]; subst.
  - destruct Hin as [<-|Hin]; [now left|]. right. right. now constructor.
  - destruct Hin as [->|Hin]; [right; left; eauto|].
    right. right. eapply listed_below; eauto.
Qed.

Lemma listed_perm i l l' : Permutation l l' -> listed i l -> listed i l'.
Proof.
  intros Hp. inversion 1 as [l0 Hin|name p children l0 Hin Hch]; subst.
  - constructor. eapply Permutation_in; eauto.
  - eapply listed_below; [eapply Permutation_in; eauto|exact Hch].
Qed.

Lemma wellFormed_entries entries :
  wellFormed (Dir entries) = true ->
  uniqueNames (map fst entries) = true
  /\ Forall (fun e => plainSegment (fst e) = true /\ wellFormed (snd e) = true)
            entries.
Proof.
  simpl. intros H. apply andb_true_iff in H as [Hu Hall]. split; [exact Hu|].
  apply Forall_forall. intros [name entry] Hin.
  rewrite forallb_forall in Hall. specialize (Hall _ Hin). simpl in Hall.
  now apply andb_true_iff in Hall.
Qed.

(** Every listed item sits at a path of plain segments below the listed
    directory, and that path leads to an entry of its kind. *)
Lemma directoryTree_items localeCompare baseDir dir :
  wellFormed dir = true ->
  forall currentDir rel items,
    path.isAbsolute currentDir = true ->
    path.segments currentDir = (path.segments baseDir ++ rel)%list ->
    directoryTree localeCompare dir currentDir baseDir = Ok items ->
    forall i, listed i items ->
    exists suffix entry,
      suffix <> []
      /\ Forall (fun s => plainSegment s = true) suffix
      /\ itemPath i = Js.join_slash (rel ++ suffix)
      /\ fs.lstat suffix dir = Ok entry
      /\ sameKind entry i.
Proof.
  induction dir as [size mtime| |entries IH] using node_entries_ind;
    intros Hwf currentDir rel items Habs Hsegs H; simpl in H; try discriminate.
  destruct (listEntries _ _ _ entries) as [raw|] eqn:L; [|discriminate].
  injection H as <-. intros i Hi.
  apply (listed_perm _ _ raw (Permutation_sym (sortItems_perm _ _))) in Hi.
  destruct (wellFormed_entries _ Hwf) as [Huniq Hgood].
  assert (Hsub : forall l,
             incl l entries ->
             forall raw', listEntries
                       (fun fullPath entry =>
                          directoryTree localeCompare entry fullPath baseDir)
                       currentDir baseDir l = Ok raw' ->
             listed i raw' ->
             exists suffix entry,
               suffix <> []
               /\ Forall (fun s => plainSegment s = true) suffix
               /\ itemPath i = Js.join_slash (rel ++ suffix)
               /\ fs.lstat suffix (Dir entries) = Ok entry
               /\ sameKind entry i).
  { clear L Hi raw.
    induction l as [|[name entry] l IHl]; intros Hincl raw' L Hi; simpl in L.
    - injection L as <-. inversion Hi as [? Hin|? ? ? ? Hin _]; destruct Hin.
    - assert (Hin : In (name, entry) entries) by (apply Hincl; now left).
      assert (Hincl' : incl l entries) by (intros e He; apply Hincl; now right).
      destruct (name =? ".DS_Store")%string; [now apply (IHl Hincl' raw')|].
      rewrite Forall_forall in Hgood, IH.
      destruct (Hgood _ Hin) as [Hname Hwfe]. simpl in Hname, Hwfe.
      pose proof (find_entry_unique _ _ _ Huniq Hin) as Hfind.
      pose proof (segments_join_plain _ _ Habs Hname) as Hfull.
      rewrite Hsegs, <- app_assoc in Hfull.
      pose proof (relative_descendant _ _ _ Hfull) as Hrel.
      assert (Hhere : forall it,
                 itemName it = name -> itemPath it = Js.join_slash (rel ++ [name]) ->
                 sameKind entry it ->
                 i = it ->
                 exists suffix entry0,
                   suffix <> []
                   /\ Forall (fun s => plainSegment s = true) suffix
                   /\ itemPath i = Js.join_slash (rel ++ suffix)
                   /\ fs.lstat suffix (Dir entries) = Ok entry0
                   /\ sameKind entry0 i).
      { intros it _ Hp Hk ->. exists [name], entry.
        split; [discriminate|]. split; [now repeat constructor|].
        split; [exact Hp|]. split; [|exact Hk].
        simpl. now rewrite Hfind. }
      destruct entry as [size mtime| |es]; try discriminate.
      + destruct (listEntries _ _ _ l) as [rest|] eqn:Lr; [|discriminate].
        injection L as <-.
        apply listed_cons in Hi as [->|[[n [p [ch [E _]]]]|Hi]].
        * eapply Hhere; try reflexivity; simpl; auto.
        * discriminate.
        * now apply (IHl Hincl' rest).
      + destruct (directoryTree localeCompare (Dir es) _ baseDir)
          as [children|] eqn:D; [|discriminate].
        destruct (listEntries _ _ _ l) as [rest|] eqn:Lr; [|discriminate].
        injection L as <-.
        apply listed_cons in Hi as [->|[[n [p [ch [E Hch]]]]|Hi]].
        * eapply Hhere; try reflexivity; simpl; auto.
        * injection E as <- <- <-.
          specialize (IH _ Hin). simpl in IH.
          destruct (IH Hwfe _ (rel ++ [name])%list _
                       (join_isAbsolute _ _ Habs) Hfull D i Hch)
            as [suffix [entry' [Hne [Hplain [Hp [Hl Hk]]]]]].
          exists (name :: suffix), entry'.
          split; [discriminate|]. split; [now constructor|].
          split; [now rewrite Hp, <- app_assoc|]. split; [|exact Hk].
          simpl. now rewrite Hfind.
        * now apply (IHl Hincl' rest). }
  exact (Hsub entries (incl_refl _) raw L Hi).
Qed.

Lemma plain_posts : plainSegment "posts" = true.
Proof. reflexivity. Qed.

Lemma POSTS_DIR_absPath cs :
  Forall (fun s => plainSegment s = true) cs ->
  POSTS_DIR (absPath cs) = absPath (cs ++ ["posts"]).
Proof.
  intros Hcs. unfold POSTS_DIR.
  now rewrite (join_valid_name cs "posts" Hcs).
Qed.

Lemma plain_parts s :
  plainSegment s = true -> noSlash s = true /\ s <> "" /\ s <> "." /\ s <> "..".
Proof.
  unfold plainSegment. intros H.
  apply andb_true_iff in H as [H Hdd]. apply andb_true_iff in H as [H Hd].
  apply andb_true_iff in H as [Hn He].
  apply negb_true_iff in Hdd, Hd, He.
  repeat split; auto; intros ->; discriminate.
Qed.

Lemma normalize_absPath bs :
  Forall (fun s => plainSegment s = true) bs ->
  path.normalize (absPath bs) = absPath bs.
Proof.
  intros Hbs. rewrite normalize_absolute by apply absPath_isAbsolute.
  rewrite (segments_absPath _ Hbs).
  destruct bs as [|b bs]; [reflexivity|]. cbv zeta.
  rewrite endsWithSlash_absPath; [reflexivity|discriminate|assumption].
Qed.

(** A plain slug names the directory of that name in the posts
    directory. *)
Lemma resolvePostDir_plain cs slug :
  Forall (fun s => plainSegment s = true) cs ->
  plainSegment slug = true ->
  resolvePostDir (absPath cs) slug = Ok (absPath (cs ++ ["posts"; slug])).
Proof.
  intros Hcs Hslug. destruct (plain_parts _ Hslug) as [Hn [He [Hd Hdd]]].
  assert (Hp : Forall (fun s => plainSegment s = true) (cs ++ ["posts"]))
    by (apply Forall_app; split; [assumption|now repeat constructor]).
  unfold resolvePostDir. rewrite (POSTS_DIR_absPath _ Hcs).
  rewrite (join_valid_name _ slug Hp Hn He Hdd).
  destruct (String.eqb_spec slug "."); [congruence|].
  rewrite <- app_assoc. cbn [app].
  assert (Hall : Forall (fun s => plainSegment s = true) (cs ++ ["posts"; slug]))
    by (apply Forall_app; split; [assumption|now repeat constructor]).
  rewrite (normalize_absPath _ Hall).
  change (cs ++ ["posts"; slug])%list with (cs ++ ["posts"] ++ [slug])%list.
  rewrite app_assoc.
  rewrite (absPath_app (cs ++ ["posts"]) [slug]) by now destruct cs.
  unfold Js.startsWith. now rewrite prefix_app.
Qed.

Lemma filter_plain l :
  Forall (fun s => plainSegment s = true) l ->
  filter (fun s => negb ((s =? "") || (s =? "."))%string) l = l.
Proof.
  induction 1 as [|s l Hs Hl IH]; simpl; [reflexivity|].
  destruct (plain_parts _ Hs) as [_ [He [Hd _]]].
  destruct (String.eqb_spec s ""), (String.eqb_spec s "."); try congruence.
  simpl. now rewrite IH.
Qed.

Lemma plain_not_dotdot l :
  Forall (fun s => plainSegment s = true) l -> ~ In ".." l.
Proof.
  intros H Hin. rewrite Forall_forall in H. specialize (H _ Hin). discriminate.
Qed.

(** X9.  Every path the file listing of a post reports, at any depth, is
    accepted by the guard of that post, resolves inside the post
    directory, and leads to an existing entry of the listed kind (for a
    file, with the listed size and modification time). *)
Theorem listed_paths_resolve
        cs slug localeCompare disk dir items disk' i :
  Forall (fun s => plainSegment s = true) cs ->
  plainSegment slug = true ->
  fs.lstat (cs ++ ["posts"; slug]) disk = Ok dir ->
  wellFormed dir = true ->
  get_files (absPath cs) localeCompare slug disk = (Ok items, disk') ->
  listed i items ->
  exists resolved entry,
    resolveWithin (absPath (cs ++ ["posts"; slug])) (itemPath i) = Ok resolved
    /\ insideRoot (absPath (cs ++ ["posts"; slug])) resolved = true
    /\ fs.lstat (path.segments resolved) disk = Ok entry
    /\ sameKind entry i.
Proof.
  intros Hcs Hslug Hdir Hwf Hget Hi.
  assert (Hall : Forall (fun s => plainSegment s = true) (cs ++ ["posts"; slug]))
    by (apply Forall_app; split; [assumption|now repeat constructor]).
  assert (Hne : (cs ++ ["posts"; slug])%list <> []) by now destruct cs.
  revert Hget. unfold get_files. run_handler.
  rewrite (resolvePostDir_plain _ _ Hcs Hslug). step.
  rewrite (segments_absPath _ Hall).
  destruct (fs.access _ disk); step; [|discriminate].
  rewrite Hdir.
  destruct (directoryTree _ dir _ _) as [items'|e] eqn:D; [|discriminate].
  intros [= -> _].
  destruct (directoryTree_items localeCompare _ dir Hwf _ [] items
              (absPath_isAbsolute _) (eq_sym (app_nil_r _)) D i Hi)
    as [suffix [entry [Hsne [Hplain [Hp [Hl Hk]]]]]].
  simpl in Hp.
  assert (Hsplit : Js.split_slash (itemPath i) = suffix)
    by (rewrite Hp; apply split_join_slash;
        [assumption|now apply plain_all_noSlash]).
  destruct (resolveWithin_descends (cs ++ ["posts"; slug]) (itemPath i) Hne Hall)
    as [resolved [Hres [Hsegs Hin]]].
  { rewrite Hsplit. now apply plain_not_dotdot. }
  exists resolved, entry. repeat split; auto.
  - rewrite Hsegs. unfold relativeSegments.
    rewrite Hsplit, (filter_plain _ Hplain), lstat_app, Hdir. exact Hl.
Qed.

Lemma listed_paths_resolve_witness :
  exists resolved entry,
    resolveWithin "/content/posts/foo" "A/logo.png" = Ok resolved
    /\ insideRoot "/content/posts/foo" resolved = true
    /\ fs.lstat (path.segments resolved) sampleDisk = Ok entry
    /\ sameKind entry (FileItem "logo.png" "A/logo.png" 2048 1700000100).
Proof.
  refine (listed_paths_resolve ["content"] "foo" sampleCollate sampleDisk samplePost
            (sortItems sampleCollate
               [FileItem "index.md" "index.md" 120 1700000000;
                FileItem "b.md" "b.md" 7 1700000300;
                DirItem "A" "A" [FileItem "logo.png" "A/logo.png" 2048 1700000100];
                FileItem "a.md" "a.md" 9 1700000200])
            sampleDisk (FileItem "logo.png" "A/logo.png" 2048 1700000100)
            _ eq_refl eq_refl eq_refl eq_refl _).
  - repeat constructor.
  - apply (listed_below _ "A" "A" [FileItem "logo.png" "A/logo.png" 2048 1700000100]);
      [simpl; auto|constructor; left; reflexivity].
Defined.

(** ** PostRegistry *)

Lemma Forall_insertPost (Q : postSummary -> Prop) a l :
  Q a -> Forall Q l -> Forall Q (insertPost a l).
Proof.
  intros Ha Hl. induction Hl as [|b l Hb Hl IH]; simpl; [auto|].
  destruct (comparePosts a b <=? 0); auto.
Qed.

Lemma insertPost_sorted a l :
  StronglySorted postLe l -> StronglySorted postLe (insertPost a l).
Proof.
  induction 1 as [|b l Hs IH Hb]; simpl; [repeat constructor|].
  unfold comparePosts.
  destruct (Z.leb_spec (postModifiedAt b - postModifiedAt a) 0) as [Hle|Hgt].
  - constructor; [now constructor|]. constructor; [unfold postLe; lia|].
    eapply Forall_impl; [|exact Hb]. unfold postLe. intros c Hc. lia.
  - constructor; [exact IH|].
    apply Forall_insertPost; [unfold postLe; lia|exact Hb].
Qed.

Lemma sortPosts_sorted l : StronglySorted postLe (sortPosts l).
Proof.
  induction l as [|a l IH]; simpl; [constructor|now apply insertPost_sorted].
Qed.

Lemma insertPost_perm a l : Permutation (a :: l) (insertPost a l).
Proof.
  induction l as [|b l IH]; simpl; [reflexivity|].
  destruct (comparePosts a b <=? 0); [reflexivity|].
  rewrite perm_swap. now apply perm_skip.
Qed.

Lemma sortPosts_perm l : Permutation l (sortPosts l).
Proof.
  induction l as [|a l IH]; simpl; [reflexivity|].
  rewrite <- insertPost_perm. now apply perm_skip.
Qed.

(** The client sorts the posts it receives with the same comparator: on
    the order the server sends this changes nothing. *)
Lemma sortPosts_sorted_id l : StronglySorted postLe l -> sortPosts l = l.
Proof.
  induction 1 as [|a l Hs IH Ha]; simpl; [reflexivity|].
  rewrite IH. destruct l as [|b l]; [reflexivity|]. simpl.
  inversion Ha as [|? ? Hab _]; subst. unfold comparePosts, postLe in *.
  destruct (Z.leb_spec (postModifiedAt b - postModifiedAt a) 0); [reflexivity|lia].
Qed.

Lemma summarize_names CONTENT_ROOT dirMtime entries : forall disk posts disk',
  summarize CONTENT_ROOT dirMtime entries disk = (Ok posts, disk') ->
  disk' = disk
  /\ map postName posts = map fst (filter snd entries)
  /\ Forall (fun s => postSlug s = postName s) posts.
Proof.
  induction entries as [|[name isDir] rest IH]; intros disk posts disk' H.
  - injection H as <- <-. auto.
  - cbn [summarize filter snd] in H |- *.
    destruct isDir; [|now apply IH].
    revert H. unfold bind, ret, statOrNull. unfold stat.
    set (dirPath := path.join [POSTS_DIR CONTENT_ROOT; name]).
    set (indexPath := path.join [dirPath; "index.md"]).
    destruct (fs.lstat (path.segments dirPath) disk) as [[sz mt| |es]|e];
      try discriminate;
      (destruct (fs.lstat (path.segments indexPath) disk) as [[sz' mt'| |es']|e'];
       destruct (summarize CONTENT_ROOT dirMtime rest disk) as [[others|e''] d] eqn:S;
       cbv beta iota; try discriminate; intros [= <- <-];
       destruct (IH _ _ _ S) as [-> [Hn Hs]];
       (split; [reflexivity|]; split;
        [simpl; now rewrite Hn|constructor; [reflexivity|exact Hs]])).
Qed.

(** X10.  The posts listing reads and never writes; what it returns holds
    one summary for each directory of the posts directory and none for
    its files, each with slug equal to name, newest modification first;
    sorting it again as the client does leaves it as it is. *)
Theorem get_posts_lists_directories
        CONTENT_ROOT dirMtime disk posts disk' entries :
  fs.lstat (path.segments (POSTS_DIR CONTENT_ROOT)) disk = Ok (Dir entries) ->
  get_posts CONTENT_ROOT dirMtime disk = (Ok posts, disk') ->
  disk' = disk
  /\ Permutation (map postName posts)
                 (map fst (filter (fun e => isDirectory (snd e)) entries))
  /\ Forall (fun s => postSlug s = postName s) posts
  /\ StronglySorted postLe posts
  /\ sortPosts posts = posts.
Proof.
  intros Hdir. unfold get_posts, ensureContentStructure, readdir.
  run_handler.
  destruct (fs.access (path.segments (POSTS_DIR CONTENT_ROOT)) disk); step;
    [|discriminate].
  destruct (fs.access (path.segments (WEBSITE_SCRIPT CONTENT_ROOT)) disk); step;
    [|discriminate].
  rewrite Hdir.
  destruct (summarize _ _ _ disk) as [[raw|e] d] eqn:S; [|discriminate].
  intros [= <- <-].
  destruct (summarize_names _ _ _ _ _ _ S) as [-> [Hn Hs]].
  split; [reflexivity|]. split; [|split; [|split]].
  - rewrite <- (sortPosts_perm raw), Hn.
    clear. induction entries as [|[k v] l IH]; simpl; [reflexivity|].
    destruct (isDirectory v); simpl; [now apply perm_skip|exact IH].
  - eapply Permutation_Forall; [apply sortPosts_perm|exact Hs].
  - apply sortPosts_sorted.
  - apply sortPosts_sorted_id, sortPosts_sorted.
Qed.

Lemma get_posts_lists_directories_witness :
  exists posts,
    get_posts "/content" sampleDirMtime registryDisk = (Ok posts, registryDisk)
    /\ Permutation (map postName posts) ["foo"; "foobar"]
    /\ StronglySorted postLe posts.
Proof.
  eexists. split; [vm_compute; reflexivity|].
  destruct (get_posts_lists_directories "/content" sampleDirMtime registryDisk _ _
              [("foo", samplePost); ("notes.txt", File 3 1700000900);
               ("foobar", Dir [("draft.md", File 64 1700000400)])]
              eq_refl eq_refl) as [_ [Hperm [_ [Hsorted _]]]].
  split; [exact Hperm|exact Hsorted].
Defined.

Lemma summarize_fields cs dirMtime disk entries :
  Forall (fun s => plainSegment s = true) cs ->
  fs.lstat (cs ++ ["posts"]) disk = Ok (Dir entries) ->
  wellFormed (Dir entries) = true ->
  forall l, incl l entries ->
  exists posts,
    summarize (absPath cs) dirMtime
              (map (fun e => (fst e, isDirectory (snd e))) l) disk
    = (Ok posts, disk)
    /\ Forall (fun s =>
                 exists children,
                   In (postName s, Dir children) entries
                   /\ match find_entry "index.md" children with
                      | Some (File _ mtime) =>
                          postHasIndex s = true /\ postModifiedAt s = mtime
                      | Some (Dir _) =>
                          postHasIndex s = true
                          /\ postModifiedAt s
                             = dirMtime (absPath (cs ++ ["posts"; postName s; "index.md"]))
                      | _ =>
                          postHasIndex s = false
                          /\ postModifiedAt s
                             = dirMtime (absPath (cs ++ ["posts"; postName s]))
                      end) posts.
Proof.
  intros Hcs Hdir Hwf.
  destruct (wellFormed_entries _ Hwf) as [Huniq Hgood].
  rewrite Forall_forall in Hgood.
  assert (Hp : Forall (fun s => plainSegment s = true) (cs ++ ["posts"]))
    by (apply Forall_app; split; [assumption|now repeat constructor]).
  induction l as [|[name entry] l IH]; intros Hincl.
  - exists []. split; [reflexivity|constructor].
  - assert (Hin : In (name, entry) entries) by (apply Hincl; now left).
    destruct IH as [others [Hothers Hall]];
      [intros e He; apply Hincl; now right|].
    cbn [map fst snd summarize].
    destruct entry as [sz mt| |children]; cbn [isDirectory]; eauto.
    destruct (Hgood _ Hin) as [Hname _]. simpl in Hname.
    destruct (plain_parts _ Hname) as [Hn [He [Hd Hdd]]].
    pose proof (find_entry_unique _ _ _ Huniq Hin) as Hfind.
    rewrite (POSTS_DIR_absPath _ Hcs).
    rewrite (join_valid_name _ name Hp Hn He Hdd).
    destruct (String.eqb_spec name "."); [congruence|].
    rewrite <- app_assoc. cbn [app].
    assert (Hpn : Forall (fun s => plainSegment s = true) (cs ++ ["posts"; name]))
      by (apply Forall_app; split; [assumption|now repeat constructor]).
    rewrite (join_valid_name _ "index.md" Hpn eq_refl) by discriminate.
    cbn [String.eqb Ascii.eqb Bool.eqb]. rewrite <- app_assoc. cbn [app].
    assert (Hpi : Forall (fun s => plainSegment s = true)
                         (cs ++ ["posts"; name; "index.md"]))
      by (apply Forall_app; split; [assumption|now repeat constructor]).
    unfold bind, ret, statOrNull. unfold stat.
    rewrite (segments_absPath _ Hpn), (segments_absPath _ Hpi).
    change (cs ++ ["posts"; name])%list with (cs ++ ["posts"] ++ [name])%list.
    change (cs ++ ["posts"; name; "index.md"])%list
      with (cs ++ ["posts"] ++ [name; "index.md"])%list.
    rewrite !app_assoc, !(lstat_app (cs ++ ["posts"])), Hdir.
    cbn [fs.lstat]. rewrite Hfind.
    destruct (find_entry "index.md" children) as [[sz mt| |es]|] eqn:Hidx;
      cbv beta iota; rewrite Hothers;
      (eexists; split; [reflexivity|]; constructor; [|exact Hall];
       exists children; cbn [postName postHasIndex postModifiedAt];
       rewrite Hidx, <- ?app_assoc; auto).
Qed.

(** X11.  On a well-formed disk with the posts directory and the script
    in place the posts listing succeeds, and each summary describes a
    directory of the posts directory: [hasIndex] tells whether [index.md]
    in it can be read, and [modifiedAt] is the index document's time when
    it can, the directory's own time when it cannot. *)
Theorem get_posts_summaries cs dirMtime disk entries :
  Forall (fun s => plainSegment s = true) cs ->
  fs.lstat (cs ++ ["posts"]) disk = Ok (Dir entries) ->
  wellFormed (Dir entries) = true ->
  fs.access (cs ++ ["website.fish"]) disk = true ->
  exists posts,
    get_posts (absPath cs) dirMtime disk = (Ok posts, disk)
    /\ Forall (fun s =>
                 exists children,
                   In (postName s, Dir children) entries
                   /\ match find_entry "index.md" children with
                      | Some (File _ mtime) =>
                          postHasIndex s = true /\ postModifiedAt s = mtime
                      | Some (Dir _) =>
                          postHasIndex s = true
                          /\ postModifiedAt s
                             = dirMtime (absPath (cs ++ ["posts"; postName s; "index.md"]))
                      | _ =>
                          postHasIndex s = false
                          /\ postModifiedAt s
                             = dirMtime (absPath (cs ++ ["posts"; postName s]))
                      end) posts.
Proof.
  intros Hcs Hdir Hwf Hscript.
  assert (Hp : Forall (fun s => plainSegment s = true) (cs ++ ["posts"]))
    by (apply Forall_app; split; [assumption|now repeat constructor]).
  assert (Hw : Forall (fun s => plainSegment s = true) (cs ++ ["website.fish"]))
    by (apply Forall_app; split; [assumption|now repeat constructor]).
  destruct (summarize_fields cs dirMtime disk entries Hcs Hdir Hwf entries
              (incl_refl _)) as [raw [Hraw Hall]].
  exists (sortPosts raw). split.
  - unfold get_posts, ensureContentStructure, readdir, WEBSITE_SCRIPT.
    run_handler. rewrite (POSTS_DIR_absPath _ Hcs).
    rewrite (join_valid_name cs "website.fish" Hcs eq_refl) by discriminate.
    cbn [String.eqb Ascii.eqb Bool.eqb].
    rewrite (segments_absPath _ Hp), (segments_absPath _ Hw).
    unfold fs.access at 1. rewrite Hdir. step. rewrite Hscript. step.
    rewrite Hdir. step. rewrite Hraw. reflexivity.
  - eapply Permutation_Forall; [apply sortPosts_perm|exact Hall].
Qed.

Lemma get_posts_summaries_witness :
  exists posts,
    get_posts "/content" sampleDirMtime registryDisk = (Ok posts, registryDisk)
    /\ Forall (fun s => postHasIndex s = true \/ postHasIndex s = false) posts.
Proof.
  destruct (get_posts_summaries ["content"] sampleDirMtime registryDisk
              [("foo", samplePost); ("notes.txt", File 3 1700000900);
               ("foobar", Dir [("draft.md", File 64 1700000400)])])
    as [posts [Hget Hall]].
  - repeat constructor.
  - reflexivity.
  - reflexivity.
  - reflexivity.
  - exists posts. split; [exact Hget|].
    eapply Forall_impl; [|exact Hall]. intros s _.
    destruct (postHasIndex s); auto.
Defined.

(** ** Deleting and renaming a post *)

Lemma rm_child p s : forall n es,
  fs.lstat p n = Ok (Dir es) ->
  exists n', fs.rm (p ++ [s]) n = Ok n'
             /\ fs.lstat p n' = Ok (Dir (remove_entry s es)).
Proof.
  induction p as [|a p IH]; intros n es.
  - simpl. intros [= ->]. eexists; split; reflexivity.
  - destruct n as [sz mt| |es0]; simpl; try discriminate.
    destruct (find_entry a es0) as [c|] eqn:Hc; [|discriminate].
    intros H. destruct (IH _ _ H) as [c' [Hrm Hl]].
    exists (Dir (set_entry a c' es0)). split.
    + rewrite Hrm. destruct (p ++ [s])%list eqn:E; [now destruct p|reflexivity].
    + now rewrite find_set_same.
Qed.

Lemma put_child p s x : forall n es,
  fs.lstat p n = Ok (Dir es) ->
  exists n', fs.put (p ++ [s]) x n = Ok n'
             /\ fs.lstat p n' = Ok (Dir (set_entry s x es)).
Proof.
  induction p as [|a p IH]; intros n es.
  - simpl. intros [= ->]. eexists; split; reflexivity.
  - destruct n as [sz mt| |es0]; simpl; try discriminate.
    destruct (find_entry a es0) as [c|] eqn:Hc; [|discriminate].
    intros H. destruct (IH _ _ H) as [c' [Hput Hl]].
    exists (Dir (set_entry a c' es0)). split.
    + rewrite Hput. destruct (p ++ [s])%list eqn:E; [now destruct p|reflexivity].
    + now rewrite find_set_same.
Qed.

Lemma isPrefix_app p : forall a b,
  fs.isPrefix (p ++ a) (p ++ b) = fs.isPrefix a b.
Proof.
  induction p as [|x p IH]; intros a b; simpl; [reflexivity|].
  now rewrite String.eqb_refl, IH.
Qed.

Lemma list_eqb_app p : forall a b,
  fs.list_eqb (p ++ a) (p ++ b) = fs.list_eqb a b.
Proof.
  induction p as [|x p IH]; intros a b; simpl; [reflexivity|].
  now rewrite String.eqb_refl, IH.
Qed.

Lemma plain_post cs slug :
  Forall (fun s => plainSegment s = true) cs ->
  plainSegment slug = true ->
  Forall (fun s => plainSegment s = true) (cs ++ ["posts"; slug]).
Proof.
  intros Hcs Hslug. apply Forall_app. split; [assumption|now repeat constructor].
Qed.

Lemma delete_post_run cs slug disk :
  Forall (fun s => plainSegment s = true) cs ->
  plainSegment slug = true ->
  delete_post (absPath cs) slug disk
  = if fs.access (cs ++ ["posts"; slug]) disk then
      match fs.rm (cs ++ ["posts"; slug]) disk with
      | Ok disk' => (Ok {| status := 200; message := "Post deleted" |}, disk')
      | Err e => (Err e, disk)
      end
    else (Err (HttpError 404 "Post not found"), disk).
Proof.
  intros Hcs Hslug. unfold delete_post. run_handler.
  rewrite (resolvePostDir_plain _ _ Hcs Hslug). step.
  rewrite (segments_absPath _ (plain_post _ _ Hcs Hslug)).
  destruct (fs.access _ disk); step; [|reflexivity].
  now destruct (fs.rm _ disk).
Qed.

(** X12.  Deleting a post answers 404 and changes nothing when no such
    directory can be reached; otherwise it succeeds, the posts directory
    holds the entries it held without the one of that name, and every entry
    on a path that branches off the post is exactly as before. *)
Theorem delete_post_removes_post cs slug disk entries :
  Forall (fun s => plainSegment s = true) cs ->
  plainSegment slug = true ->
  fs.lstat (cs ++ ["posts"]) disk = Ok (Dir entries) ->
  (fs.access (cs ++ ["posts"; slug]) disk = false ->
   delete_post (absPath cs) slug disk
   = (Err (HttpError 404 "Post not found"), disk))
  /\ (fs.access (cs ++ ["posts"; slug]) disk = true ->
      exists disk',
        delete_post (absPath cs) slug disk
        = (Ok {| status := 200; message := "Post deleted" |}, disk')
        /\ fs.lstat (cs ++ ["posts"]) disk' = Ok (Dir (remove_entry slug entries))
        /\ (forall q,
               fs.isPrefix (cs ++ ["posts"; slug]) q = false ->
               fs.isPrefix q (cs ++ ["posts"; slug]) = false ->
               fs.lstat q disk' = fs.lstat q disk)).
Proof.
  intros Hcs Hslug Hdir.
  rewrite (delete_post_run _ _ disk Hcs Hslug).
  split; intros ->; [reflexivity|].
  destruct (rm_child (cs ++ ["posts"]) slug disk entries Hdir) as [disk' [Hrm Hl]].
  rewrite <- app_assoc in Hrm. cbn [app] in Hrm.
  exists disk'. rewrite Hrm. split; [reflexivity|]. split; [exact Hl|].
  intros q. exact (rm_frame _ _ _ _ Hrm).
Qed.

Lemma delete_post_removes_post_witness :
  delete_post "/content" "ghost" registryDisk
  = (Err (HttpError 404 "Post not found"), registryDisk)
  /\ exists disk',
       delete_post "/content" "foo" registryDisk
       = (Ok {| status := 200; message := "Post deleted" |}, disk')
       /\ fs.lstat ["content"; "posts"] disk'
          = Ok (Dir [("notes.txt", File 3 1700000900);
                     ("foobar", Dir [("draft.md", File 64 1700000400)])])
       /\ fs.lstat ["content"; "website.fish"] disk'
          = Ok (File 512 1690000000).
Proof.
  assert (Hcs : Forall (fun s => plainSegment s = true) ["content"])
    by repeat constructor.
  split.
  - exact (proj1 (delete_post_removes_post ["content"] "ghost" registryDisk _
                    Hcs eq_refl eq_refl) eq_refl).
  - destruct (proj2 (delete_post_removes_post ["content"] "foo" registryDisk _
                       Hcs eq_refl eq_refl) eq_refl)
      as [disk' [Hrun [Hdir Hframe]]].
    exists disk'. split; [exact Hrun|]. split; [exact Hdir|].
    rewrite Hframe; reflexivity.
Defined.

Lemma In_remove_entry s e : forall es,
  In e (remove_entry s es) -> In e es /\ fst e <> s.
Proof.
  induction es as [|[k w] es IH]; simpl; [tauto|].
  destruct (String.eqb_spec k s) as [->|Hks].
  - intros H. destruct (IH H). auto.
  - intros [<-|H]; [auto|]. destruct (IH H). auto.
Qed.

Lemma summarize_disk CONTENT_ROOT dirMtime entries : forall disk,
  snd (summarize CONTENT_ROOT dirMtime entries disk) = disk.
Proof.
  induction entries as [|[name isDir] rest IH]; intros disk; [reflexivity|].
  cbn [summarize]. destruct isDir; [|apply IH].
  unfold bind, ret, statOrNull. unfold stat.
  specialize (IH disk).
  destruct (fs.lstat _ disk) as [[sz mt| |es]|e]; try reflexivity;
    (destruct (fs.lstat _ disk) as [[sz' mt'| |es']|e'];
     destruct (summarize CONTENT_ROOT dirMtime rest disk) as [[others|e''] d];
     exact IH).
Qed.

Lemma summarize_ext CONTENT_ROOT dirMtime d1 d2 : forall entries,
  (forall name,
      In (name, true) entries ->
      let dirPath := path.join [POSTS_DIR CONTENT_ROOT; name] in
      fs.lstat (path.segments dirPath) d1 = fs.lstat (path.segments dirPath) d2
      /\ fs.lstat (path.segments (path.join [dirPath; "index.md"])) d1
         = fs.lstat (path.segments (path.join [dirPath; "index.md"])) d2) ->
  fst (summarize CONTENT_ROOT dirMtime entries d1)
  = fst (summarize CONTENT_ROOT dirMtime entries d2).
Proof.
  induction entries as [|[name isDir] rest IH]; intros Hsame; [reflexivity|].
  assert (Hrest : fst (summarize CONTENT_ROOT dirMtime rest d1)
                  = fst (summarize CONTENT_ROOT dirMtime rest d2))
    by (apply IH; intros n Hn; apply Hsame; now right).
  cbn [summarize]. destruct isDir; [|exact Hrest].
  destruct (Hsame name (or_introl eq_refl)) as [Hd Hi]. cbv zeta in Hd, Hi.
  unfold bind, ret, statOrNull. unfold stat. rewrite Hd, Hi.
  destruct (fs.lstat _ d2) as [[sz mt| |es]|e]; try reflexivity;
    (destruct (fs.lstat _ d2) as [[sz' mt'| |es']|e'];
     destruct (summarize CONTENT_ROOT dirMtime rest d1) as [[o1|e1] s1];
     destruct (summarize CONTENT_ROOT dirMtime rest d2) as [[o2|e2] s2];
     simpl in Hrest; try discriminate; injection Hrest as <-; reflexivity).
Qed.

Lemma summarize_remove CONTENT_ROOT dirMtime slug disk : forall l raw,
  summarize CONTENT_ROOT dirMtime
            (map (fun e => (fst e, isDirectory (snd e))) l) disk
  = (Ok raw, disk) ->
  summarize CONTENT_ROOT dirMtime
            (map (fun e => (fst e, isDirectory (snd e))) (remove_entry slug l)) disk
  = (Ok (filter (fun s => negb (postName s =? slug)%string) raw), disk).
Proof.
  induction l as [|[k v] l IH]; intros raw.
  - simpl. intros [= <-]. reflexivity.
  - cbn [map fst snd remove_entry summarize].
    destruct (String.eqb_spec k slug) as [Hk|Hk].
    + destruct (isDirectory v); [|apply IH].
      unfold bind, ret, statOrNull. unfold stat.
      destruct (fs.lstat _ disk) as [[sz mt| |es]|e]; try discriminate;
        (destruct (fs.lstat _ disk) as [[sz' mt'| |es']|e'];
         destruct (summarize CONTENT_ROOT dirMtime _ disk) as [[others|e''] d] eqn:S;
         cbv beta iota; try discriminate; intros [= <- ->];
         cbn [filter postName]; subst k; rewrite String.eqb_refl;
         exact (IH _ eq_refl)).
    + cbn [map fst snd summarize].
      destruct (isDirectory v); [|apply IH].
      unfold bind, ret, statOrNull. unfold stat.
      destruct (fs.lstat _ disk) as [[sz mt| |es]|e]; try discriminate;
        (destruct (fs.lstat _ disk) as [[sz' mt'| |es']|e'];
         destruct (summarize CONTENT_ROOT dirMtime
                     (map (fun e => (fst e, isDirectory (snd e))) l) disk)
           as [[others|e''] d] eqn:S;
         cbv beta iota; try discriminate; intros [= <- ->];
         rewrite (IH _ eq_refl); cbn [filter postName];
         rewrite (proj2 (String.eqb_neq k slug) Hk); reflexivity).
Qed.

Lemma insertPost_head a l : Forall (postLe a) l -> insertPost a l = a :: l.
Proof.
  destruct 1 as [|b l Hb _]; [reflexivity|]. simpl.
  unfold comparePosts, postLe in *.
  destruct (Z.leb_spec (postModifiedAt b - postModifiedAt a) 0); [reflexivity|lia].
Qed.

Lemma insertPost_filter (f : postSummary -> bool) a l :
  StronglySorted postLe l -> f a = true ->
  filter f (insertPost a l) = insertPost a (filter f l).
Proof.
  intros Hs Ha. induction Hs as [|b l Hs IH Hb]; simpl; [now rewrite Ha|].
  destruct (Z.leb_spec (comparePosts a b) 0) as [Hle|Hgt].
  - cbn [filter]. rewrite Ha. symmetry. apply insertPost_head.
    assert (Hall : Forall (postLe a) (b :: l)).
    { unfold comparePosts in Hle. constructor; [unfold postLe; lia|].
      eapply Forall_impl; [|exact Hb]. unfold postLe. intros c Hc. lia. }
    rewrite Forall_forall in Hall |- *. intros c Hc. apply Hall.
    change (In c (filter f (b :: l))) in Hc. now apply filter_In in Hc.
  - cbn [filter]. rewrite IH. destruct (f b); [|reflexivity].
    simpl. destruct (Z.leb_spec (comparePosts a b) 0); [lia|reflexivity].
Qed.

Lemma insertPost_filter_out (f : postSummary -> bool) a l :
  f a = false -> filter f (insertPost a l) = filter f l.
Proof.
  intros Ha. induction l as [|b l IH]; simpl; [now rewrite Ha|].
  destruct (comparePosts a b <=? 0); cbn [filter]; [now rewrite Ha|].
  now rewrite IH.
Qed.

(** Sorting, being stable, commutes with dropping elements. *)
Lemma sortPosts_filter (f : postSummary -> bool) l :
  sortPosts (filter f l) = filter f (sortPosts l).
Proof.
  induction l as [|a l IH]; [reflexivity|]. cbn [filter sortPosts].
  destruct (f a) eqn:Ha.
  - cbn [sortPosts]. rewrite IH. symmetry.
    apply insertPost_filter; [apply sortPosts_sorted|exact Ha].
  - rewrite IH. symmetry. now apply insertPost_filter_out.
Qed.

Lemma get_posts_run cs dirMtime disk entries :
  Forall (fun s => plainSegment s = true) cs ->
  fs.lstat (cs ++ ["posts"]) disk = Ok (Dir entries) ->
  get_posts (absPath cs) dirMtime disk
  = if fs.access (cs ++ ["website.fish"]) disk then
      match summarize (absPath cs) dirMtime
                      (map (fun e => (fst e, isDirectory (snd e))) entries) disk with
      | (Ok raw, disk') => (Ok (sortPosts raw), disk')
      | (Err e, disk') => (Err e, disk')
      end
    else (Err (plainError ("website.fish script not found. Expected at "
                           ++ absPath (cs ++ ["website.fish"]))), disk).
Proof.
  intros Hcs Hdir.
  assert (Hp : Forall (fun s => plainSegment s = true) (cs ++ ["posts"]))
    by (apply Forall_app; split; [assumption|now repeat constructor]).
  assert (Hw : Forall (fun s => plainSegment s = true) (cs ++ ["website.fish"]))
    by (apply Forall_app; split; [assumption|now repeat constructor]).
  unfold get_posts, ensureContentStructure, readdir, WEBSITE_SCRIPT.
  run_handler. rewrite (POSTS_DIR_absPath _ Hcs).
  rewrite (join_valid_name cs "website.fish" Hcs eq_refl) by discriminate.
  cbn [String.eqb Ascii.eqb Bool.eqb].
  rewrite (segments_absPath _ Hp), (segments_absPath _ Hw).
  unfold fs.access at 1. rewrite Hdir. step.
  destruct (fs.access _ disk); step; [|reflexivity].
  rewrite Hdir. step.
  now destruct (summarize _ _ _ disk) as [[raw|e] d].
Qed.

(** X13.  After a post is deleted the posts listing is the listing from
    before without that post's summary: every other post is reported with
    the same fields and in the same order. *)
Theorem deleted_post_leaves_listing cs dirMtime slug disk entries posts r disk' :
  Forall (fun s => plainSegment s = true) cs ->
  plainSegment slug = true ->
  fs.lstat (cs ++ ["posts"]) disk = Ok (Dir entries) ->
  wellFormed (Dir entries) = true ->
  get_posts (absPath cs) dirMtime disk = (Ok posts, disk) ->
  delete_post (absPath cs) slug disk = (Ok r, disk') ->
  get_posts (absPath cs) dirMtime disk'
  = (Ok (filter (fun s => negb (postName s =? slug)%string) posts), disk').
Proof.
  intros Hcs Hslug Hdir Hwf Hget Hdel.
  destruct (wellFormed_entries _ Hwf) as [_ Hgood].
  rewrite Forall_forall in Hgood.
  assert (Hp : Forall (fun s => plainSegment s = true) (cs ++ ["posts"]))
    by (apply Forall_app; split; [assumption|now repeat constructor]).
  rewrite (delete_post_run _ _ disk Hcs Hslug) in Hdel.
  destruct (fs.access (cs ++ ["posts"; slug]) disk); [|discriminate].
  destruct (rm_child (cs ++ ["posts"]) slug disk entries Hdir) as [n' [Hrm Hl]].
  rewrite <- app_assoc in Hrm. cbn [app] in Hrm.
  rewrite Hrm in Hdel. injection Hdel as _ ->.
  rewrite (get_posts_run _ _ _ _ Hcs Hdir) in Hget.
  rewrite (get_posts_run _ _ _ _ Hcs Hl).
  assert (Hscript : fs.access (cs ++ ["website.fish"]) disk'
                    = fs.access (cs ++ ["website.fish"]) disk).
  { apply (rm_access _ _ _ _ Hrm). now rewrite isPrefix_app. }
  rewrite Hscript.
  destruct (fs.access (cs ++ ["website.fish"]) disk); [|discriminate].
  destruct (summarize _ _ _ disk) as [[raw|e] d] eqn:S; [|discriminate].
  injection Hget as <- ->.
  pose proof (summarize_remove _ _ slug _ _ _ S) as Hrem.
  pose proof (summarize_disk (absPath cs) dirMtime
                (map (fun e => (fst e, isDirectory (snd e)))
                     (remove_entry slug entries)) disk') as Hsnd.
  assert (Hfst : fst (summarize (absPath cs) dirMtime
                        (map (fun e => (fst e, isDirectory (snd e)))
                             (remove_entry slug entries)) disk')
                 = fst (summarize (absPath cs) dirMtime
                          (map (fun e => (fst e, isDirectory (snd e)))
                               (remove_entry slug entries)) disk)).
  { apply summarize_ext. intros name Hin dirPath. subst dirPath.
    apply in_map_iff in Hin. destruct Hin as [[k v] [[= -> _] Hin]].
    apply In_remove_entry in Hin. destruct Hin as [Hin Hne]. simpl in Hne.
    destruct (Hgood _ Hin) as [Hname _]. simpl in Hname.
    destruct (plain_parts _ Hname) as [Hn [He [Hd Hdd]]].
    rewrite (POSTS_DIR_absPath _ Hcs).
    rewrite (join_valid_name _ name Hp Hn He Hdd).
    destruct (String.eqb_spec name "."); [congruence|].
    rewrite <- app_assoc. cbn [app].
    pose proof (plain_post _ _ Hcs Hname) as Hpn.
    rewrite (join_valid_name _ "index.md" Hpn eq_refl) by discriminate.
    cbn [String.eqb Ascii.eqb Bool.eqb]. rewrite <- app_assoc. cbn [app].
    assert (Hpi : Forall (fun s => plainSegment s = true)
                         (cs ++ ["posts"; name; "index.md"]))
      by (apply Forall_app; split; [assumption|now repeat constructor]).
    rewrite (segments_absPath _ Hpn), (segments_absPath _ Hpi).
    assert (Hns : (slug =? name)%string = false)
      by (apply String.eqb_neq; congruence).
    assert (Hsn : (name =? slug)%string = false)
      by (apply String.eqb_neq; congruence).
    split; apply (rm_frame _ _ _ _ Hrm); rewrite isPrefix_app; simpl;
      now rewrite ?Hns, ?Hsn. }
  rewrite Hrem in Hfst.
  destruct (summarize _ _ _ disk') as [res d']. simpl in Hsnd, Hfst. subst.
  now rewrite sortPosts_filter.
Qed.

Lemma deleted_post_leaves_listing_witness :
  exists disk' posts,
    delete_post "/content" "foo" registryDisk
    = (Ok {| status := 200; message := "Post deleted" |}, disk')
    /\ get_posts "/content" sampleDirMtime disk' = (Ok posts, disk')
    /\ map postName posts = ["foobar"].
Proof.
  assert (Hcs : Forall (fun s => plainSegment s = true) ["content"])
    by repeat constructor.
  exists (snd (delete_post "/content" "foo" registryDisk)).
  eexists. split; [reflexivity|]. split.
  - exact (deleted_post_leaves_listing ["content"] sampleDirMtime "foo"
             registryDisk _ _ _ _ Hcs eq_refl eq_refl eq_refl eq_refl eq_refl).
  - reflexivity.
Defined.

Lemma put_post_run cs slug newName disk :
  Forall (fun s => plainSegment s = true) cs ->
  plainSegment slug = true ->
  assertValidName (Some newName) = Ok tt ->
  put_post (absPath cs) slug (Some newName) disk
  = if fs.access (cs ++ ["posts"; slug]) disk then
      if fs.access ((cs ++ ["posts"])
                    ++ if (newName =? ".")%string then [] else [newName]) disk
      then (Err (HttpError 409 "A post with the new name already exists"), disk)
      else
        match fse_rename (cs ++ ["posts"; slug])
                         ((cs ++ ["posts"])
                          ++ if (newName =? ".")%string then [] else [newName])
                         disk with
        | Ok disk' =>
            (Ok {| postStatus := 200; postMessage := "Post renamed";
                   postNewName := newName |}, disk')
        | Err e => (Err e, disk)
        end
    else (Err (HttpError 404 "Post not found"), disk).
Proof.
  intros Hcs Hslug Hvalid.
  assert (Hp : Forall (fun s => plainSegment s = true) (cs ++ ["posts"]))
    by (apply Forall_app; split; [assumption|now repeat constructor]).
  destruct (assertValidName_ok _ Hvalid) as [Hn [He Hdd]].
  unfold put_post, rename. rewrite Hvalid. run_handler.
  rewrite (resolvePostDir_plain _ _ Hcs Hslug). step.
  rewrite (segments_absPath _ (plain_post _ _ Hcs Hslug)).
  destruct (fs.access (cs ++ ["posts"; slug]) disk); step; [|reflexivity].
  rewrite (POSTS_DIR_absPath _ Hcs).
  rewrite (join_valid_name _ newName Hp Hn He Hdd).
  assert (Hd : Forall (fun s => plainSegment s = true)
                 ((cs ++ ["posts"])
                  ++ if (newName =? ".")%string then [] else [newName])).
  { apply Forall_app. split; [assumption|].
    destruct (String.eqb_spec newName "."); [constructor|].
    constructor; [|constructor]. unfold plainSegment. rewrite Hn.
    now rewrite (proj2 (String.eqb_neq _ _) He), (proj2 (String.eqb_neq _ _) n),
                (proj2 (String.eqb_neq _ _) Hdd). }
  rewrite (segments_absPath _ Hd).
  destruct (fs.access _ disk); step; [reflexivity|].
  now destruct (fse_rename _ _ disk).
Qed.

Lemma put_post_moves cs slug newName disk entries post :
  Forall (fun s => plainSegment s = true) cs ->
  plainSegment slug = true ->
  assertValidName (Some newName) = Ok tt ->
  fs.lstat (cs ++ ["posts"]) disk = Ok (Dir entries) ->
  find_entry slug entries = Some post ->
  post <> Broken ->
  newName <> "." ->
  find_entry newName entries = None ->
  exists disk',
    put_post (absPath cs) slug (Some newName) disk
    = (Ok {| postStatus := 200; postMessage := "Post renamed";
             postNewName := newName |}, disk')
    /\ fs.lstat (cs ++ ["posts"]) disk'
       = Ok (Dir (set_entry newName post (remove_entry slug entries)))
    /\ (forall q,
           fs.isPrefix (cs ++ ["posts"; slug]) q = false ->
           fs.isPrefix q (cs ++ ["posts"; slug]) = false ->
           fs.isPrefix (cs ++ ["posts"; newName]) q = false ->
           fs.isPrefix q (cs ++ ["posts"; newName]) = false ->
           fs.lstat q disk' = fs.lstat q disk).
Proof.
  intros Hcs Hslug Hvalid Hdir Hfind Hpost Hdot Hfree.
  assert (Hsrc : fs.lstat (cs ++ ["posts"; slug]) disk = Ok post).
  { change (cs ++ ["posts"; slug])%list with (cs ++ ["posts"] ++ [slug])%list.
    rewrite app_assoc, lstat_app, Hdir. simpl. now rewrite Hfind. }
  assert (Hacc : fs.access (cs ++ ["posts"; slug]) disk = true).
  { unfold fs.access. rewrite Hsrc. now destruct post. }
  rewrite (put_post_run _ _ _ disk Hcs Hslug Hvalid), Hacc.
  rewrite (proj2 (String.eqb_neq _ _) Hdot).
  assert (Hdest : fs.lstat ((cs ++ ["posts"]) ++ [newName]) disk
                  = Err (FsError ENOENT)).
  { rewrite lstat_app, Hdir. simpl. now rewrite Hfree. }
  unfold fs.access at 1. rewrite Hdest.
  assert (Hne : (slug =? newName)%string = false).
  { apply String.eqb_neq. intros <-. congruence. }
  destruct (rm_child (cs ++ ["posts"]) slug disk entries Hdir) as [n2 [Hrm Hl2]].
  destruct (put_child (cs ++ ["posts"]) newName post n2 _ Hl2) as [n3 [Hput Hl3]].
  unfold fse_rename. rewrite Hsrc.
  change (cs ++ ["posts"; slug])%list with (cs ++ ["posts"] ++ [slug])%list.
  rewrite app_assoc, list_eqb_app, isPrefix_app. simpl fs.list_eqb.
  simpl fs.isPrefix. rewrite Hne. cbn [andb]. rewrite Bool.andb_false_r.
  rewrite removelast_last, Hdir, Hdest, Hrm, Hput.
  exists n3. split; [reflexivity|]. split; [exact Hl3|].
  intros q Hs1 Hs2 Hd1 Hd2.
  rewrite <- app_assoc in Hrm, Hput, Hs1, Hs2. cbn [app] in Hrm, Hput, Hs1, Hs2.
  rewrite (put_frame _ _ _ _ _ Hput Hd1 Hd2).
  exact (rm_frame _ _ _ _ Hrm Hs1 Hs2).
Qed.

(** X14.  Renaming a post to a valid name that is free moves the post: the
    posts directory holds the old entries without the old name and with
    the post, unchanged, under the new one, and paths that branch off both
    names are as before.  A new name that is taken, the post's own name
    included, or the name [.], is refused with 409 and nothing changes. *)
Theorem put_post_renames cs slug newName disk entries post :
  Forall (fun s => plainSegment s = true) cs ->
  plainSegment slug = true ->
  assertValidName (Some newName) = Ok tt ->
  fs.lstat (cs ++ ["posts"]) disk = Ok (Dir entries) ->
  find_entry slug entries = Some post ->
  post <> Broken ->
  (newName <> "." ->
   find_entry newName entries = None ->
   exists disk',
     put_post (absPath cs) slug (Some newName) disk
     = (Ok {| postStatus := 200; postMessage := "Post renamed";
              postNewName := newName |}, disk')
     /\ fs.lstat (cs ++ ["posts"]) disk'
        = Ok (Dir (set_entry newName post (remove_entry slug entries)))
     /\ (forall q,
            fs.isPrefix (cs ++ ["posts"; slug]) q = false ->
            fs.isPrefix q (cs ++ ["posts"; slug]) = false ->
            fs.isPrefix (cs ++ ["posts"; newName]) q = false ->
            fs.isPrefix q (cs ++ ["posts"; newName]) = false ->
            fs.lstat q disk' = fs.lstat q disk))
  /\ (newName = "." \/ newName = slug
      \/ fs.access (cs ++ ["posts"; newName]) disk = true ->
      put_post (absPath cs) slug (Some newName) disk
      = (Err (HttpError 409 "A post with the new name already exists"), disk)).
Proof.
  intros Hcs Hslug Hvalid Hdir Hfind Hpost.
  split; [now apply put_post_moves|].
  assert (Hacc : fs.access (cs ++ ["posts"; slug]) disk = true).
  { unfold fs.access.
    change (cs ++ ["posts"; slug])%list with (cs ++ ["posts"] ++ [slug])%list.
    rewrite app_assoc, lstat_app, Hdir. simpl. rewrite Hfind. now destruct post. }
  rewrite (put_post_run _ _ _ disk Hcs Hslug Hvalid), Hacc.
  intros Htaken.
  destruct (String.eqb_spec newName ".") as [->|Hdot].
  - rewrite app_nil_r. unfold fs.access at 1. now rewrite Hdir.
  - rewrite <- app_assoc. cbn [app].
    destruct Htaken as [E | [E | E]]; [congruence|subst newName|];
      now rewrite ?Hacc, ?E.
Qed.

Lemma put_post_renames_witness :
  (exists disk',
      put_post "/content" "foo" (Some "bar") registryDisk
      = (Ok {| postStatus := 200; postMessage := "Post renamed";
               postNewName := "bar" |}, disk')
      /\ fs.lstat ["content"; "posts"] disk'
         = Ok (Dir [("notes.txt", File 3 1700000900);
                    ("foobar", Dir [("draft.md", File 64 1700000400)]);
                    ("bar", samplePost)]))
  /\ put_post "/content" "foo" (Some "foobar") registryDisk
     = (Err (HttpError 409 "A post with the new name already exists"),
        registryDisk).
Proof.
  assert (Hcs : Forall (fun s => plainSegment s = true) ["content"])
    by repeat constructor.
  assert (Hpost : samplePost <> Broken) by discriminate.
  split.
  - destruct (proj1 (put_post_renames ["content"] "foo" "bar" registryDisk _
                       samplePost Hcs eq_refl eq_refl eq_refl eq_refl Hpost))
      as [disk' [Hrun [Hdir _]]]; [discriminate|reflexivity|].
    exists disk'. split; [exact Hrun|exact Hdir].
  - apply (proj2 (put_post_renames ["content"] "foo" "foobar" registryDisk _
                    samplePost Hcs eq_refl eq_refl eq_refl eq_refl Hpost)).
    right. right. reflexivity.
Defined.

(** ** Uploads *)

Lemma creatable_app p : forall r n,
  fs.creatable (p ++ r) n = true -> fs.creatable p n = true.
Proof.
  induction p as [|s p IH]; intros r n; destruct n as [sz mt| |es];
    simpl; try discriminate; try (now destruct r).
  destruct (find_entry s es); [apply IH|reflexivity].
Qed.

Lemma isPrefix_app_r q : forall p r,
  fs.isPrefix q p = true -> fs.isPrefix q (p ++ r) = true.
Proof.
  induction q as [|x q IH]; intros p r; [reflexivity|].
  destruct p as [|y p]; simpl; [discriminate|].
  destruct (x =? y)%string; [apply IH|discriminate].
Qed.

Lemma isPrefix_shorter q p r :
  fs.isPrefix q (p ++ r) = false -> fs.isPrefix q p = false.
Proof.
  intros H. destruct (fs.isPrefix q p) eqn:E; [|reflexivity].
  now rewrite (isPrefix_app_r _ _ r E) in H.
Qed.

Lemma isPrefix_longer p s : fs.isPrefix (p ++ [s]) p = false.
Proof.
  induction p as [|x p IH]; simpl; [reflexivity|].
  now rewrite String.eqb_refl.
Qed.

Lemma upload_handler_steps cs slug target name bytes now disk :
  Forall (fun s => plainSegment s = true) cs ->
  plainSegment slug = true ->
  ~ In ".." (Js.split_slash (orEmpty target)) ->
  plainSegment name = true ->
  let dir := (cs ++ ["posts"; slug] ++ relativeSegments (orEmpty target))%list in
  fs.creatable dir disk = true ->
  (forall es, fs.lstat (dir ++ [name]) disk <> Ok (Dir es)) ->
  exists d1 d2 d3,
    fs.mkdirp (cs ++ ["posts"; slug]) disk = Ok d1
    /\ fs.mkdirp dir d1 = Ok d2
    /\ fs.put (dir ++ [name]) (File bytes now) d2 = Ok d3
    /\ upload_handler (absPath cs) slug target
                      (Some {| originalname := name; size := bytes |}) now disk
       = (Ok {| status := 201; message := "File uploaded" |}, d3).
Proof.
  intros Hcs Hslug Hno Hname dir Hcreat Hnodir.
  pose proof (plain_post _ _ Hcs Hslug) as Hpost.
  assert (Hne : (cs ++ ["posts"; slug])%list <> []) by now destruct cs.
  destruct (resolveWithin_descends _ (orEmpty target) Hne Hpost Hno)
    as [dest [Hres [Hsegs _]]].
  assert (Habs : path.isAbsolute dest = true).
  { pose proof Hres as Hres'.
    rewrite (resolveWithin_absolute _ _ (absPath_isAbsolute _)) in Hres'.
    destruct (Js.startsWith _ _); [|discriminate]. injection Hres' as <-.
    apply join_isAbsolute, absPath_isAbsolute. }
  assert (Hdir : path.segments dest = dir)
    by (rewrite Hsegs; unfold dir; now rewrite <- app_assoc).
  assert (Hc0 : fs.creatable (cs ++ ["posts"; slug]) disk = true).
  { apply (creatable_app _ (relativeSegments (orEmpty target))).
    now rewrite <- app_assoc. }
  destruct (mkdirp_creatable _ _ Hc0) as [d1 Hm1].
  pose proof (mkdirp_keeps_creatable _ _ _ _ Hcreat Hm1) as Hc1.
  destruct (mkdirp_creatable _ _ Hc1) as [d2 Hm2].
  destruct (mkdirp_lstat _ _ _ Hm2) as [es Hes].
  destruct (put_child dir name (File bytes now) d2 es Hes) as [d3 [Hput _]].
  exists d1, d2, d3. split; [exact Hm1|]. split; [exact Hm2|].
  split; [exact Hput|].
  unfold upload_handler. run_handler.
  rewrite (resolvePostDir_plain _ _ Hcs Hslug). step.
  rewrite (segments_absPath _ Hpost), Hm1. step.
  unfold orEmpty in Hres. rewrite Hres. step. rewrite Hdir, Hm2. step.
  cbn [originalname size].
  rewrite (segments_join_plain _ _ Habs Hname), Hdir.
  unfold fs.writeFile.
  rewrite (mkdirp_frame _ _ _ _ Hm2 (isPrefix_longer _ _)).
  assert (Hlonger : fs.isPrefix (dir ++ [name]) (cs ++ ["posts"; slug]) = false).
  { unfold dir. rewrite (app_assoc cs).
    apply (isPrefix_shorter _ _ (relativeSegments (orEmpty target))).
    apply isPrefix_longer. }
  rewrite (mkdirp_frame _ _ _ _ Hm1 Hlonger).
  pose proof (Hnodir) as Hn.
  destruct (fs.lstat (dir ++ [name]) disk) as [[sz mt| |es']|e];
    try (now rewrite Hput); now elim (Hn es').
Qed.

(** X15.  An upload with a plain file name into a target without [..]
    succeeds whenever only directories stand on the way to the target and
    no directory has the file's name: the post directory and the target
    directory are created when missing, the file is found at the target
    with the uploaded size, in the place of any earlier file of that name,
    and every path that is not on the way to the file is as before. *)
Theorem upload_writes_file cs slug target name bytes now disk :
  Forall (fun s => plainSegment s = true) cs ->
  plainSegment slug = true ->
  ~ In ".." (Js.split_slash (orEmpty target)) ->
  plainSegment name = true ->
  let dir := (cs ++ ["posts"; slug] ++ relativeSegments (orEmpty target))%list in
  fs.creatable dir disk = true ->
  (forall es, fs.lstat (dir ++ [name]) disk <> Ok (Dir es)) ->
  exists disk',
    upload_handler (absPath cs) slug target
                   (Some {| originalname := name; size := bytes |}) now disk
    = (Ok {| status := 201; message := "File uploaded" |}, disk')
    /\ fs.lstat (dir ++ [name]) disk' = Ok (File bytes now)
    /\ (forall q,
           fs.isPrefix q (dir ++ [name]) = false ->
           fs.isPrefix (dir ++ [name]) q = false ->
           fs.lstat q disk' = fs.lstat q disk).
Proof.
  intros Hcs Hslug Hno Hname dir Hcreat Hnodir.
  destruct (upload_handler_steps cs slug target name bytes now disk
              Hcs Hslug Hno Hname Hcreat Hnodir)
    as [d1 [d2 [d3 [Hm1 [Hm2 [Hput Hrun]]]]]].
  fold dir in Hm2, Hput.
  exists d3. split; [exact Hrun|]. split; [exact (put_lstat _ _ _ _ Hput)|].
  intros q Hq1 Hq2.
  rewrite (put_frame _ _ _ _ _ Hput Hq2 Hq1).
  pose proof (isPrefix_shorter _ _ _ Hq1) as Hq3.
  rewrite (mkdirp_frame _ _ _ _ Hm2 Hq3). apply (mkdirp_frame _ _ _ _ Hm1).
  unfold dir in Hq3. rewrite app_assoc in Hq3.
  exact (isPrefix_shorter _ _ _ Hq3).
Qed.

Lemma upload_writes_file_witness :
  exists disk',
    upload_handler "/content" "draft" (Some "img/")
                   (Some {| originalname := "cover.png"; size := 4096 |})
                   1700001000 sampleDisk
    = (Ok {| status := 201; message := "File uploaded" |}, disk')
    /\ fs.lstat ["content"; "posts"; "draft"; "img"; "cover.png"] disk'
       = Ok (File 4096 1700001000)
    /\ fs.lstat ["content"; "posts"; "foo"] disk' = Ok samplePost.
Proof.
  assert (Hcs : Forall (fun s => plainSegment s = true) ["content"])
    by repeat constructor.
  destruct (upload_writes_file ["content"] "draft" (Some "img/") "cover.png"
              4096 1700001000 sampleDisk Hcs eq_refl)
    as [disk' [Hrun [Hfile Hframe]]].
  - simpl. intros [H|[H|[]]]; discriminate.
  - reflexivity.
  - reflexivity.
  - discriminate.
  - exists disk'. split; [exact Hrun|]. split; [exact Hfile|].
    rewrite Hframe; reflexivity.
Defined.

(** ** The file browser's rename target *)

Lemma lastIndexOfSlash_noSlash s : noSlash s = true -> lastIndexOfSlash s = None.
Proof.
  induction s as [|c s IH]; [reflexivity|]. cbn [noSlash lastIndexOfSlash].
  intros H. apply andb_prop in H. destruct H as [Hc Hs].
  rewrite (IH Hs). now destruct (Ascii.eqb c "/").
Qed.

Lemma lastIndexOfSlash_app a l :
  noSlash l = true -> lastIndexOfSlash (a ++ "/" ++ l) = Some (String.length a).
Proof.
  intros Hl. induction a as [|c a IH].
  - cbn [String.append lastIndexOfSlash String.length].
    now rewrite (lastIndexOfSlash_noSlash _ Hl).
  - cbn [String.append lastIndexOfSlash String.length]. cbn [String.append] in IH.
    now rewrite IH.
Qed.

Lemma slice0_app a b : slice0 (String.length a) (a ++ b) = a.
Proof.
  induction a as [|c a IH]; [now destruct b|].
  cbn [String.length String.append slice0]. now rewrite IH.
Qed.

Lemma noSlash_app_slash a l : noSlash (a ++ "/" ++ l) = false.
Proof.
  induction a as [|c a IH]; [reflexivity|].
  cbn [String.append noSlash]. cbn [String.append] in IH. rewrite IH.
  apply Bool.andb_false_r.
Qed.

Lemma getParentPath_nested a l :
  noSlash l = true -> getParentPath (a ++ "/" ++ l) = a.
Proof.
  intros Hl. unfold getParentPath, lastIndexOf, slice.
  rewrite includes_slash, noSlash_app_slash, (lastIndexOfSlash_app _ _ Hl).
  cbn [negb].
  destruct (Z.ltb_spec (Z.of_nat (String.length a)) 0) as [Hneg|_]; [lia|].
  rewrite Nat2Z.id. apply slice0_app.
Qed.

Lemma getParentPath_top l : noSlash l = true -> getParentPath l = "".
Proof.
  intros Hl. unfold getParentPath. now rewrite includes_slash, Hl.
Qed.

(** X16.  Renaming an entry through the file browser keeps it in its
    directory: for a listed path and a plain new name, the parent the
    client computes is the path without its last piece, the target it
    sends is that parent followed by the new name (with the old name it
    is the path itself), and the server resolves the target to the same
    directory inside the post. *)
Theorem rename_target_in_same_directory bs parents old name :
  bs <> [] ->
  Forall (fun s => plainSegment s = true) bs ->
  Forall (fun s => plainSegment s = true) parents ->
  plainSegment old = true ->
  plainSegment name = true ->
  let source := Js.join_slash (parents ++ [old]) in
  let target := createTargetPath (getParentPath source) name in
  getParentPath source = Js.join_slash parents
  /\ target = Js.join_slash (parents ++ [name])
  /\ createTargetPath (getParentPath source) old = source
  /\ exists resolved,
       resolveWithin (absPath bs) target = Ok resolved
       /\ path.segments resolved = (bs ++ parents ++ [name])%list.
Proof.
  intros Hne Hbs Hparents Hold Hname source target.
  assert (Hparent : getParentPath source = Js.join_slash parents).
  { unfold source. destruct parents as [|x l].
    - apply getParentPath_top, plainSegment_noSlash, Hold.
    - rewrite join_slash_app by discriminate.
      apply getParentPath_nested, plainSegment_noSlash, Hold. }
  assert (Hmake : forall n, createTargetPath (Js.join_slash parents) n
                            = Js.join_slash (parents ++ [n])).
  { intros n. unfold createTargetPath, Js.truthy. destruct parents as [|x l].
    - reflexivity.
    - inversion Hparents as [|? ? Hx _]; subst.
      rewrite (proj2 (String.eqb_neq _ _) (join_slash_nonempty x l Hx)).
      cbn [negb]. now rewrite join_slash_app by discriminate. }
  assert (Htarget : target = Js.join_slash (parents ++ [name]))
    by (unfold target; now rewrite Hparent, Hmake).
  split; [exact Hparent|]. split; [exact Htarget|].
  split; [now rewrite Hparent, Hmake|].
  assert (Hall : Forall (fun s => plainSegment s = true) (parents ++ [name]))
    by (apply Forall_app; split; [assumption|now repeat constructor]).
  assert (Hsplit : Js.split_slash target = (parents ++ [name])%list).
  { rewrite Htarget. apply split_join_slash; [now destruct parents|].
    now apply plain_all_noSlash. }
  destruct (resolveWithin_descends bs target Hne Hbs) as [resolved [Hres [Hsegs _]]].
  { rewrite Hsplit. now apply plain_not_dotdot. }
  exists resolved. split; [exact Hres|].
  rewrite Hsegs. unfold relativeSegments. now rewrite Hsplit, (filter_plain _ Hall).
Qed.

Lemma rename_target_in_same_directory_witness :
  getParentPath "A/img/logo.png" = "A/img"
  /\ createTargetPath (getParentPath "A/img/logo.png") "icon.png"
     = "A/img/icon.png"
  /\ exists resolved,
       resolveWithin "/content/posts/foo" "A/img/icon.png" = Ok resolved
       /\ path.segments resolved
          = ["content"; "posts"; "foo"; "A"; "img"; "icon.png"].
Proof.
  destruct (rename_target_in_same_directory
              ["content"; "posts"; "foo"] ["A"; "img"] "logo.png" "icon.png")
    as [Hparent [Htarget [_ Hres]]].
  - discriminate.
  - repeat constructor.
  - repeat constructor.
  - reflexivity.
  - reflexivity.
  - split; [exact Hparent|]. split; [exact Htarget|]. exact Hres.
Defined.

(** ** Deleting an entry, then listing *)

Lemma wellFormed_intro entries :
  uniqueNames (map fst entries) = true ->
  Forall (fun e => plainSegment (fst e) = true /\ wellFormed (snd e) = true)
         entries ->
  wellFormed (Dir entries) = true.
Proof.
  intros Hu Hall. simpl. rewrite Hu. apply forallb_forall.
  rewrite Forall_forall in Hall. intros [name entry] Hin.
  destruct (Hall _ Hin) as [Hn Hw]. simpl in Hn, Hw. now rewrite Hn, Hw.
Qed.

Lemma find_entry_In s c : forall es, find_entry s es = Some c -> In (s, c) es.
Proof.
  induction es as [|[k w] es IH]; simpl; [discriminate|].
  destruct (String.eqb_spec k s) as [->|_]; [intros [= ->]; now left|].
  intros H. right. now apply IH.
Qed.

Lemma names_remove_entry s x : forall es,
  In x (map fst (remove_entry s es)) -> In x (map fst es).
Proof.
  intros es H. apply in_map_iff in H. destruct H as [e [<- He]].
  apply In_remove_entry in He. now apply in_map.
Qed.

Lemma uniqueNames_remove s : forall es,
  uniqueNames (map fst es) = true ->
  uniqueNames (map fst (remove_entry s es)) = true.
Proof.
  induction es as [|[k w] es IH]; [reflexivity|]. cbn [map fst uniqueNames remove_entry].
  intros H. apply andb_true_iff in H as [Hfresh Hu].
  destruct (k =? s)%string; [now apply IH|].
  cbn [map fst uniqueNames]. rewrite (IH Hu), Bool.andb_true_r.
  apply negb_true_iff in Hfresh. apply negb_true_iff.
  destruct (existsb _ (map fst (remove_entry s es))) eqn:E; [|reflexivity].
  apply existsb_exists in E. destruct E as [x [Hx Hkx]].
  rewrite <- Hfresh. symmetry. apply existsb_exists.
  exists x. split; [now apply (names_remove_entry s)|exact Hkx].
Qed.

Lemma names_set_entry s c c' : forall es,
  find_entry s es = Some c -> map fst (set_entry s c' es) = map fst es.
Proof.
  induction es as [|[k w] es IH]; simpl; [discriminate|].
  destruct (k =? s)%string; [reflexivity|].
  intros H. simpl. now rewrite (IH H).
Qed.

Lemma In_set_entry s c' e : forall es,
  In e (set_entry s c' es) -> In e es \/ e = (s, c').
Proof.
  induction es as [|[k w] es IH]; simpl.
  - intros [<-|[]]. now right.
  - destruct (String.eqb_spec k s) as [->|_]; simpl.
    + intros [<-|H]; auto.
    + intros [<-|H]; [auto|]. destruct (IH H); auto.
Qed.

(** Removing an entry keeps a directory tree well formed. *)
Lemma rm_wellFormed p : forall n n',
  wellFormed n = true -> fs.rm p n = Ok n' -> wellFormed n' = true.
Proof.
  induction p as [|s p IH]; intros n n' Hwf; [discriminate|].
  destruct n as [sz mt| |es]; cbn [fs.rm]; [discriminate|now intros [= <-]|].
  destruct (wellFormed_entries _ Hwf) as [Hu Hall].
  rewrite Forall_forall in Hall.
  destruct p as [|s' p'].
  - intros [= <-]. apply wellFormed_intro; [now apply uniqueNames_remove|].
    apply Forall_forall. intros e He. apply In_remove_entry in He.
    now apply Hall.
  - destruct (find_entry s es) as [c|] eqn:Hc; [|now intros [= <-]].
    destruct (fs.rm (s' :: p') c) as [c'|e] eqn:Hrm; [|discriminate].
    intros [= <-]. pose proof (find_entry_In _ _ _ Hc) as Hin.
    destruct (Hall _ Hin) as [Hs Hcw]. simpl in Hs, Hcw.
    apply wellFormed_intro; [now rewrite (names_set_entry _ _ _ _ Hc)|].
    apply Forall_forall. intros e He.
    destruct (In_set_entry _ _ _ _ He) as [Hold| ->]; [now apply Hall|].
    simpl. split; [exact Hs|]. exact (IH _ _ Hcw Hrm).
Qed.

Lemma rm_app p : forall r n n' d,
  r <> [] -> fs.lstat p n = Ok d -> fs.rm (p ++ r) n = Ok n' ->
  exists d', fs.rm r d = Ok d' /\ fs.lstat p n' = Ok d'.
Proof.
  induction p as [|a p IH]; intros r n n' d Hr.
  - simpl. intros [= ->] H. eauto.
  - destruct n as [sz mt| |es]; simpl; try discriminate.
    destruct (find_entry a es) as [c|] eqn:Hc; [|discriminate].
    intros Hd. destruct (p ++ r)%list as [|x l] eqn:E.
    + apply app_eq_nil in E. destruct E. congruence.
    + rewrite <- E. destruct (fs.rm (p ++ r) c) as [c'|e] eqn:Hrm; [|discriminate].
      intros [= <-]. destruct (IH _ _ _ _ Hr Hd Hrm) as [d' [H1 H2]].
      exists d'. split; [exact H1|]. simpl. now rewrite find_set_same.
Qed.

(** X17.  What has been deleted is no longer listed: after a successful
    delete of a target below the post, no path in the post's file listing
    is the target or lies below it. *)
Theorem deleted_entry_not_listed
        cs slug localeCompare target disk dir r disk' items i :
  Forall (fun s => plainSegment s = true) cs ->
  plainSegment slug = true ->
  ~ In ".." (Js.split_slash target) ->
  fs.lstat (cs ++ ["posts"; slug]) disk = Ok dir ->
  wellFormed dir = true ->
  delete_files (absPath cs) slug (Some target) disk = (Ok r, disk') ->
  get_files (absPath cs) localeCompare slug disk' = (Ok items, disk') ->
  listed i items ->
  fs.isPrefix (relativeSegments target) (Js.split_slash (itemPath i)) = false.
Proof.
  intros Hcs Hslug Hno Hdir Hwf Hdel Hget Hi.
  pose proof (plain_post _ _ Hcs Hslug) as Hall.
  assert (Hne : (cs ++ ["posts"; slug])%list <> []) by now destruct cs.
  destruct (resolveWithin_descends _ target Hne Hall Hno)
    as [targetPath [Hres [Hsegs _]]].
  destruct (delete_files_ok _ _ _ _ _ _ _ _
              (resolvePostDir_plain _ _ Hcs Hslug) Hres Hdel)
    as [_ [_ [Hrm _]]].
  rewrite Hsegs in Hrm.
  revert Hget. unfold get_files. run_handler.
  rewrite (resolvePostDir_plain _ _ Hcs Hslug). step.
  rewrite (segments_absPath _ Hall).
  destruct (fs.access _ disk') eqn:Hacc; step; [|discriminate].
  destruct (relativeSegments target) as [|t ts] eqn:Hrel.
  { rewrite app_nil_r in Hrm. unfold fs.access in Hacc.
    now rewrite (rm_lstat _ _ _ Hrm) in Hacc. }
  destruct (rm_app _ (t :: ts) _ _ _ ltac:(discriminate) Hdir Hrm)
    as [dir' [Hrm' Hdir']].
  rewrite Hdir'.
  destruct (directoryTree _ dir' _ _) as [items'|e] eqn:D; [|discriminate].
  intros [= ->].
  destruct (directoryTree_items localeCompare _ dir' (rm_wellFormed _ _ _ Hwf Hrm')
              _ [] items (absPath_isAbsolute _) (eq_sym (app_nil_r _)) D i Hi)
    as [suffix [entry [Hsne [Hplain [Hp [Hl _]]]]]].
  simpl in Hp.
  assert (Hsplit : Js.split_slash (itemPath i) = suffix)
    by (rewrite Hp; apply split_join_slash;
        [assumption|now apply plain_all_noSlash]).
  rewrite Hsplit.
  destruct (fs.isPrefix (t :: ts) suffix) eqn:Hpre; [|reflexivity].
  apply isPrefix_split in Hpre. destruct Hpre as [rest ->].
  rewrite lstat_app, (rm_lstat _ _ _ Hrm') in Hl. discriminate.
Qed.

Lemma deleted_entry_not_listed_witness :
  exists disk' items,
    delete_files "/content" "foo" (Some "A") sampleDisk
    = (Ok {| status := 200; message := "Deleted successfully" |}, disk')
    /\ get_files "/content" sampleCollate "foo" disk' = (Ok items, disk')
    /\ forall i, listed i items ->
                 fs.isPrefix ["A"] (Js.split_slash (itemPath i)) = false.
Proof.
  assert (Hcs : Forall (fun s => plainSegment s = true) ["content"])
    by repeat constructor.
  exists (snd (delete_files "/content" "foo" (Some "A") sampleDisk)).
  exists [FileItem "a.md" "a.md" 9 1700000200;
          FileItem "b.md" "b.md" 7 1700000300;
          FileItem "index.md" "index.md" 120 1700000000].
  split; [reflexivity|]. split; [reflexivity|]. intros i Hi.
  refine (deleted_entry_not_listed ["content"] "foo" sampleCollate "A" sampleDisk
            samplePost _ _ _ i Hcs eq_refl _ eq_refl eq_refl eq_refl eq_refl Hi).
  simpl. intros [H|[]]; discriminate.
Defined.

(** ** Renaming a post, then listing *)

Lemma set_entry_absent s v : forall es,
  find_entry s es = None -> set_entry s v es = (es ++ [(s, v)])%list.
Proof.
  induction es as [|[k w] es IH]; simpl; [reflexivity|].
  destruct (k =? s)%string; [discriminate|]. intros H. now rewrite (IH H).
Qed.

Lemma find_remove_none s x es :
  find_entry x es = None -> find_entry x (remove_entry s es) = None.
Proof.
  intros H. destruct (String.eqb_spec x s) as [->|Hne].
  - apply find_remove_same.
  - now rewrite find_remove_other.
Qed.

Lemma summarize_app CONTENT_ROOT dirMtime l2 : forall l1 disk,
  summarize CONTENT_ROOT dirMtime (l1 ++ l2) disk
  = match summarize CONTENT_ROOT dirMtime l1 disk with
    | (Ok a, d1) =>
        match summarize CONTENT_ROOT dirMtime l2 d1 with
        | (Ok b, d2) => (Ok (a ++ b)%list, d2)
        | (Err e, d2) => (Err e, d2)
        end
    | (Err e, d1) => (Err e, d1)
    end.
Proof.
  induction l1 as [|[name isDir] rest IH]; intros disk.
  - simpl. now destruct (summarize _ _ l2 disk) as [[b|e] d2].
  - cbn [app summarize]. destruct isDir; [|apply IH].
    unfold bind, ret, statOrNull. unfold stat.
    destruct (fs.lstat _ disk) as [[sz mt| |es]|e]; try reflexivity;
      (destruct (fs.lstat _ disk) as [[sz' mt'| |es']|e'];
       rewrite IH;
       destruct (summarize CONTENT_ROOT dirMtime rest disk) as [[a|e1] d1];
       try reflexivity;
       now destruct (summarize CONTENT_ROOT dirMtime l2 d1) as [[b|e2] d2]).
Qed.

Lemma summarize_one cs dirMtime name disk children :
  Forall (fun s => plainSegment s = true) cs ->
  plainSegment name = true ->
  fs.lstat (cs ++ ["posts"; name]) disk = Ok (Dir children) ->
  exists s,
    summarize (absPath cs) dirMtime [(name, true)] disk = (Ok [s], disk)
    /\ postName s = name
    /\ postSlug s = name
    /\ postHasIndex s
       = match find_entry "index.md" children with
         | Some (File _ _) | Some (Dir _) => true
         | _ => false
         end.
Proof.
  intros Hcs Hname Hdir.
  assert (Hp : Forall (fun s => plainSegment s = true) (cs ++ ["posts"]))
    by (apply Forall_app; split; [assumption|now repeat constructor]).
  destruct (plain_parts _ Hname) as [Hn [He [Hd Hdd]]].
  pose proof (plain_post _ _ Hcs Hname) as Hpn.
  assert (Hpi : Forall (fun s => plainSegment s = true)
                       (cs ++ ["posts"; name; "index.md"]))
    by (apply Forall_app; split; [assumption|now repeat constructor]).
  cbn [summarize]. rewrite (POSTS_DIR_absPath _ Hcs).
  rewrite (join_valid_name _ name Hp Hn He Hdd).
  destruct (String.eqb_spec name "."); [congruence|].
  rewrite <- app_assoc. cbn [app].
  rewrite (join_valid_name _ "index.md" Hpn eq_refl) by discriminate.
  cbn [String.eqb Ascii.eqb Bool.eqb]. rewrite <- app_assoc. cbn [app].
  unfold bind, ret, statOrNull. unfold stat.
  rewrite (segments_absPath _ Hpn), (segments_absPath _ Hpi), Hdir.
  change (cs ++ ["posts"; name; "index.md"])%list
    with (cs ++ ["posts"; name] ++ ["index.md"])%list.
  rewrite app_assoc, lstat_app, Hdir. cbn [fs.lstat].
  destruct (find_entry "index.md" children) as [[sz mt| |es]|];
    eexists; (split; [reflexivity|]); auto.
Qed.

Lemma filter_all {A} (f : A -> bool) l :
  Forall (fun x => f x = true) l -> filter f l = l.
Proof.
  induction 1 as [|x l Hx _ IH]; simpl; [reflexivity|]. now rewrite Hx, IH.
Qed.

(** X18.  After a post is renamed to a free name the posts listing
    answers again: it reports one post under the new name, with name and
    slug equal to it and the index flag of the renamed post, and reports
    every other post with the fields and in the order of the listing from
    before the rename. *)
Theorem renamed_post_in_listing
        cs dirMtime slug newName disk entries children posts :
  Forall (fun s => plainSegment s = true) cs ->
  plainSegment slug = true ->
  assertValidName (Some newName) = Ok tt ->
  newName <> "." ->
  fs.lstat (cs ++ ["posts"]) disk = Ok (Dir entries) ->
  wellFormed (Dir entries) = true ->
  find_entry slug entries = Some (Dir children) ->
  find_entry newName entries = None ->
  get_posts (absPath cs) dirMtime disk = (Ok posts, disk) ->
  exists disk' posts' renamed,
    put_post (absPath cs) slug (Some newName) disk
    = (Ok {| postStatus := 200; postMessage := "Post renamed";
             postNewName := newName |}, disk')
    /\ get_posts (absPath cs) dirMtime disk' = (Ok posts', disk')
    /\ filter (fun s => negb (postName s =? newName)%string) posts'
       = filter (fun s => negb (postName s =? slug)%string) posts
    /\ Permutation posts'
         (renamed :: filter (fun s => negb (postName s =? slug)%string) posts)
    /\ postName renamed = newName
    /\ postSlug renamed = newName
    /\ postHasIndex renamed
       = match find_entry "index.md" children with
         | Some (File _ _) | Some (Dir _) => true
         | _ => false
         end.
Proof.
  intros Hcs Hslug Hvalid Hdot Hdir Hwf Hfind Hfree Hget.
  destruct (wellFormed_entries _ Hwf) as [Huniq Hgood].
  rewrite Forall_forall in Hgood.
  assert (Hp : Forall (fun s => plainSegment s = true) (cs ++ ["posts"]))
    by (apply Forall_app; split; [assumption|now repeat constructor]).
  destruct (assertValidName_ok _ Hvalid) as [Hn [He Hdd]].
  assert (Hnew : plainSegment newName = true).
  { unfold plainSegment. rewrite Hn.
    now rewrite (proj2 (String.eqb_neq _ _) He), (proj2 (String.eqb_neq _ _) Hdot),
                (proj2 (String.eqb_neq _ _) Hdd). }
  destruct (put_post_moves cs slug newName disk entries (Dir children)
              Hcs Hslug Hvalid Hdir Hfind ltac:(discriminate) Hdot Hfree)
    as [disk' [Hput [Hl Hframe]]].
  rewrite (set_entry_absent _ _ _ (find_remove_none slug _ _ Hfree)) in Hl.
  rewrite (get_posts_run _ _ _ _ Hcs Hdir) in Hget.
  destruct (fs.access (cs ++ ["website.fish"]) disk) eqn:Hscript; [|discriminate].
  destruct (summarize _ _ _ disk) as [[raw|e] d] eqn:S; [|discriminate].
  injection Hget as <- ->.
  assert (Hnd : forall name rest,
             name <> slug -> name <> newName ->
             fs.lstat (cs ++ "posts" :: name :: rest) disk'
             = fs.lstat (cs ++ "posts" :: name :: rest) disk).
  { intros name rest H1 H2.
    assert (E1 : (slug =? name)%string = false) by (apply String.eqb_neq; congruence).
    assert (E2 : (name =? slug)%string = false) by (now apply String.eqb_neq).
    assert (E3 : (newName =? name)%string = false)
      by (apply String.eqb_neq; congruence).
    assert (E4 : (name =? newName)%string = false) by (now apply String.eqb_neq).
    apply Hframe; rewrite isPrefix_app; simpl; now rewrite ?E1, ?E2, ?E3, ?E4. }
  assert (Hscript' : fs.access (cs ++ ["website.fish"]) disk' = true).
  { unfold fs.access in Hscript |- *.
    rewrite (Hframe (cs ++ ["website.fish"])%list)
      by (rewrite isPrefix_app; reflexivity).
    exact Hscript. }
  assert (Hfresh : forall k v, In (k, v) entries -> k <> newName).
  { intros k v Hin ->. rewrite (find_entry_unique _ _ _ Huniq Hin) in Hfree.
    discriminate. }
  pose proof (summarize_remove _ _ slug _ _ _ S) as Hrem.
  pose proof (summarize_disk (absPath cs) dirMtime
                (map (fun e => (fst e, isDirectory (snd e)))
                     (remove_entry slug entries)) disk') as Hsnd.
  assert (Hfst : fst (summarize (absPath cs) dirMtime
                        (map (fun e => (fst e, isDirectory (snd e)))
                             (remove_entry slug entries)) disk')
                 = fst (summarize (absPath cs) dirMtime
                          (map (fun e => (fst e, isDirectory (snd e)))
                               (remove_entry slug entries)) disk)).
  { apply summarize_ext. intros name Hin dirPath. subst dirPath.
    apply in_map_iff in Hin. destruct Hin as [[k v] [[= -> _] Hin]].
    apply In_remove_entry in Hin. destruct Hin as [Hin Hne]. simpl in Hne.
    pose proof (Hfresh _ _ Hin) as Hnn.
    destruct (Hgood _ Hin) as [Hname _]. simpl in Hname.
    destruct (plain_parts _ Hname) as [Hn' [He' [Hd' Hdd']]].
    rewrite (POSTS_DIR_absPath _ Hcs).
    rewrite (join_valid_name _ name Hp Hn' He' Hdd').
    destruct (String.eqb_spec name "."); [congruence|].
    rewrite <- app_assoc. cbn [app].
    pose proof (plain_post _ _ Hcs Hname) as Hpn.
    rewrite (join_valid_name _ "index.md" Hpn eq_refl) by discriminate.
    cbn [String.eqb Ascii.eqb Bool.eqb]. rewrite <- app_assoc. cbn [app].
    assert (Hpi : Forall (fun s => plainSegment s = true)
                         (cs ++ ["posts"; name; "index.md"]))
      by (apply Forall_app; split; [assumption|now repeat constructor]).
    rewrite (segments_absPath _ Hpn), (segments_absPath _ Hpi).
    split; now apply Hnd. }
  rewrite Hrem in Hfst.
  destruct (summarize_one cs dirMtime newName disk' children Hcs Hnew)
    as [renamed [Hone [Hrn [Hrs Hri]]]].
  { change (cs ++ ["posts"; newName])%list with (cs ++ ["posts"] ++ [newName])%list.
    rewrite app_assoc, lstat_app, Hl. cbn [fs.lstat].
    assert (Hlast : forall es x, find_entry newName es = None ->
                                 find_entry newName (es ++ [(newName, x)]) = Some x).
    { induction es as [|[k w] es IH]; intros x; simpl;
        [now rewrite String.eqb_refl|].
      destruct (k =? newName)%string; [discriminate|apply IH]. }
    now rewrite (Hlast _ _ (find_remove_none slug _ _ Hfree)). }
  set (keep := fun s => negb (postName s =? slug)%string) in *.
  assert (Hraw : Forall (fun s => negb (postName s =? newName)%string = true) raw).
  { destruct (summarize_names _ _ _ _ _ _ S) as [_ [Hnames _]].
    apply Forall_forall. intros s Hs.
    assert (Hin : In (postName s) (map postName raw)) by now apply in_map.
    rewrite Hnames in Hin. apply in_map_iff in Hin.
    destruct Hin as [[k b] [Hk Hin]]. simpl in Hk. subst k.
    apply filter_In in Hin. destruct Hin as [Hin _].
    apply in_map_iff in Hin. destruct Hin as [[k v] [[= <- _] Hin]].
    apply negb_true_iff, String.eqb_neq. exact (Hfresh _ _ Hin). }
  assert (Hkeepraw : Forall (fun s => negb (postName s =? newName)%string = true)
                            (filter keep raw)).
  { rewrite Forall_forall in Hraw |- *. intros s Hs. apply Hraw.
    now apply filter_In in Hs. }
  exists disk', (sortPosts (filter keep raw ++ [renamed])), renamed.
  split; [exact Hput|]. split; [|split; [|split; [|auto]]].
  - rewrite (get_posts_run _ _ _ _ Hcs Hl), Hscript'.
    rewrite map_app. cbn [map fst snd isDirectory].
    rewrite summarize_app.
    destruct (summarize _ _ _ disk') as [res d']. simpl in Hsnd, Hfst. subst.
    now rewrite Hone.
  - rewrite <- sortPosts_filter, filter_app. cbn [filter].
    rewrite Hrn, String.eqb_refl. cbn [negb]. rewrite app_nil_r.
    rewrite (filter_all _ _ Hkeepraw). apply sortPosts_filter.
  - rewrite <- sortPosts_perm. rewrite <- Permutation_cons_append.
    apply perm_skip. rewrite <- sortPosts_filter. apply sortPosts_perm.
Qed.

Lemma renamed_post_in_listing_witness :
  exists disk' posts',
    put_post "/content" "foo" (Some "bar") registryDisk
    = (Ok {| postStatus := 200; postMessage := "Post renamed";
             postNewName := "bar" |}, disk')
    /\ get_posts "/content" sampleDirMtime disk' = (Ok posts', disk')
    /\ map postName
           (filter (fun s => negb (postName s =? "bar")%string) posts')
       = ["foobar"].
Proof.
  assert (Hcs : Forall (fun s => plainSegment s = true) ["content"])
    by repeat constructor.
  destruct (renamed_post_in_listing ["content"] sampleDirMtime "foo" "bar"
              registryDisk _ _ _ Hcs eq_refl eq_refl ltac:(discriminate)
              eq_refl eq_refl eq_refl eq_refl eq_refl)
    as [disk' [posts' [renamed [Hput [Hget [Hothers _]]]]]].
  exists disk', posts'. split; [exact Hput|]. split; [exact Hget|].
  rewrite Hothers. reflexivity.
Defined.

(** ** How far the two guards together can reach *)

Lemma prefix_trans a : forall b c,
  String.prefix a b = true -> String.prefix b c = true ->
  String.prefix a c = true.
Proof.
  induction a as [|x a IH]; intros b c Hab Hbc; [now destruct c|].
  destruct b as [|y b]; [discriminate|]. destruct c as [|z c]; [discriminate|].
  apply prefix_cons_inv in Hab as [-> Hab].
  apply prefix_cons_inv in Hbc as [-> Hbc].
  cbn [String.prefix]. destruct (ascii_dec z z); [|congruence]. eauto.
Qed.

Lemma withinOrSibling_cons c root r rs :
  root <> [] ->
  withinOrSibling (c :: root) (r :: rs)
  = ((c =? r)%string && withinOrSibling root rs).
Proof. destruct root; [congruence|reflexivity]. Qed.

Lemma withinOrSibling_below cs y tail : forall rs,
  withinOrSibling (cs ++ y :: tail) rs = true ->
  exists y' rest, rs = (cs ++ y' :: rest)%list /\ String.prefix y y' = true.
Proof.
  induction cs as [|c cs IH]; intros rs.
  - cbn [app]. destruct rs as [|r rs]; [simpl; now destruct tail|].
    destruct tail as [|t tail].
    + simpl. intros H. now exists r, rs.
    + rewrite withinOrSibling_cons by discriminate. intros H.
      apply andb_true_iff in H as [Hc _]. apply String.eqb_eq in Hc as <-.
      exists y, rs. split; [reflexivity|apply prefix_refl].
  - cbn [app]. destruct rs as [|r rs].
    + simpl. now destruct (cs ++ y :: tail)%list.
    + rewrite withinOrSibling_cons by now destruct cs.
      intros H. apply andb_true_iff in H as [Hc H].
      apply String.eqb_eq in Hc as <-.
      destruct (IH _ H) as [y' [rest [-> Hp]]]. now exists y', rest.
Qed.

Lemma resolvePostDir_resolveWithin CONTENT_ROOT slug postDir :
  resolvePostDir CONTENT_ROOT slug = Ok postDir ->
  resolveWithin (POSTS_DIR CONTENT_ROOT) slug = Ok postDir.
Proof.
  unfold resolvePostDir, resolveWithin.
  now destruct (negb (Js.startsWith _ (POSTS_DIR CONTENT_ROOT))).
Qed.

(** X19.  Whatever slug and relative path the two guards accept, the
    resolved path stays below the content root, inside an entry of it
    whose name starts with [posts]: the prefix test lets a request reach a
    sibling of the posts directory or of the post, never anything outside
    the content root. *)
Theorem resolved_paths_under_content_root cs slug target postDir resolved :
  Forall (fun s => plainSegment s = true) cs ->
  resolvePostDir (absPath cs) slug = Ok postDir ->
  resolveWithin postDir target = Ok resolved ->
  exists top rest,
    path.segments resolved = (cs ++ top :: rest)%list
    /\ String.prefix "posts" top = true.
Proof.
  intros Hcs Hpost Hres.
  assert (Hp : Forall (fun s => plainSegment s = true) (cs ++ ["posts"]))
    by (apply Forall_app; split; [assumption|now repeat constructor]).
  assert (Hne : (cs ++ ["posts"])%list <> []) by now destruct cs.
  apply resolvePostDir_resolveWithin in Hpost.
  rewrite (POSTS_DIR_absPath _ Hcs) in Hpost.
  pose proof Hpost as Hw. rewrite <- (append_nil_r (absPath _)) in Hw.
  apply (resolveWithin_within _ "" _ _ Hne Hp (or_introl eq_refl)) in Hw.
  destruct (withinOrSibling_below _ _ _ _ Hw) as [y [rest [Hsegs Hy]]].
  pose proof (absPath_isAbsolute (cs ++ ["posts"])) as Habs.
  rewrite (resolveWithin_absolute _ _ Habs) in Hpost.
  destruct (Js.startsWith _ _); [|discriminate]. injection Hpost as Hpost.
  destruct (join_shape _ slug Habs) as [E|[tr [Htr E]]].
  - exfalso. rewrite <- Hpost, E in Hsegs. destruct cs; discriminate.
  - rewrite Hpost in E. rewrite E in Hres.
    assert (Hne2 : path.segments postDir <> [])
      by (rewrite Hsegs; now destruct cs).
    apply (resolveWithin_within _ tr _ _ Hne2 (segments_plain _) Htr) in Hres.
    rewrite Hsegs in Hres.
    destruct (withinOrSibling_below _ _ _ _ Hres) as [y' [rest' [Hsegs' Hy']]].
    exists y', rest'. split; [exact Hsegs'|]. exact (prefix_trans _ _ _ Hy Hy').
Qed.

Lemma resolved_paths_under_content_root_witness :
  exists top rest,
    path.segments "/content/posts2x/notes.md" = ("content" :: top :: rest)
    /\ String.prefix "posts" top = true.
Proof.
  assert (Hcs : Forall (fun s => plainSegment s = true) ["content"])
    by repeat constructor.
  exact (resolved_paths_under_content_root ["content"] "../posts2"
           "../posts2x/notes.md" "/content/posts2" "/content/posts2x/notes.md"
           Hcs eq_refl eq_refl).
Defined.

(** ** The listing is complete *)

Lemma directoryTree_complete localeCompare baseDir dir :
  wellFormed dir = true ->
  forall currentDir rel items,
    path.isAbsolute currentDir = true ->
    path.segments currentDir = (path.segments baseDir ++ rel)%list ->
    directoryTree localeCompare dir currentDir baseDir = Ok items ->
    forall suffix entry,
      suffix <> [] ->
      ~ In ".DS_Store" suffix ->
      fs.lstat suffix dir = Ok entry ->
      exists i,
        listed i items
        /\ itemPath i = Js.join_slash (rel ++ suffix)
        /\ sameKind entry i.
Proof.
  induction dir as [size mtime| |entries IH] using node_entries_ind;
    intros Hwf currentDir rel items Habs Hsegs H; simpl in H; try discriminate.
  destruct (listEntries _ _ _ entries) as [raw|] eqn:L; [|discriminate].
  injection H as <-. intros suffix entry Hne Hds Hl.
  destruct suffix as [|name rest]; [congruence|]. clear Hne.
  simpl in Hl. destruct (find_entry name entries) as [e|] eqn:Hfind; [|discriminate].
  pose proof (find_entry_In _ _ _ Hfind) as Hin.
  assert (Hname : name <> ".DS_Store") by (intros ->; apply Hds; now left).
  destruct (wellFormed_entries _ Hwf) as [Huniq Hgood].
  rewrite Forall_forall in Hgood, IH.
  destruct (Hgood _ Hin) as [Hplain Hwfe]. simpl in Hplain, Hwfe.
  pose proof (segments_join_plain _ _ Habs Hplain) as Hfull.
  rewrite Hsegs, <- app_assoc in Hfull.
  pose proof (relative_descendant _ _ _ Hfull) as Hrel.
  assert (Hsub : forall l raw',
             listEntries
               (fun fullPath entry =>
                  directoryTree localeCompare entry fullPath baseDir)
               currentDir baseDir l = Ok raw' ->
             In (name, e) l ->
             match e with
             | File sz mt =>
                 In (FileItem name (Js.join_slash (rel ++ [name])) sz mt) raw'
             | Dir es =>
                 exists children,
                   In (DirItem name (Js.join_slash (rel ++ [name])) children) raw'
                   /\ directoryTree localeCompare (Dir es)
                        (path.join [currentDir; name]) baseDir = Ok children
             | Broken => False
             end).
  { clear L raw Hin Hfind.
    induction l as [|[n0 e0] l IHl]; intros raw' L Hi; [destruct Hi|].
    simpl in L. destruct (String.eqb_spec n0 ".DS_Store") as [->|Hn0].
    - destruct Hi as [[= <- _]|Hi]; [congruence|]. now apply (IHl raw').
    - assert (Htail : forall it rest',
                 listEntries
                   (fun fullPath entry =>
                      directoryTree localeCompare entry fullPath baseDir)
                   currentDir baseDir l = Ok rest' ->
                 raw' = it :: rest' ->
                 In (name, e) l ->
                 match e with
                 | File sz mt =>
                     In (FileItem name (Js.join_slash (rel ++ [name])) sz mt) raw'
                 | Dir es =>
                     exists children,
                       In (DirItem name (Js.join_slash (rel ++ [name])) children)
                          raw'
                       /\ directoryTree localeCompare (Dir es)
                            (path.join [currentDir; name]) baseDir = Ok children
                 | Broken => False
                 end).
      { intros it rest' Lr -> Hi'. specialize (IHl _ Lr Hi').
        destruct e as [sz mt| |es]; [now right|exact IHl|].
        destruct IHl as [children [Hc Hd]]. exists children. split; [now right|auto]. }
      destruct e0 as [sz0 mt0| |es0]; try discriminate.
      + destruct (listEntries _ _ _ l) as [rest'|] eqn:Lr; [|discriminate].
        injection L as <-.
        destruct Hi as [[= -> <-]|Hi]; [|now apply (Htail _ _ eq_refl eq_refl)].
        rewrite Hrel. now left.
      + destruct (directoryTree localeCompare (Dir es0) _ baseDir)
          as [children|] eqn:D; [|discriminate].
        destruct (listEntries _ _ _ l) as [rest'|] eqn:Lr; [|discriminate].
        injection L as <-.
        destruct Hi as [[= -> <-]|Hi]; [|now apply (Htail _ _ eq_refl eq_refl)].
        exists children. rewrite Hrel. split; [now left|exact D]. }
  specialize (Hsub _ _ L Hin).
  destruct rest as [|r rest].
  - simpl in Hl. injection Hl as <-.
    destruct e as [sz mt| |es]; [| contradiction |].
    + exists (FileItem name (Js.join_slash (rel ++ [name])) sz mt).
      split; [|simpl; auto]. constructor.
      eapply Permutation_in; [apply sortItems_perm|exact Hsub].
    + destruct Hsub as [children [Hc _]].
      exists (DirItem name (Js.join_slash (rel ++ [name])) children).
      split; [|simpl; auto]. constructor.
      eapply Permutation_in; [apply sortItems_perm|exact Hc].
  - destruct e as [sz mt| |es]; try discriminate.
    destruct Hsub as [children [Hc Hd]].
    specialize (IH _ Hin). simpl in IH.
    destruct (IH Hwfe _ (rel ++ [name])%list _ (join_isAbsolute _ _ Habs)
                 Hfull Hd (r :: rest) entry)
      as [i [Hi [Hp Hk]]]; [discriminate|intros Hbad; apply Hds; now right|exact Hl|].
    exists i. split; [|split; [|exact Hk]].
    + eapply listed_below; [|exact Hi].
      eapply Permutation_in; [apply sortItems_perm|exact Hc].
    + now rewrite Hp, <- app_assoc.
Qed.

(** X20.  The file listing of a post is complete: every entry that exists
    below the post directory, at any depth, on a path with no piece called
    [.DS_Store], is reported by a successful listing, under its path
    relative to the post and with its kind (for a file, its size and
    modification time). *)
Theorem listing_is_complete
        cs slug localeCompare disk dir items disk' suffix entry :
  Forall (fun s => plainSegment s = true) cs ->
  plainSegment slug = true ->
  fs.lstat (cs ++ ["posts"; slug]) disk = Ok dir ->
  wellFormed dir = true ->
  get_files (absPath cs) localeCompare slug disk = (Ok items, disk') ->
  suffix <> [] ->
  ~ In ".DS_Store" suffix ->
  fs.lstat ((cs ++ ["posts"; slug]) ++ suffix) disk = Ok entry ->
  exists i,
    listed i items
    /\ itemPath i = Js.join_slash suffix
    /\ sameKind entry i.
Proof.
  intros Hcs Hslug Hdir Hwf Hget Hne Hds Hl.
  pose proof (plain_post _ _ Hcs Hslug) as Hall.
  revert Hget. unfold get_files. run_handler.
  rewrite (resolvePostDir_plain _ _ Hcs Hslug). step.
  rewrite (segments_absPath _ Hall).
  destruct (fs.access _ disk); step; [|discriminate].
  rewrite Hdir.
  destruct (directoryTree _ dir _ _) as [items'|e] eqn:D; [|discriminate].
  intros [= -> _].
  rewrite lstat_app, Hdir in Hl.
  exact (directoryTree_complete localeCompare _ dir Hwf _ [] items
           (absPath_isAbsolute _) (eq_sym (app_nil_r _)) D suffix entry Hne Hds Hl).
Qed.

Lemma listing_is_complete_witness :
  exists i,
    listed i (sortItems sampleCollate
                [FileItem "index.md" "index.md" 120 1700000000;
                 FileItem "b.md" "b.md" 7 1700000300;
                 DirItem "A" "A" [FileItem "logo.png" "A/logo.png" 2048 1700000100];
                 FileItem "a.md" "a.md" 9 1700000200])
    /\ itemPath i = "A/logo.png"
    /\ sameKind (File 2048 1700000100) i.
Proof.
  assert (Hcs : Forall (fun s => plainSegment s = true) ["content"])
    by repeat constructor.
  refine (listing_is_complete ["content"] "foo" sampleCollate sampleDisk samplePost
            _ sampleDisk ["A"; "logo.png"] (File 2048 1700000100)
            Hcs eq_refl eq_refl eq_refl eq_refl _ _ eq_refl).
  - discriminate.
  - simpl. intros [H|[H|[]]]; discriminate.
Defined.

(** ** Uploading, then listing *)

Lemma names_set_entry_in s c x : forall es,
  In x (map fst (set_entry s c es)) -> In x (map fst es) \/ x = s.
Proof.
  intros es H. apply in_map_iff in H. destruct H as [e [<- He]].
  destruct (In_set_entry _ _ _ _ He) as [Hold| ->];
    [left; now apply in_map|now right].
Qed.

Lemma uniqueNames_set_entry s c : forall es,
  uniqueNames (map fst es) = true ->
  uniqueNames (map fst (set_entry s c es)) = true.
Proof.
  induction es as [|[k w] es IH]; [reflexivity|].
  cbn [map fst uniqueNames set_entry].
  intros H. apply andb_true_iff in H as [Hfresh Hu].
  destruct (String.eqb_spec k s) as [->|Hks]; cbn [map fst uniqueNames].
  - now rewrite Hfresh, Hu.
  - rewrite (IH Hu), Bool.andb_true_r.
    apply negb_true_iff in Hfresh. apply negb_true_iff.
    destruct (existsb _ (map fst (set_entry s c es))) eqn:E; [|reflexivity].
    apply existsb_exists in E. destruct E as [x [Hx Hkx]].
    apply String.eqb_eq in Hkx. subst x.
    destruct (names_set_entry_in _ _ _ _ Hx) as [Hold|Heq]; [|congruence].
    rewrite <- Hfresh. symmetry. apply existsb_exists.
    exists k. split; [exact Hold|apply String.eqb_refl].
Qed.

Lemma wellFormed_set_entry s c es :
  wellFormed (Dir es) = true -> plainSegment s = true -> wellFormed c = true ->
  wellFormed (Dir (set_entry s c es)) = true.
Proof.
  intros Hwf Hs Hc. destruct (wellFormed_entries _ Hwf) as [Hu Hall].
  apply wellFormed_intro; [now apply uniqueNames_set_entry|].
  rewrite Forall_forall in Hall |- *. intros e He.
  destruct (In_set_entry _ _ _ _ He) as [Hold| ->]; [now apply Hall|].
  now split.
Qed.

Lemma find_wellFormed s c es :
  wellFormed (Dir es) = true -> find_entry s es = Some c -> wellFormed c = true.
Proof.
  intros Hwf H. destruct (wellFormed_entries _ Hwf) as [_ Hall].
  rewrite Forall_forall in Hall. exact (proj2 (Hall _ (find_entry_In _ _ _ H))).
Qed.

(** Creating directories and writing files under plain names keep the
    disk well formed. *)
Lemma mkdirp_wellFormed p : forall n n',
  Forall (fun s => plainSegment s = true) p ->
  wellFormed n = true -> fs.mkdirp p n = Ok n' -> wellFormed n' = true.
Proof.
  induction p as [|s p IH]; intros n n' Hp Hwf;
    destruct n as [sz mt| |es]; simpl; try discriminate.
  - now intros [= <-].
  - inversion Hp as [|? ? Hs Hp']; subst.
    destruct (fs.mkdirp p _) as [c'|e] eqn:M; [|discriminate]. intros [= <-].
    apply wellFormed_set_entry; [exact Hwf|exact Hs|].
    apply (IH _ _ Hp') in M; [exact M|].
    destruct (find_entry s es) eqn:F; [exact (find_wellFormed _ _ _ Hwf F)|reflexivity].
Qed.

Lemma put_wellFormed p x : forall n n',
  Forall (fun s => plainSegment s = true) p ->
  wellFormed x = true ->
  wellFormed n = true -> fs.put p x n = Ok n' -> wellFormed n' = true.
Proof.
  induction p as [|s p IH]; intros n n' Hp Hx Hwf; [discriminate|].
  inversion Hp as [|? ? Hs Hp']; subst.
  destruct n as [sz mt| |es]; cbn [fs.put]; try discriminate.
  destruct p as [|s' p'].
  - intros [= <-]. now apply wellFormed_set_entry.
  - destruct (find_entry s es) as [c|] eqn:F; [|discriminate].
    destruct (fs.put (s' :: p') x c) as [c'|e] eqn:P; [|discriminate].
    intros [= <-]. apply wellFormed_set_entry; [exact Hwf|exact Hs|].
    exact (IH _ _ Hp' Hx (find_wellFormed _ _ _ Hwf F) P).
Qed.

Lemma lstat_wellFormed p : forall n d,
  wellFormed n = true -> fs.lstat p n = Ok d -> wellFormed d = true.
Proof.
  induction p as [|s p IH]; intros n d Hwf; [now intros [= <-]|].
  destruct n as [sz mt| |es]; cbn [fs.lstat]; try discriminate.
  destruct (find_entry s es) as [c|] eqn:F; [|discriminate].
  apply IH. exact (find_wellFormed _ _ _ Hwf F).
Qed.

Lemma relativeSegments_plain t :
  ~ In ".." (Js.split_slash t) ->
  Forall (fun s => plainSegment s = true) (relativeSegments t).
Proof.
  unfold relativeSegments. intros Hno. apply Forall_forall. intros s Hs.
  apply filter_In in Hs as [Hin Hf].
  pose proof (split_slash_pieces t) as Hp. rewrite Forall_forall in Hp.
  apply negb_true_iff, orb_false_iff in Hf as [H1 H2].
  unfold plainSegment. rewrite (Hp _ Hin), H1, H2.
  destruct (String.eqb_spec s ".."); [subst; contradiction|reflexivity].
Qed.

(** X21.  An uploaded file is reported by the next listing of the post:
    on a well-formed disk, after the upload of X15, every successful file
    listing contains an item at the target path followed by the file name,
    which is a file of the uploaded size. *)
Theorem uploaded_file_is_listed
        cs slug target name bytes now disk localeCompare :
  Forall (fun s => plainSegment s = true) cs ->
  plainSegment slug = true ->
  ~ In ".." (Js.split_slash (orEmpty target)) ->
  plainSegment name = true ->
  ~ In ".DS_Store" (relativeSegments (orEmpty target) ++ [name]) ->
  wellFormed disk = true ->
  let dir := (cs ++ ["posts"; slug] ++ relativeSegments (orEmpty target))%list in
  fs.creatable dir disk = true ->
  (forall es, fs.lstat (dir ++ [name]) disk <> Ok (Dir es)) ->
  exists disk',
    upload_handler (absPath cs) slug target
                   (Some {| originalname := name; size := bytes |}) now disk
    = (Ok {| status := 201; message := "File uploaded" |}, disk')
    /\ forall items d,
         get_files (absPath cs) localeCompare slug disk' = (Ok items, d) ->
         exists i,
           listed i items
           /\ itemPath i
              = Js.join_slash (relativeSegments (orEmpty target) ++ [name])
           /\ sameKind (File bytes now) i.
Proof.
  intros Hcs Hslug Hno Hname Hds Hwf dir Hcreat Hnodir.
  destruct (upload_handler_steps cs slug target name bytes now disk
              Hcs Hslug Hno Hname Hcreat Hnodir)
    as [d1 [d2 [d3 [Hm1 [Hm2 [Hput Hrun]]]]]].
  fold dir in Hm2, Hput.
  pose proof (plain_post _ _ Hcs Hslug) as Hpost.
  pose proof (relativeSegments_plain _ Hno) as Hrel.
  assert (Hdirp : Forall (fun s => plainSegment s = true) dir).
  { unfold dir. rewrite app_assoc. apply Forall_app. split; assumption. }
  assert (Hfilep : Forall (fun s => plainSegment s = true) (dir ++ [name]))
    by (apply Forall_app; split; [assumption|now repeat constructor]).
  pose proof (mkdirp_wellFormed _ _ _ Hpost Hwf Hm1) as Hw1.
  pose proof (mkdirp_wellFormed _ _ _ Hdirp Hw1 Hm2) as Hw2.
  pose proof (put_wellFormed _ (File bytes now) _ _ Hfilep eq_refl Hw2 Hput)
    as Hw3.
  pose proof (put_lstat _ _ _ _ Hput) as Hfile.
  unfold dir in Hfile. rewrite (app_assoc cs), <- app_assoc, lstat_app in Hfile.
  destruct (fs.lstat (cs ++ ["posts"; slug]) d3) as [dir'|e] eqn:Hdir';
    [|discriminate].
  exists d3. split; [exact Hrun|]. intros items d.
  unfold get_files. run_handler.
  rewrite (resolvePostDir_plain _ _ Hcs Hslug). step.
  rewrite (segments_absPath _ Hpost).
  destruct (fs.access _ d3); step; [|discriminate].
  rewrite Hdir'.
  destruct (directoryTree _ dir' _ _) as [items'|e] eqn:D; [|discriminate].
  intros [= -> _].
  apply (directoryTree_complete localeCompare _ dir'
           (lstat_wellFormed _ _ _ Hw3 Hdir') _ [] items
           (absPath_isAbsolute _) (eq_sym (app_nil_r _)) D _ _
           (fun E => app_cons_not_nil _ _ _ (eq_sym E)) Hds Hfile).
Qed.

Lemma uploaded_file_is_listed_witness :
  exists disk',
    upload_handler "/content" "foo" (Some "A")
                   (Some {| originalname := "cover.png"; size := 4096 |})
                   1700001000 sampleDisk
    = (Ok {| status := 201; message := "File uploaded" |}, disk')
    /\ exists items i,
         get_files "/content" sampleCollate "foo" disk' = (Ok items, disk')
         /\ listed i items
         /\ itemPath i = "A/cover.png"
         /\ sameKind (File 4096 1700001000) i.
Proof.
  assert (Hcs : Forall (fun s => plainSegment s = true) ["content"])
    by repeat constructor.
  destruct (uploaded_file_is_listed ["content"] "foo" (Some "A") "cover.png"
              4096 1700001000 sampleDisk sampleCollate Hcs eq_refl)
    as [disk' [Hrun Hlist]].
  - simpl. intros [H|[]]; discriminate.
  - reflexivity.
  - simpl. intros [H|[H|[]]]; discriminate.
  - reflexivity.
  - reflexivity.
  - discriminate.
  - assert (E : disk'
                = snd (upload_handler "/content" "foo" (Some "A")
                         (Some {| originalname := "cover.png"; size := 4096 |})
                         1700001000 sampleDisk))
      by (symmetry; exact (f_equal snd Hrun)).
    subst disk'. destruct (Hlist _ _ eq_refl) as [i Hi].
    eexists. split; [exact Hrun|]. eexists. exists i.
    split; [reflexivity|exact Hi].
Defined.

